(** * AI-scratchpad: realtime audio session, playback scheduling and
      text-to-speech chunking

    A shallow embedding of [src/hooks/useLiveAudio.ts] (the realtime session
    hook) and of the [ChatInterface] component (the text-to-speech pipeline,
    [chunkText], [queueAndPlayAudio], [handleReadAloud], [stopTtsPlayback]),
    followed by the properties the specification states about them.

    Conventions.
    - A JavaScript string is its sequence of UTF-16 code units ([list N]);
      [length] is the [.length] of the source.
    - Mutable refs and React state become fields of explicit state records;
      every callback is a function from state to state.  What a callback does
      to the outside world (calls on the channel, on audio nodes, on the
      scratchpad callback) is appended to an effect log carried by the state.
    - A handler runs to completion between two suspension points; where the
      source awaits, the model has one event per resumption. *)

From Stdlib Require Import Ascii String DecimalString DecimalN.
From Stdlib Require Import List Sorted Bool Arith NArith ZArith QArith Qminmax.
From Stdlib Require Import Lia Lqa.
Import ListNotations.

Close Scope Q_scope.

(* ------------------------------------------------------------------------ *)
(** ** JavaScript strings *)

Module JsString.

Abbreviation char := N (only parsing).
Abbreviation jsstring := (list N) (only parsing).

(** Reading an ASCII literal as a JavaScript string. *)
Definition js (s : string) : jsstring :=
  map N_of_ascii (list_ascii_of_string s).
Arguments js s%_string.

(** ECMAScript [LineTerminator]: LF, CR, LS, PS. *)
Definition isLineTerminator (c : char) : bool :=
  ((c =? 10) || (c =? 13) || (c =? 8232) || (c =? 8233))%N.

(** ECMAScript [WhiteSpace]: TAB, VT, FF, SP, NBSP, ZWNBSP and the code
    points of category Zs (all of them in the basic plane). *)
Definition isWhiteSpace (c : char) : bool :=
  ((c =? 9) || (c =? 11) || (c =? 12) || (c =? 32) || (c =? 160)
   || (c =? 5760) || ((8192 <=? c) && (c <=? 8202))
   || (c =? 8239) || (c =? 8287) || (c =? 12288) || (c =? 65279))%N.

(** What [String.prototype.trim] strips and what [\s] matches. *)
Definition isSpace (c : char) : bool :=
  isWhiteSpace c || isLineTerminator c.

Fixpoint dropWhile (p : char -> bool) (s : jsstring) : jsstring :=
  match s with
  | [] => []
  | c :: s' => if p c then dropWhile p s' else s
  end.

Fixpoint takeWhile (p : char -> bool) (s : jsstring) : jsstring :=
  match s with
  | [] => []
  | c :: s' => if p c then c :: takeWhile p s' else []
  end.

Definition trimStart (s : jsstring) : jsstring := dropWhile isSpace s.

(** [s.trimEnd()]: a code unit stays when something that stays follows it,
    or when it is not a space itself. *)
Fixpoint trimEnd (s : jsstring) : jsstring :=
  match s with
  | [] => []
  | c :: s' =>
      match trimEnd s' with
      | [] => if isSpace c then [] else [c]
      | kept => c :: kept
      end
  end.

(** [s.trim()] *)
Definition trim (s : jsstring) : jsstring := trimEnd (trimStart s).

(** Truthiness of a string value: every string but the empty one. *)
Definition truthy (s : jsstring) : bool :=
  match s with [] => false | _ :: _ => true end.

(** [s.substring(i, j)] for [0 <= i <= j]; [j] is clamped to the length. *)
Definition substring (s : jsstring) (i j : nat) : jsstring :=
  firstn (j - i) (skipn i s).

(** The string a template literal or [+=] produces for [undefined]. *)
Definition undefinedText : jsstring := js "undefined".

(** [t] is [s] without the white space at its two ends: what is cut off is
    white space, and [t] neither begins nor ends with white space. *)
Definition stripped (s t : jsstring) : Prop :=
  (exists pre post,
      s = pre ++ t ++ post
      /\ forallb isSpace pre = true /\ forallb isSpace post = true)
  /\ (forall c t', t = c :: t' -> isSpace c = false)
  /\ (forall t' c, t = t' ++ [c] -> isSpace c = false).

End JsString.

Import JsString.

(* ------------------------------------------------------------------------ *)
(** ** Regular expressions of the shape the source uses

    Character classes under greedy [*] and [+], concatenation and ordered
    alternation, executed by backtracking as ECMAScript does: a continuation
    receives the rest of the input and may reject it, which makes the
    enclosing quantifier give one character back, and makes an alternation
    fall through to its next branch. *)

Module Regex.

Inductive re : Type :=
| Star (cls : char -> bool)
| Plus (cls : char -> bool)
| Cat (r1 r2 : re)
| Alt (r1 r2 : re).

Fixpoint starK {A : Type} (cls : char -> bool) (s : jsstring)
         (k : jsstring -> option A) : option A :=
  match s with
  | c :: s' =>
      if cls c
      then match starK cls s' k with
           | Some r => Some r
           | None => k s
           end
      else k s
  | [] => k s
  end.

Definition plusK {A : Type} (cls : char -> bool) (s : jsstring)
           (k : jsstring -> option A) : option A :=
  match s with
  | c :: s' => if cls c then starK cls s' k else None
  | [] => None
  end.

Fixpoint run {A : Type} (r : re) (s : jsstring)
         (k : jsstring -> option A) : option A :=
  match r with
  | Star cls => starK cls s k
  | Plus cls => plusK cls s k
  | Cat r1 r2 => run r1 s (fun s' => run r2 s' k)
  | Alt r1 r2 =>
      match run r1 s k with
      | Some x => Some x
      | None => run r2 s k
      end
  end.

(** One match attempt anchored at the head of [s]: the matched text and
    what follows it. *)
Definition exec (r : re) (s : jsstring) : option (jsstring * jsstring) :=
  match run r s (fun rest => Some rest) with
  | Some rest => Some (firstn (length s - length rest) s, rest)
  | None => None
  end.

(** The scan of [String.prototype.match] with the [g] flag: every match,
    left to right; a failed attempt moves on by one code unit, and so does
    an empty match after being recorded. *)
Fixpoint scan (fuel : nat) (r : re) (s : jsstring) : list jsstring :=
  match fuel with
  | O => []
  | S fuel' =>
      match exec r s with
      | Some (m, rest) =>
          match m with
          | [] => m :: match s with
                       | [] => []
                       | _ :: s' => scan fuel' r s'
                       end
          | _ :: _ => m :: scan fuel' r rest
          end
      | None =>
          match s with
          | [] => []
          | _ :: s' => scan fuel' r s'
          end
      end
  end.

(** [s.match(r) || []] for a global [r]. *)
Definition matchAll (r : re) (s : jsstring) : list jsstring :=
  scan (S (length s)) r s.

End Regex.

(* ------------------------------------------------------------------------ *)
(** ** [chunkText] *)

Module Chunker.

(** [.], [!], [?] *)
Definition isPunct (c : char) : bool :=
  ((c =? 46) || (c =? 33) || (c =? 63))%N.

Definition notPunct (c : char) : bool := negb (isPunct c).

(** [.] without the [s] flag. *)
Definition isDot (c : char) : bool := negb (isLineTerminator c).

(** [/[^.!?]+[.!?]*\s*|.+/g] *)
Definition sentenceRe : Regex.re :=
  Regex.Alt
    (Regex.Cat (Regex.Plus notPunct)
               (Regex.Cat (Regex.Star isPunct) (Regex.Star isSpace)))
    (Regex.Plus isDot).

Definition sentences (text : jsstring) : list jsstring :=
  Regex.matchAll sentenceRe text.

(** [maxLength] counts code units: a natural number.

    The inner loop
    [for (let i = 0; i < sentence.length; i += maxLength)
       chunks.push(sentence.substring(i, i + maxLength))].
    [None] when the condition still holds after [fuel] iterations.  With
    the fuel [hardSplit] gives, that only happens to a loop whose index
    does not advance ([maxLength = 0]); the source then goes on pushing
    until [push] throws ([PushLoop] below has the array and its limit),
    so [None] stands for: no array is returned. *)
Fixpoint hardSplitFrom (fuel maxLength : nat) (sentence : jsstring) (i : nat)
  : option (list jsstring) :=
  match fuel with
  | O => if i <? length sentence then None else Some []
  | S fuel' =>
      if i <? length sentence
      then option_map (cons (substring sentence i (i + maxLength)))
                      (hardSplitFrom fuel' maxLength sentence (i + maxLength))
      else Some []
  end.

Definition hardSplit (maxLength : nat) (sentence : jsstring)
  : option (list jsstring) :=
  hardSplitFrom (length sentence) maxLength sentence 0.

(** [if (currentChunk) chunks.push(currentChunk)] *)
Definition flush (chunks : list jsstring) (currentChunk : jsstring)
  : list jsstring :=
  if truthy currentChunk then chunks ++ [currentChunk] else chunks.

(** One iteration of [for (const sentence of sentences)] on the pair
    [(chunks, currentChunk)]. *)
Definition step (maxLength : nat) (st : list jsstring * jsstring)
           (sentence : jsstring) : option (list jsstring * jsstring) :=
  let '(chunks, currentChunk) := st in
  if maxLength <? length sentence then
    match hardSplit maxLength sentence with
    | Some pieces => Some (flush chunks currentChunk ++ pieces, [])
    | None => None
    end
  else if maxLength <? length (currentChunk ++ sentence) then
    Some (flush chunks currentChunk, sentence)
  else
    Some (chunks, currentChunk ++ sentence).

Fixpoint loop (maxLength : nat) (st : list jsstring * jsstring)
         (ss : list jsstring) : option (list jsstring * jsstring) :=
  match ss with
  | [] => Some st
  | sentence :: ss' =>
      match step maxLength st sentence with
      | Some st' => loop maxLength st' ss'
      | None => None
      end
  end.

(** The array [chunks] as it stands just before the final [filter]. *)
Definition rawChunks (text : jsstring) (maxLength : nat)
  : option (list jsstring) :=
  match loop maxLength ([], []) (sentences text) with
  | Some (chunks, currentChunk) => Some (flush chunks currentChunk)
  | None => None
  end.

(** [c => c.trim().length > 0] *)
Definition nonBlank (c : jsstring) : bool := 0 <? length (trim c).

Definition chunkText (text : jsstring) (maxLength : nat)
  : option (list jsstring) :=
  option_map (filter nonBlank) (rawChunks text maxLength).

(** What one match of the sentence expression leaves, at a non-empty
    input. *)
Definition sentenceRest (c : char) (s : jsstring) : jsstring :=
  if notPunct c
  then dropWhile isSpace (dropWhile isPunct (dropWhile notPunct s))
  else dropWhile isDot s.

(** The shape of a hard split of [s] at width [m]: the pieces tile [s], all
    but the last are exactly [m] long, the last is not empty and at most
    [m] long. *)
Definition hardPieces (m : nat) (s : jsstring) (ps : list jsstring) : Prop :=
  concat ps = s
  /\ exists front lst,
       ps = front ++ [lst]
       /\ Forall (fun p => length p = m) front
       /\ 1 <= length lst <= m.

(** A code unit that [trim] keeps. *)
Definition notSpace (c : char) : bool := negb (isSpace c).

End Chunker.

Import Chunker.

(* ------------------------------------------------------------------------ *)
(** ** Clock values

    [AudioContext.currentTime], buffer durations and the loudness level are
    JavaScript numbers.  The code compares them with [Math.max], adds a
    duration to a time, and resets to zero.  The laws below are all that is
    used of these operations; the rationals satisfy them, and so do the
    doubles of the source (NaN apart). *)

Class Time (T : Type) : Type := {
  tzero : T;
  tle : T -> T -> Prop;
  tmax : T -> T -> T;
  tadd : T -> T -> T;
  tle_refl : forall a, tle a a;
  tle_trans : forall a b c, tle a b -> tle b c -> tle a c;
  tmax_ge_l : forall a b, tle a (tmax a b);
  tmax_ge_r : forall a b, tle b (tmax a b);
  tadd_ge : forall t d, tle tzero d -> tle t (tadd t d)
}.

Lemma Qadd_ge (t d : Q) : (0 <= d)%Q -> (t <= t + d)%Q.
Proof. intros H. lra. Qed.

#[export] Instance Time_Q : Time Q := {|
  tzero := 0%Q;
  tle := Qle;
  tmax := Qmax;
  tadd := Qplus;
  tle_refl := Qle_refl;
  tle_trans := Qle_trans;
  tmax_ge_l := Q.le_max_l;
  tmax_ge_r := Q.le_max_r;
  tadd_ge := Qadd_ge
|}.

(* ------------------------------------------------------------------------ *)
(** ** Playback scheduler

    The pair of refs [nextStartTimeRef] / [audioSourcesRef] of the session
    hook, and the pair [nextTtsStartTimeRef] / [ttsAudioSourcesRef] of the
    text-to-speech pipeline: two instances of one state.  A source node is
    named by the order of its creation; the calls made on source nodes are
    logged. *)

Module Scheduler.
Section WithTime.
Context {T : Type} {TT : Time T}.

(** A source node that has been started: the time given to [start] and the
    [duration] of its buffer. *)
Record PlaybackEntry : Type := {
  node : nat;
  startAt : T;
  duration : T
}.

Inductive NodeCall : Type :=
| Start (e : PlaybackEntry)
| Stop (n : nat).

Record State : Type := {
  nextStartTime : T;
  activeEntries : list PlaybackEntry;
  created : nat;
  nodeCalls : list NodeCall
}.

Definition init : State :=
  {| nextStartTime := tzero; activeEntries := []; created := 0;
     nodeCalls := [] |}.

(** [playAudio] of the session hook, the output context being there, up to
    [await decodeAudioData]:
    [nextStartTimeRef.current = Math.max(nextStartTimeRef.current, currentTime)]. *)
Definition playAudioBegin (now : T) (s : State) : State :=
  {| nextStartTime := tmax (nextStartTime s) now;
     activeEntries := activeEntries s;
     created := created s;
     nodeCalls := nodeCalls s |}.

(** [playAudio] once the buffer is decoded:
    [source.start(nextStartTimeRef.current);
     nextStartTimeRef.current += audioBuffer.duration;
     audioSourcesRef.current.add(source)]. *)
Definition playAudioFinish (d : T) (s : State) : State :=
  let e := {| node := created s; startAt := nextStartTime s; duration := d |} in
  {| nextStartTime := tadd (nextStartTime s) d;
     activeEntries := activeEntries s ++ [e];
     created := S (created s);
     nodeCalls := nodeCalls s ++ [Start e] |}.

(** A call of [playAudio] that nothing interleaves with. *)
Definition playAudio (now d : T) (s : State) : State :=
  playAudioFinish d (playAudioBegin now s).

(** [queueAndPlayAudio], whose context is created on demand, once the buffer
    is decoded:
    [scheduledTime = Math.max(nextTtsStartTimeRef.current, currentTime);
     source.start(scheduledTime);
     nextTtsStartTimeRef.current = scheduledTime + buffer.duration;
     ttsAudioSourcesRef.current.add(source)]. *)
Definition enqueue (now d : T) (s : State) : State :=
  let scheduledTime := tmax (nextStartTime s) now in
  let e := {| node := created s; startAt := scheduledTime; duration := d |} in
  {| nextStartTime := tadd scheduledTime d;
     activeEntries := activeEntries s ++ [e];
     created := S (created s);
     nodeCalls := nodeCalls s ++ [Start e] |}.

(** The [ended] listener of a node: [sources.delete(source)]. *)
Definition ended (n : nat) (s : State) : State :=
  {| nextStartTime := nextStartTime s;
     activeEntries := filter (fun e => negb (node e =? n)) (activeEntries s);
     created := created s;
     nodeCalls := nodeCalls s |}.

(** [stopAllPlayback], and the scheduler part of [stopTtsPlayback]:
    [sources.forEach(source => source.stop()); sources.clear();
     nextStartTime = 0].  Every node of the set was started before it was
    added, so [stop] has nothing to raise. *)
Definition stopAll (s : State) : State :=
  {| nextStartTime := tzero;
     activeEntries := [];
     created := created s;
     nodeCalls := nodeCalls s ++ map (fun e => Stop (node e)) (activeEntries s) |}.

(** [nextTtsStartTimeRef.current = 0] at the start of a run. *)
Definition resetClock (s : State) : State :=
  {| nextStartTime := tzero;
     activeEntries := activeEntries s;
     created := created s;
     nodeCalls := nodeCalls s |}.

(** The entries started so far, oldest first. *)
Definition started (s : State) : list PlaybackEntry :=
  flat_map (fun c => match c with Start e => [e] | Stop _ => [] end)
           (nodeCalls s).

(** A run of [enqueue] calls, each with the clock it reads and the duration
    of its buffer. *)
Definition enqueueAll (reqs : list (T * T)) (s : State) : State :=
  fold_left (fun st r => enqueue (fst r) (snd r) st) reqs s.

Definition playAudioAll (reqs : list (T * T)) (s : State) : State :=
  fold_left (fun st r => playAudio (fst r) (snd r) st) reqs s.

(** The two halves of [playAudio], in whatever order the awaits resume. *)
Inductive Phase : Type :=
| Begin (now : T)
| Finish (d : T).

Definition phase (s : State) (p : Phase) : State :=
  match p with
  | Begin now => playAudioBegin now s
  | Finish d => playAudioFinish d s
  end.

(** The schedule as the specification words it: each buffer starts at
    [max(nextStartTime, clockNow())] and moves [nextStartTime] to that start
    plus its duration.  [k] names the node. *)
Fixpoint specSchedule (next : T) (k : nat) (reqs : list (T * T))
  : list PlaybackEntry :=
  match reqs with
  | [] => []
  | (now, d) :: reqs' =>
      let startTime := tmax next now in
      {| node := k; startAt := startTime; duration := d |}
      :: specSchedule (tadd startTime d) (S k) reqs'
  end.

(** The scheduled end of an entry. *)
Definition endAt (e : PlaybackEntry) : T := tadd (startAt e) (duration e).

(** Entries that follow one another without overlap, the first one no
    earlier than [lo]. *)
Fixpoint chained (lo : T) (es : list PlaybackEntry) : Prop :=
  match es with
  | [] => True
  | e :: es' =>
      tle lo (startAt e) /\ chained (endAt e) es'
  end.

End WithTime.
Arguments PlaybackEntry T : clear implicits.
Arguments NodeCall T : clear implicits.
Arguments State T : clear implicits.
Arguments Phase T : clear implicits.
End Scheduler.

(* ------------------------------------------------------------------------ *)
(** ** Transcript aggregation *)

Module Transcripts.

Inductive Source : Type := user | model | user_interim | model_interim.

Record Transcript : Type := {
  id : jsstring;
  text : jsstring;
  source : Source
}.

Definition decimal (n : N) : jsstring :=
  js (NilEmpty.string_of_uint (N.to_uint n)).

(** [`t_${n}`] *)
Definition transcriptId (n : N) : jsstring := js "t_" ++ decimal n.

(** [transcriptHistory], [transcriptIdCounter], [userUtteranceRef],
    [modelUtteranceRef]. *)
Record Aggregator : Type := {
  transcriptHistory : list Transcript;
  transcriptIdCounter : N;
  userUtteranceRef : jsstring;
  modelUtteranceRef : jsstring
}.

Definition init : Aggregator :=
  {| transcriptHistory := []; transcriptIdCounter := 0%N;
     userUtteranceRef := []; modelUtteranceRef := [] |}.

(** [if (txt) out.push({ id: `t_${++counter}`, text: txt, source: src })] *)
Definition pushIfTruthy (src : Source) (txt : jsstring)
           (acc : list Transcript * N) : list Transcript * N :=
  let '(out, counter) := acc in
  if truthy txt
  then (out ++ [{| id := transcriptId (counter + 1); text := txt;
                   source := src |}],
        (counter + 1)%N)
  else acc.

(** [if (toAdd.length > 0) setTranscriptHistory(prev => [...prev, ...toAdd])] *)
Definition appendHistory (prev toAdd : list Transcript) : list Transcript :=
  if 0 <? length toAdd then prev ++ toAdd else prev.

(** The [turnComplete] branch of [onmessage]. *)
Definition commitTurn (a : Aggregator) : Aggregator :=
  let finalUserText := trim (userUtteranceRef a) in
  let finalModelText := trim (modelUtteranceRef a) in
  let '(transcriptsToAdd, counter) :=
    pushIfTruthy model finalModelText
      (pushIfTruthy user finalUserText ([], transcriptIdCounter a)) in
  {| transcriptHistory := appendHistory (transcriptHistory a) transcriptsToAdd;
     transcriptIdCounter := counter;
     userUtteranceRef := [];
     modelUtteranceRef := [] |}.

(** [commitFinalUtterances] *)
Definition commitFinalUtterances (a : Aggregator) : Aggregator :=
  let '(finalTranscripts, counter) :=
    pushIfTruthy model (modelUtteranceRef a)
      (pushIfTruthy user (userUtteranceRef a) ([], transcriptIdCounter a)) in
  {| transcriptHistory := appendHistory (transcriptHistory a) finalTranscripts;
     transcriptIdCounter := counter;
     userUtteranceRef := [];
     modelUtteranceRef := [] |}.

(** [ref.current += text], where a missing [text] reads as [undefined]. *)
Definition appended (buffer : jsstring) (txt : option jsstring) : jsstring :=
  buffer ++ match txt with Some t => t | None => undefinedText end.

Definition appendUser (txt : option jsstring) (a : Aggregator) : Aggregator :=
  {| transcriptHistory := transcriptHistory a;
     transcriptIdCounter := transcriptIdCounter a;
     userUtteranceRef := appended (userUtteranceRef a) txt;
     modelUtteranceRef := modelUtteranceRef a |}.

Definition appendModel (txt : option jsstring) (a : Aggregator) : Aggregator :=
  {| transcriptHistory := transcriptHistory a;
     transcriptIdCounter := transcriptIdCounter a;
     userUtteranceRef := userUtteranceRef a;
     modelUtteranceRef := appended (modelUtteranceRef a) txt |}.

(** A commit as the specification words it, on the two texts it is given and
    the counter [c] it finds: one entry per text that is not empty, the
    user's first, each with the next counter value. *)
Definition specEntries (c : N) (userText modelText : jsstring)
  : list Transcript :=
  (if truthy userText
   then [{| id := transcriptId (c + 1); text := userText; source := user |}]
   else [])
  ++ (if truthy modelText
      then [{| id := transcriptId (if truthy userText then c + 2 else c + 1);
               text := modelText; source := model |}]
      else []).

(** The ids of a history are those of a strictly increasing run of counter
    values, none of them past [bound]. *)
Definition issued (bound : N) (h : list Transcript) : Prop :=
  exists ns,
    map id h = map transcriptId ns
    /\ StronglySorted N.lt ns
    /\ Forall (fun n => (0 < n <= bound)%N) ns.

End Transcripts.

(* ------------------------------------------------------------------------ *)
(** ** The realtime session hook, [useLiveAudio] *)

Module Session.
Import Transcripts.
Section WithTime.
Context {T : Type} {TT : Time T}.

Inductive ContextState : Type := running | suspended | closed.

(** An [AudioContext] object: which one, and its [state]. *)
Record AudioContext : Type := {
  ctx : nat;
  state : ContextState
}.

(** The refs to external resources.  A session, a media stream and an audio
    node are named by a number. *)
Record Handles : Type := {
  sessionPromiseRef : option nat;
  mediaStreamRef : option nat;
  inputAudioContextRef : option AudioContext;
  outputAudioContextRef : option AudioContext;
  scriptProcessorRef : option nat;
  sourceNodeRef : option nat
}.

(** Calls that leave the hook. *)
Inductive Effect : Type :=
| AddToScratchpad (content : jsstring)
| SendToolResponse (session : nat) (callId : option jsstring)
                   (name : option jsstring) (result : jsstring)
| SendRealtimeInput (session : nat) (data : jsstring)
| SessionClose (session : nat)
| TrackStop (stream : nat)
| Disconnect (audioNode : nat)
| ContextClose (c : nat)
| ContextResume (c : nat)
| ConsoleError.

Record State : Type := {
  isConnecting : bool;
  isConnected : bool;
  error : option jsstring;
  transcripts : Aggregator;
  handles : Handles;
  playback : Scheduler.State T;
  audioLevelRef : T;
  effects : list Effect
}.

Definition noHandles : Handles :=
  {| sessionPromiseRef := None; mediaStreamRef := None;
     inputAudioContextRef := None; outputAudioContextRef := None;
     scriptProcessorRef := None; sourceNodeRef := None |}.

(** The hook as first rendered. *)
Definition init : State :=
  {| isConnecting := false; isConnected := false; error := None;
     transcripts := Transcripts.init; handles := noHandles;
     playback := Scheduler.init; audioLevelRef := tzero; effects := [] |}.

Definition setTranscripts (a : Aggregator) (s : State) : State :=
  {| isConnecting := isConnecting s; isConnected := isConnected s;
     error := error s; transcripts := a; handles := handles s;
     playback := playback s; audioLevelRef := audioLevelRef s;
     effects := effects s |}.

Definition setHandles (h : Handles) (s : State) : State :=
  {| isConnecting := isConnecting s; isConnected := isConnected s;
     error := error s; transcripts := transcripts s; handles := h;
     playback := playback s; audioLevelRef := audioLevelRef s;
     effects := effects s |}.

Definition setPlayback (p : Scheduler.State T) (s : State) : State :=
  {| isConnecting := isConnecting s; isConnected := isConnected s;
     error := error s; transcripts := transcripts s; handles := handles s;
     playback := p; audioLevelRef := audioLevelRef s;
     effects := effects s |}.

Definition setError (e : option jsstring) (s : State) : State :=
  {| isConnecting := isConnecting s; isConnected := isConnected s;
     error := e; transcripts := transcripts s; handles := handles s;
     playback := playback s; audioLevelRef := audioLevelRef s;
     effects := effects s |}.

Definition emit (es : list Effect) (s : State) : State :=
  {| isConnecting := isConnecting s; isConnected := isConnected s;
     error := error s; transcripts := transcripts s; handles := handles s;
     playback := playback s; audioLevelRef := audioLevelRef s;
     effects := effects s ++ es |}.

Definition setOutputContext (c : option AudioContext) (h : Handles) : Handles :=
  {| sessionPromiseRef := sessionPromiseRef h;
     mediaStreamRef := mediaStreamRef h;
     inputAudioContextRef := inputAudioContextRef h;
     outputAudioContextRef := c;
     scriptProcessorRef := scriptProcessorRef h;
     sourceNodeRef := sourceNodeRef h |}.

(** *** [stopSession] *)

(** Which of the awaited calls of [stopSession] fail.  Each of them is
    caught where it is made. *)
Record StopEnv : Type := {
  sessionCloseFails : bool;
  inputCloseRejects : bool;
  outputCloseRejects : bool
}.

(** [try { (await sessionPromiseRef.current).close() }
     catch (e) { console.error(...) }] *)
Definition closeSession (fails : bool) (session : option nat) : list Effect :=
  match session with
  | Some n => if fails then [ConsoleError] else [SessionClose n]
  | None => []
  end.

Definition release (mk : nat -> Effect) (h : option nat) : list Effect :=
  match h with
  | Some n => [mk n]
  | None => []
  end.

(** [if (ref.current?.state !== 'closed')
       await ref.current?.close().catch(console.error)] *)
Definition closeContext (rejects : bool) (c : option AudioContext)
  : option AudioContext * list Effect :=
  match c with
  | None => (None, [])
  | Some a =>
      match state a with
      | closed => (c, [])
      | _ => if rejects
             then (c, [ConsoleError])
             else (Some {| ctx := ctx a; state := closed |},
                   [ContextClose (ctx a)])
      end
  end.

Definition stopSession (env : StopEnv) (s : State) : State :=
  let h := handles s in
  let e1 := closeSession (sessionCloseFails env) (sessionPromiseRef h) in
  let e2 := release TrackStop (mediaStreamRef h) in
  let e3 := release Disconnect (scriptProcessorRef h) in
  let e4 := release Disconnect (sourceNodeRef h) in
  let '(inputCtx, e5) :=
    closeContext (inputCloseRejects env) (inputAudioContextRef h) in
  let '(outputCtx, e6) :=
    closeContext (outputCloseRejects env) (outputAudioContextRef h) in
  {| isConnecting := false;
     isConnected := false;
     error := error s;
     transcripts := commitFinalUtterances (transcripts s);
     handles := {| sessionPromiseRef := None; mediaStreamRef := None;
                   inputAudioContextRef := inputCtx;
                   outputAudioContextRef := outputCtx;
                   scriptProcessorRef := None; sourceNodeRef := None |};
     playback := Scheduler.stopAll (playback s);
     audioLevelRef := tzero;
     effects := effects s ++ e1 ++ e2 ++ e3 ++ e4 ++ e5 ++ e6 |}.

(** *** [startSession] *)

(** What the platform hands to [startSession]: the contexts [new
    AudioContext] would build, the stream of [getUserMedia] ([None] when it
    rejects, with the message of the error), the session of [connect]. *)
Record StartEnv : Type := {
  freshOutputContext : AudioContext;
  userMedia : option nat;
  failureMessage : jsstring;
  freshInputContext : AudioContext;
  connected : nat;
  onFailure : StopEnv
}.

(** [if (!ref.current || ref.current.state === 'closed')
       ref.current = new AudioContext(...)] *)
Definition ensureContext (fresh : AudioContext) (c : option AudioContext)
  : AudioContext :=
  match c with
  | None => fresh
  | Some a => match state a with closed => fresh | _ => a end
  end.

(** [if (a.state === 'suspended') await a.resume()] *)
Definition resumed (a : AudioContext) : AudioContext * list Effect :=
  match state a with
  | suspended => ({| ctx := ctx a; state := running |}, [ContextResume (ctx a)])
  | _ => (a, [])
  end.

Definition startSession (env : StartEnv) (s : State) : State :=
  let '(out, e1) :=
    resumed (ensureContext (freshOutputContext env)
                           (outputAudioContextRef (handles s))) in
  let s1 :=
    {| isConnecting := true;
       isConnected := isConnected s;
       error := None;
       transcripts := Transcripts.init;
       handles := setOutputContext (Some out) (handles s);
       playback := playback s;
       audioLevelRef := audioLevelRef s;
       effects := effects s ++ e1 |} in
  match userMedia env with
  | Some stream =>
      setHandles
        {| sessionPromiseRef := Some (connected env);
           mediaStreamRef := Some stream;
           inputAudioContextRef := Some (freshInputContext env);
           outputAudioContextRef := Some out;
           scriptProcessorRef := scriptProcessorRef (handles s);
           sourceNodeRef := sourceNodeRef (handles s) |}
        s1
  | None =>
      let msg :=
        js "Failed to start session: "
        ++ (if truthy (failureMessage env) then failureMessage env
            else js "Could not access microphone or another setup error occurred.") in
      stopSession (onFailure env)
        (emit [ConsoleError] (setError (Some msg) s1))
  end.

(** *** Channel callbacks *)

(** [onopen]: the two nodes of the capture wiring are created when both the
    input context and the stream are there. *)
Definition onopen (newSourceNode newProcessor : nat) (s : State) : State :=
  let h := handles s in
  let h' :=
    match inputAudioContextRef h, mediaStreamRef h with
    | Some _, Some _ =>
        {| sessionPromiseRef := sessionPromiseRef h;
           mediaStreamRef := mediaStreamRef h;
           inputAudioContextRef := inputAudioContextRef h;
           outputAudioContextRef := outputAudioContextRef h;
           scriptProcessorRef := Some newProcessor;
           sourceNodeRef := Some newSourceNode |}
    | _, _ => h
    end in
  {| isConnecting := false; isConnected := true; error := error s;
     transcripts := transcripts s; handles := h'; playback := playback s;
     audioLevelRef := audioLevelRef s; effects := effects s |}.

(** [onaudioprocess], given the level and the encoded frame it computes. *)
Definition onaudioprocess (level : T) (data : jsstring) (s : State) : State :=
  {| isConnecting := isConnecting s; isConnected := isConnected s;
     error := error s; transcripts := transcripts s; handles := handles s;
     playback := playback s; audioLevelRef := level;
     effects := effects s
                ++ release (fun n => SendRealtimeInput n data)
                           (sessionPromiseRef (handles s)) |}.

(** One entry of [toolCall.functionCalls].  [fcArgs] is [None] for a call
    that comes without [args]; otherwise it holds [args.content], which may
    be missing as well. *)
Record FunctionCall : Type := {
  fcId : option jsstring;
  fcName : option jsstring;
  fcArgs : option (option jsstring)
}.

(** [serverContent]; the audio of [modelTurn.parts[0].inlineData] comes with
    the duration of the buffer it decodes to. *)
Record ServerContent : Type := {
  inputTranscription : option (option jsstring);
  outputTranscription : option (option jsstring);
  turnComplete : bool;
  inlineData : option (jsstring * T);
  interrupted : bool
}.

Record Message : Type := {
  functionCalls : option (list FunctionCall);
  serverContent : option ServerContent
}.

Definition addToScratchpadName : jsstring := js "addToScratchpad".

Definition isName (name : option jsstring) (expected : jsstring) : bool :=
  match name with
  | Some n => if list_eq_dec N.eq_dec n expected then true else false
  | None => false
  end.

(** What [if (fc.name === 'addToScratchpad' && fc.args.content)] makes of
    a call: the body is entered with the content, the call is passed over,
    or reading [content] off an [args] that is [undefined] throws. *)
Inductive Guard : Type :=
| Enter (content : jsstring)
| Skip
| TypeError.

Definition guard (fc : FunctionCall) : Guard :=
  if isName (fcName fc) addToScratchpadName
  then match fcArgs fc with
       | None => TypeError
       | Some (Some content) => if truthy content then Enter content else Skip
       | Some None => Skip
       end
  else Skip.

(** What the loop over [functionCalls] has done when it is left: the
    callbacks it made, the acknowledgments it registered with
    [sessionPromiseRef.current?.then(...)], and whether it was left by the
    error.  A registered acknowledgment is sent once the handler has
    returned or reached an [await], so after everything the handler calls
    before that. *)
Record ToolCalls : Type := {
  callbacks : list Effect;
  acknowledgments : list Effect;
  thrown : bool
}.

Definition noToolCalls : ToolCalls :=
  {| callbacks := []; acknowledgments := []; thrown := false |}.

Fixpoint toolCallLoop (session : option nat) (fcs : list FunctionCall)
  : ToolCalls :=
  match fcs with
  | [] => noToolCalls
  | fc :: rest =>
      match guard fc with
      | TypeError =>
          {| callbacks := []; acknowledgments := []; thrown := true |}
      | Skip => toolCallLoop session rest
      | Enter content =>
          let r := toolCallLoop session rest in
          {| callbacks := AddToScratchpad content :: callbacks r;
             acknowledgments :=
               release (fun n => SendToolResponse n (fcId fc) (fcName fc)
                                                  (js "ok, content added."))
                       session
               ++ acknowledgments r;
             thrown := thrown r |}
      end
  end.

(** [if (message.toolCall?.functionCalls) for (const fc of ...) { ... }] *)
Definition toolCalls (m : Message) (s : State) : ToolCalls :=
  match functionCalls m with
  | Some fcs => toolCallLoop (sessionPromiseRef (handles s)) fcs
  | None => noToolCalls
  end.

Definition handleTranscription (sc : ServerContent) (a : Aggregator)
  : Aggregator :=
  let a1 := match inputTranscription sc with
            | Some txt => appendUser txt a
            | None => a
            end in
  let a2 := match outputTranscription sc with
            | Some txt => appendModel txt a1
            | None => a1
            end in
  if turnComplete sc then commitTurn a2 else a2.

(** [playAudio] as [onmessage] awaits it. *)
Definition playInline (now d : T) (s : State) : State :=
  match outputAudioContextRef (handles s) with
  | None => s
  | Some a =>
      let '(a', e) := resumed a in
      {| isConnecting := isConnecting s; isConnected := isConnected s;
         error := error s; transcripts := transcripts s;
         handles := setOutputContext (Some a') (handles s);
         playback := Scheduler.playAudio now d (playback s);
         audioLevelRef := audioLevelRef s;
         effects := effects s ++ e |}
  end.

Definition handleServerContent (now : T) (sc : ServerContent) (s : State)
  : State :=
  let s1 := setTranscripts (handleTranscription sc (transcripts s)) s in
  let s2 := match inlineData sc with
            | Some (data, d) => if truthy data then playInline now d s1 else s1
            | None => s1
            end in
  if interrupted sc
  then setPlayback (Scheduler.stopAll (playback s2)) s2
  else s2.

(** [onmessage], with the clock value it reads.  An error thrown in the
    loop over the tool calls rejects the promise of the handler: nothing of
    what follows the loop is done. *)
Definition onmessage (now : T) (m : Message) (s : State) : State :=
  let r := toolCalls m s in
  let s1 := emit (callbacks r) s in
  let s2 := if thrown r then s1
            else match serverContent m with
                 | Some sc => handleServerContent now sc s1
                 | None => s1
                 end in
  emit (acknowledgments r) s2.

(** [onerror] *)
Definition onerror (message : jsstring) (env : StopEnv) (s : State) : State :=
  let msg :=
    js "Live session error:" ++ [10%N]
    ++ (if truthy message then message else js "Unknown error") in
  stopSession env (emit [ConsoleError] (setError (Some msg) s)).

(** The [ended] listener of a source node. *)
Definition onended (n : nat) (s : State) : State :=
  setPlayback (Scheduler.ended n (playback s)) s.

(** *** What happens to the hook *)

Inductive Event : Type :=
| StartSession (env : StartEnv)
| StopSession (env : StopEnv)
| Open (newSourceNode newProcessor : nat)
| Incoming (now : T) (m : Message)
| ChannelError (message : jsstring) (env : StopEnv)
| ChannelClose (env : StopEnv)
| AudioProcess (level : T) (data : jsstring)
| Ended (n : nat).

Definition step (s : State) (e : Event) : State :=
  match e with
  | StartSession env => startSession env s
  | StopSession env => stopSession env s
  | Open n1 n2 => onopen n1 n2 s
  | Incoming now m => onmessage now m s
  | ChannelError message env => onerror message env s
  | ChannelClose env => stopSession env s
  | AudioProcess level data => onaudioprocess level data s
  | Ended n => onended n s
  end.

Definition run (s : State) (es : list Event) : State := fold_left step es s.

Definition isStart (e : Event) : bool :=
  match e with
  | StartSession _ => true
  | _ => false
  end.

(** A message that carries a turn-complete marker and nothing else. *)
Definition turnCompleteMessage : Message :=
  {| functionCalls := None;
     serverContent :=
       Some {| inputTranscription := None; outputTranscription := None;
               turnComplete := true; inlineData := None;
               interrupted := false |} |}.

(** A message that carries one tool call and nothing else. *)
Definition toolCallMessage (fc : FunctionCall) : Message :=
  {| functionCalls := Some [fc]; serverContent := None |}.

(** The buffers a message leaves for its own turn-complete marker: whatever
    transcription text it carries is appended first. *)
Definition bufferedUser (sc : ServerContent) (a : Aggregator) : jsstring :=
  match inputTranscription sc with
  | Some txt => appended (userUtteranceRef a) txt
  | None => userUtteranceRef a
  end.

Definition bufferedModel (sc : ServerContent) (a : Aggregator) : jsstring :=
  match outputTranscription sc with
  | Some txt => appended (modelUtteranceRef a) txt
  | None => modelUtteranceRef a
  end.

(** What one event may do to the aggregator: nothing to the history and
    the counter, or one commit. *)
Definition extends (a a' : Aggregator) : Prop :=
  exists u m,
    transcriptHistory a'
    = transcriptHistory a ++ specEntries (transcriptIdCounter a) u m
    /\ transcriptIdCounter a'
       = (transcriptIdCounter a
          + N.of_nat (length (specEntries (transcriptIdCounter a) u m)))%N.

(** Every resource handle the hook nulls on teardown is null. *)
Definition released (h : Handles) : Prop :=
  sessionPromiseRef h = None /\ mediaStreamRef h = None
  /\ scriptProcessorRef h = None /\ sourceNodeRef h = None.

(** A call that gives back the session, the stream or an audio node. *)
Definition releasesHandle (x : Effect) : bool :=
  match x with
  | SessionClose _ => true
  | TrackStop _ => true
  | Disconnect _ => true
  | _ => false
  end.

(** What teardown owes the resources held by [h], call by call: the
    session is closed, or the failure of that is logged; the stream is
    stopped; both audio nodes are disconnected. *)
Definition releasesHeld (env : StopEnv) (h : Handles) (new : list Effect)
  : Prop :=
  (forall n, sessionPromiseRef h = Some n ->
             In (if sessionCloseFails env then ConsoleError
                 else SessionClose n) new)
  /\ (forall n, mediaStreamRef h = Some n -> In (TrackStop n) new)
  /\ (forall n, scriptProcessorRef h = Some n -> In (Disconnect n) new)
  /\ (forall n, sourceNodeRef h = Some n -> In (Disconnect n) new).

(** Each context held and not closed yet is closed, or the rejection of
    that is logged. *)
Definition closesContexts (env : StopEnv) (h : Handles) (new : list Effect)
  : Prop :=
  (forall a, inputAudioContextRef h = Some a -> state a <> closed ->
             In (if inputCloseRejects env then ConsoleError
                 else ContextClose (ctx a)) new)
  /\ (forall a, outputAudioContextRef h = Some a -> state a <> closed ->
               In (if outputCloseRejects env then ConsoleError
                   else ContextClose (ctx a)) new).

(** Nothing is given back that [h] does not hold, and nothing else is
    called. *)
Definition onlyHeld (h : Handles) (new : list Effect) : Prop :=
  forall x, In x new ->
    match x with
    | SessionClose n => sessionPromiseRef h = Some n
    | TrackStop n => mediaStreamRef h = Some n
    | Disconnect n => scriptProcessorRef h = Some n \/ sourceNodeRef h = Some n
    | ContextClose c =>
        exists a, (inputAudioContextRef h = Some a
                   \/ outputAudioContextRef h = Some a)
                  /\ ctx a = c /\ state a <> closed
    | ConsoleError => True
    | _ => False
    end.

(** No call of the message named [addToScratchpad] comes without [args]:
    the loop over its tool calls is not left by the error. *)
Definition callsHaveArgs (fcs : list FunctionCall) : Prop :=
  Forall (fun fc => fcName fc = Some addToScratchpadName ->
                    fcArgs fc <> None) fcs.

Definition messageHasArgs (m : Message) : Prop :=
  match functionCalls m with
  | Some fcs => callsHaveArgs fcs
  | None => True
  end.

(** The effects that are calls of the scratchpad callback. *)
Definition isCallback (x : Effect) : bool :=
  match x with
  | AddToScratchpad _ => true
  | _ => false
  end.

(** The effects that are tool responses. *)
Definition isToolResponse (x : Effect) : bool :=
  match x with
  | SendToolResponse _ _ _ _ => true
  | _ => false
  end.

End WithTime.
Arguments State T : clear implicits.
Arguments ServerContent T : clear implicits.
Arguments Message T : clear implicits.
Arguments Event T : clear implicits.
End Session.

(* ------------------------------------------------------------------------ *)
(** ** The text-to-speech pipeline of [ChatInterface]

    [handleReadAloud] is an async function: an invocation that has reached an
    [await] is kept as a [Run] until the awaited call settles.  The refs
    ([isCancelledRef], [nextTtsStartTimeRef], [ttsAudioSourcesRef]) and the
    component state ([ttsStatus], [activeSentenceIndex]) are shared by all
    invocations; [hasFailed] and [firstChunkProcessed] are locals of one. *)

Module Tts.
Section WithTime.
Context {T : Type} {TT : Time T}.

Inductive Status : Type := idle | fetching | playing.

(** Where an invocation of [handleReadAloud] is suspended:
    at [await getTextToSpeech(chunk)], or inside
    [await queueAndPlayAudio(audioData)] at its [await decodeAudioData],
    with the duration the buffer will have. *)
Inductive Await : Type :=
| Synthesis (chunk : jsstring)
| Decoding (d : T).

Record Run : Type := {
  runId : nat;
  awaiting : Await;
  remaining : list jsstring;
  firstChunkProcessed : bool
}.

Record State : Type := {
  ttsStatus : Status;
  activeSentenceIndex : option nat;
  isCancelledRef : bool;
  playback : Scheduler.State T;
  runs : list Run;
  launched : nat;
  requests : list (nat * jsstring);
  alerts : nat
}.

Definition init : State :=
  {| ttsStatus := idle; activeSentenceIndex := None; isCancelledRef := false;
     playback := Scheduler.init; runs := []; launched := 0; requests := [];
     alerts := 0 |}.

Definition TTS_CHARACTER_LIMIT : nat := 5000.

(** [stopTtsPlayback] *)
Definition stopTtsPlayback (s : State) : State :=
  {| ttsStatus := idle;
     activeSentenceIndex := None;
     isCancelledRef := true;
     playback := Scheduler.stopAll (playback s);
     runs := runs s;
     launched := launched s;
     requests := requests s;
     alerts := alerts s |}.

Definition setStatus (st : Status) (s : State) : State :=
  {| ttsStatus := st; activeSentenceIndex := activeSentenceIndex s;
     isCancelledRef := isCancelledRef s; playback := playback s;
     runs := runs s; launched := launched s; requests := requests s;
     alerts := alerts s |}.

Definition setPlayback (p : Scheduler.State T) (s : State) : State :=
  {| ttsStatus := ttsStatus s; activeSentenceIndex := activeSentenceIndex s;
     isCancelledRef := isCancelledRef s; playback := p;
     runs := runs s; launched := launched s; requests := requests s;
     alerts := alerts s |}.

Definition setRuns (rs : list Run) (s : State) : State :=
  {| ttsStatus := ttsStatus s; activeSentenceIndex := activeSentenceIndex s;
     isCancelledRef := isCancelledRef s; playback := playback s;
     runs := rs; launched := launched s; requests := requests s;
     alerts := alerts s |}.

(** [alert('An error occurred while generating speech. ...')] *)
Definition alert (s : State) : State :=
  {| ttsStatus := ttsStatus s; activeSentenceIndex := activeSentenceIndex s;
     isCancelledRef := isCancelledRef s; playback := playback s;
     runs := runs s; launched := launched s; requests := requests s;
     alerts := S (alerts s) |}.

(** The call [getTextToSpeech(chunk)] made by run [rid], which then waits. *)
Definition request (rid : nat) (first : bool) (chunk : jsstring)
           (rest : list jsstring) (s : State) : State :=
  {| ttsStatus := ttsStatus s; activeSentenceIndex := activeSentenceIndex s;
     isCancelledRef := isCancelledRef s; playback := playback s;
     runs := runs s ++ [{| runId := rid; awaiting := Synthesis chunk;
                           remaining := rest;
                           firstChunkProcessed := first |}];
     launched := launched s;
     requests := requests s ++ [(rid, chunk)];
     alerts := alerts s |}.

(** After the loop:
    [if (hasFailed || isCancelledRef.current) {
       if (hasFailed) alert(...);
       stopTtsPlayback();
     }] *)
Definition afterLoop (hasFailed : bool) (s : State) : State :=
  if hasFailed || isCancelledRef s
  then stopTtsPlayback (if hasFailed then alert s else s)
  else s.

(** The head of [for (const chunk of chunks)], with the chunks still to
    do: [if (isCancelledRef.current) break;] and then the request. *)
Definition nextChunk (rid : nat) (first : bool) (chunks : list jsstring)
           (s : State) : State :=
  match chunks with
  | [] => afterLoop false s
  | chunk :: rest =>
      if isCancelledRef s
      then afterLoop false s
      else request rid first chunk rest s
  end.

(** [handleReadAloud], on the text it resolves to read (the selection, the
    text from the active sentence on, or the whole context).  [chunkText]
    returns at this limit; were it not to, the handler would stay where it
    is. *)
Definition handleReadAloud (textToRead : jsstring) (s : State) : State :=
  match ttsStatus s with
  | fetching => stopTtsPlayback s
  | playing => stopTtsPlayback s
  | idle =>
      if truthy textToRead then
        let s1 :=
          {| ttsStatus := fetching;
             activeSentenceIndex := activeSentenceIndex s;
             isCancelledRef := false;
             playback := playback s;
             runs := runs s; launched := launched s;
             requests := requests s; alerts := alerts s |} in
        match chunkText textToRead TTS_CHARACTER_LIMIT with
        | Some [] => setStatus idle s1
        | Some chunks =>
            nextChunk (launched s) false chunks
              {| ttsStatus := fetching;
                 activeSentenceIndex := activeSentenceIndex s;
                 isCancelledRef := false;
                 playback := Scheduler.resetClock (playback s);
                 runs := runs s; launched := S (launched s);
                 requests := requests s; alerts := alerts s |}
        | None => s1
        end
      else s
  end.

(** [handleSentenceClick], on the index it computes. *)
Definition handleSentenceClick (index : nat) (s : State) : State :=
  match ttsStatus s with
  | idle =>
      {| ttsStatus := idle;
         activeSentenceIndex :=
           match activeSentenceIndex s with
           | Some prev => if prev =? index then None else Some index
           | None => Some index
           end;
         isCancelledRef := isCancelledRef s; playback := playback s;
         runs := runs s; launched := launched s; requests := requests s;
         alerts := alerts s |}
  | _ => stopTtsPlayback s
  end.

(** How [getTextToSpeech] settles: with audio, with [null], or rejected. *)
Inductive Synthesized : Type :=
| Audio (data : jsstring) (d : T)
| Null
| Rejected.

Fixpoint takeRun (rid : nat) (rs : list Run) : option (Run * list Run) :=
  match rs with
  | [] => None
  | r :: rs' =>
      if runId r =? rid then Some (r, rs')
      else match takeRun rid rs' with
           | Some (x, rest) => Some (x, r :: rest)
           | None => None
           end
  end.

(** Run [rid] resumes from [await getTextToSpeech(chunk)]. *)
Definition onSynthesized (rid : nat) (result : Synthesized) (s : State)
  : State :=
  match takeRun rid (runs s) with
  | Some (r, others) =>
      match awaiting r with
      | Synthesis _ =>
          let s1 := setRuns others s in
          match result with
          | Audio data d =>
              if truthy data then
                if negb (isCancelledRef s1) then
                  let s2 := if firstChunkProcessed r then s1
                            else setStatus playing s1 in
                  setRuns (runs s2 ++ [{| runId := rid; awaiting := Decoding d;
                                          remaining := remaining r;
                                          firstChunkProcessed := true |}])
                          s2
                else nextChunk rid (firstChunkProcessed r) (remaining r) s1
              else afterLoop true s1
          | Null => afterLoop true s1
          | Rejected => afterLoop true s1
          end
      | Decoding _ => s
      end
  | None => s
  end.

(** Run [rid] resumes from [await decodeAudioData] inside
    [queueAndPlayAudio]: with the clock it then reads, or with the error
    the decoding raised. *)
Definition onDecoded (rid : nat) (now : option T) (s : State) : State :=
  match takeRun rid (runs s) with
  | Some (r, others) =>
      match awaiting r with
      | Decoding d =>
          let s1 := setRuns others s in
          match now with
          | Some t =>
              nextChunk rid (firstChunkProcessed r) (remaining r)
                        (setPlayback (Scheduler.enqueue t d (playback s1)) s1)
          | None => afterLoop true s1
          end
      | Synthesis _ => s
      end
  | None => s
  end.

(** [source.onended] *)
Definition onended (n : nat) (s : State) : State :=
  let p := Scheduler.ended n (playback s) in
  let s1 := setPlayback p s in
  match Scheduler.activeEntries p with
  | [] =>
      if negb (isCancelledRef s)
      then {| ttsStatus := idle; activeSentenceIndex := None;
              isCancelledRef := isCancelledRef s1; playback := p;
              runs := runs s1; launched := launched s1;
              requests := requests s1; alerts := alerts s1 |}
      else s1
  | _ :: _ => s1
  end.

Inductive Event : Type :=
| ReadAloud (textToRead : jsstring)
| SentenceClick (index : nat)
| SynthesisSettled (rid : nat) (result : Synthesized)
| DecodeSettled (rid : nat) (now : option T)
| Ended (n : nat).

Definition step (s : State) (e : Event) : State :=
  match e with
  | ReadAloud textToRead => handleReadAloud textToRead s
  | SentenceClick index => handleSentenceClick index s
  | SynthesisSettled rid result => onSynthesized rid result s
  | DecodeSettled rid now => onDecoded rid now s
  | Ended n => onended n s
  end.

Definition run (s : State) (es : list Event) : State := fold_left step es s.

(** Events that come from the platform, not from the user. *)
Definition settles (e : Event) : bool :=
  match e with
  | SynthesisSettled _ _ => true
  | DecodeSettled _ _ => true
  | Ended _ => true
  | _ => false
  end.

(** What can be observed of a state without looking into the chunks: the
    flag, the status, the notices raised, who requested a synthesis and of
    how many code units, the nodes started, the nodes still active, and the
    runs suspended with the number of chunks each has left. *)
Definition digest (s : State)
  : bool * Status * nat * list (nat * nat) * list nat * list nat
    * list (nat * nat) :=
  (isCancelledRef s, ttsStatus s, alerts s,
   map (fun r => (fst r, length (snd r))) (requests s),
   map Scheduler.node (Scheduler.started (playback s)),
   map Scheduler.node (Scheduler.activeEntries (playback s)),
   map (fun r => (runId r, length (remaining r))) (runs s)).

(** The resumption of a decoding. *)
Definition decodes (e : Event) : bool :=
  match e with
  | DecodeSettled _ _ => true
  | _ => false
  end.

(** The state a cancelled pipeline stays in. *)
Definition cancelled (s : State) : Prop :=
  isCancelledRef s = true /\ ttsStatus s = idle /\ activeSentenceIndex s = None
  /\ length (runs s) <= 1
  /\ (runs s = [] -> Scheduler.activeEntries (playback s) = []).

(** A synthesis, or a decoding, that did not produce audio. *)
Definition synthesisFailed (e : Event) : bool :=
  match e with
  | SynthesisSettled _ (Audio data _) => negb (truthy data)
  | SynthesisSettled _ _ => true
  | DecodeSettled _ None => true
  | _ => false
  end.

End WithTime.
Arguments State T : clear implicits.
Arguments Run T : clear implicits.
Arguments Await T : clear implicits.
Arguments Event T : clear implicits.
Arguments Synthesized T : clear implicits.
End Tts.

(* ------------------------------------------------------------------------ *)
(** ** Concrete inputs, with rational clock values *)

Module Examples.
Import Transcripts Session.

Definition stopEnv : StopEnv :=
  {| sessionCloseFails := false; inputCloseRejects := false;
     outputCloseRejects := false |}.

Definition startEnv : StartEnv :=
  {| freshOutputContext := {| ctx := 1; state := running |};
     userMedia := Some 7;
     failureMessage := [];
     freshInputContext := {| ctx := 2; state := running |};
     connected := 3;
     onFailure := stopEnv |}.

(** A message with partial transcriptions and, maybe, the marker. *)
Definition heard (userText modelText : option jsstring) (marker : bool)
  : Message Q :=
  {| functionCalls := None;
     serverContent :=
       Some {| inputTranscription := option_map Some userText;
               outputTranscription := option_map Some modelText;
               turnComplete := marker;
               inlineData := None;
               interrupted := false |} |}.

(** The content of [turnCompleteMessage]. *)
Definition marker : ServerContent Q :=
  {| inputTranscription := None; outputTranscription := None;
     turnComplete := true; inlineData := None; interrupted := false |}.

(** A session that has been started and opened. *)
Definition live : State Q :=
  run init [StartSession startEnv; Open 4 5].

(** ... in which both speakers have been heard, ... *)
Definition midTurn : State Q :=
  run live [Incoming 0%Q (heard (Some (js "What's the total?")) None false);
            Incoming 1%Q (heard None (Some (js " It's 42. ")) false)].

(** ... or the model only, ... *)
Definition modelOnly : State Q :=
  run live [Incoming 0%Q (heard None (Some (js "It's 42.")) false)].

(** ... or nothing but a blank from the user. *)
Definition blankUser : State Q :=
  run live [Incoming 0%Q (heard (Some (js " ")) None false)].

Definition emptyCall : FunctionCall :=
  {| fcId := Some (js "call-1"); fcName := Some addToScratchpadName;
     fcArgs := Some (Some []) |}.

Definition noteCall : FunctionCall :=
  {| fcId := Some (js "call-2"); fcName := Some addToScratchpadName;
     fcArgs := Some (Some (js "42")) |}.

Definition secondCall : FunctionCall :=
  {| fcId := Some (js "call-3"); fcName := Some addToScratchpadName;
     fcArgs := Some (Some (js "7")) |}.

(** A call named [addToScratchpad] that comes without [args]. *)
Definition bareCall : FunctionCall :=
  {| fcId := Some (js "call-0"); fcName := Some addToScratchpadName;
     fcArgs := None |}.

(** A message with the calls given and nothing else. *)
Definition calling (fcs : list FunctionCall) : Message Q :=
  {| functionCalls := Some fcs; serverContent := None |}.

(** The turn-complete marker in one message with a call that has no
    [args]. *)
Definition markerAfterBareCall : Message Q :=
  {| functionCalls := Some [bareCall]; serverContent := Some marker |}.

(** A text of three chunks: one sentence of 12000 code units. *)
Definition longText : jsstring := repeat 97%N (12 * 1000).

Definition someAudio : Tts.Synthesized Q := Tts.Audio (js "UklGRg==") 2%Q.

(** Read aloud, then cancel while the first request is in flight. *)
Definition cancelledRun : Tts.State Q :=
  Tts.run Tts.init [Tts.ReadAloud longText; Tts.ReadAloud longText].

(** ... then read aloud once more, and only then let the first request of
    the cancelled run come back, with audio. *)
Definition resumedRun : Tts.State Q :=
  Tts.run cancelledRun
          [Tts.ReadAloud longText;
           Tts.SynthesisSettled 0 someAudio;
           Tts.DecodeSettled 0 (Some 0%Q)].

(** A run of one chunk, waiting for its audio. *)
Definition shortRun : Tts.State Q :=
  Tts.run Tts.init [Tts.ReadAloud (js "Hi. Bye.")].

(** The cancelled run left alone: its request comes back with audio. *)
Definition quietRun : Tts.State Q :=
  Tts.run cancelledRun [Tts.SynthesisSettled 0 someAudio].

End Examples.

(* ------------------------------------------------------------------------ *)
(** ** Runs of the pipeline that nothing disturbs *)

Module TtsRuns.
Section WithTime.
Context {T : Type} {TT : Time T}.
Import Tts.

(** One chunk served: [getTextToSpeech] resolves with [data], which decodes
    to a buffer that lasts [lasts], and [queueAndPlayAudio] reads the clock
    at [clock]. *)
Record Served : Type := {
  data : jsstring;
  lasts : T;
  clock : T
}.

Definition served (rid : nat) (r : Served) : list (Event T) :=
  [SynthesisSettled rid (Audio (data r) (lasts r));
   DecodeSettled rid (Some (clock r))].

Definition allServed (rid : nat) (rs : list Served) : list (Event T) :=
  flat_map (served rid) rs.

(** What [enqueue] is given for a chunk served. *)
Definition timing (r : Served) : T * T := (clock r, lasts r).

(** A synthesis that settles without audio. *)
Definition noAudio (result : Synthesized T) : bool :=
  match result with
  | Audio d _ => negb (truthy d)
  | Null => true
  | Rejected => true
  end.

End WithTime.
Arguments Served T : clear implicits.
End TtsRuns.

(* ------------------------------------------------------------------------ *)
(** ** More concrete inputs *)

Module Samples.
Import Tts TtsRuns.

(** A chunk served with two seconds of audio, decoded at clock zero. *)
Definition twoSeconds : Served Q :=
  {| data := js "UklGRg=="; lasts := 2%Q; clock := 0%Q |}.

(** The one suspended run of [Examples.shortRun]. *)
Definition shortRunning : Run Q :=
  {| runId := 0; awaiting := Synthesis (js "Hi. Bye."); remaining := [];
     firstChunkProcessed := false |}.

End Samples.

(* ------------------------------------------------------------------------ *)
(** ** The log of a scheduler *)

Module SchedulerLog.
Section WithTime.
Context {T : Type} {TT : Time T}.
Import Scheduler.

(** Every [stop] in the log is on a node that an earlier call started. *)
Definition stopsFollowStarts (calls : list (NodeCall T)) : Prop :=
  forall k n,
    nth_error calls k = Some (Stop n) ->
    exists j e, j < k /\ nth_error calls j = Some (Start e) /\ node e = n.

(** No node is stopped twice. *)
Definition stopsOnce (calls : list (NodeCall T)) : Prop :=
  forall j k n,
    nth_error calls j = Some (Stop n) -> nth_error calls k = Some (Stop n) ->
    j = k.

(** The bookkeeping of a scheduler is sound: nodes are numbered in the order
    they are started; the active set holds no node twice, only nodes that
    were started, and none that was stopped; a node is stopped once at most,
    and only after it was started. *)
Definition sound (s : State T) : Prop :=
  map (@node T) (started s) = seq 0 (created s)
  /\ NoDup (map (@node T) (activeEntries s))
  /\ (forall e, In e (activeEntries s) -> In (Start e) (nodeCalls s))
  /\ (forall e, In e (activeEntries s) -> ~ In (Stop (node e)) (nodeCalls s))
  /\ stopsFollowStarts (nodeCalls s)
  /\ stopsOnce (nodeCalls s).

End WithTime.
End SchedulerLog.

(* ------------------------------------------------------------------------ *)
(** ** Buffers that arrive ahead of the clock *)

Module Gapless.
Import Scheduler.

(** Each buffer is enqueued no later than the moment the one before it is
    scheduled to end ([next], at first, is where the scheduler stands). *)
Fixpoint fedAhead (next : Q) (reqs : list (Q * Q)) : Prop :=
  match reqs with
  | [] => True
  | (now, d) :: reqs' =>
      (now <= next)%Q /\ fedAhead (Qmax next now + d)%Q reqs'
  end.

End Gapless.

(* ------------------------------------------------------------------------ *)
(** ** Calls on the channel *)

Module SessionChannel.
Import Session.

(** The effects that are calls on the live session. *)
Definition onChannel (x : Effect) : bool :=
  match x with
  | SendToolResponse _ _ _ _ => true
  | SendRealtimeInput _ _ => true
  | SessionClose _ => true
  | _ => false
  end.

(** The message [startSession] shows when it fails. *)
Definition startFailure (message : jsstring) : jsstring :=
  js "Failed to start session: "
  ++ (if truthy message then message
      else js "Could not access microphone or another setup error occurred.").

End SessionChannel.

(* ------------------------------------------------------------------------ *)
(** ** The cutting loop and the array it fills *)

Module PushLoop.

(** How the inner loop of [chunkText] is left: by its condition, with the
    array as it then is, or by the RangeError of a [push] on an array that
    can take no more. *)
Inductive Outcome : Type :=
| Finished (chunks : list jsstring)
| RangeError (chunks : list jsstring).

(** [for (let i = 0; i < sentence.length; i += maxLength)
       chunks.push(sentence.substring(i, i + maxLength))]
    on an array that has [room] for that many more elements.  Every
    iteration takes one of them, so the loop is left. *)
Fixpoint hardSplitInto (room maxLength : nat) (sentence : jsstring) (i : nat)
         (chunks : list jsstring) : Outcome :=
  if i <? length sentence then
    match room with
    | O => RangeError chunks
    | S room' =>
        hardSplitInto room' maxLength sentence (i + maxLength)
                      (chunks ++ [substring sentence i (i + maxLength)])
    end
  else Finished chunks.

End PushLoop.

(* ------------------------------------------------------------------------ *)
(** ** How chunks are made of sentences *)

Module ChunkBlocks.

(** What goes into the array of chunks: whole sentences glued into one
    chunk, or one sentence cut into pieces. *)
Inductive Block : Type :=
| Whole (ss : list jsstring)
| Split (sentence : jsstring) (pieces : list jsstring).

Definition blockSentences (b : Block) : list jsstring :=
  match b with
  | Whole ss => ss
  | Split sentence _ => [sentence]
  end.

Definition blockChunks (b : Block) : list jsstring :=
  match b with
  | Whole ss => [concat ss]
  | Split _ pieces => pieces
  end.

(** Glued sentences fit the limit together; a sentence is cut only when it
    does not fit alone, and then as [hardPieces] says. *)
Definition wellFormed (m : nat) (b : Block) : Prop :=
  match b with
  | Whole ss =>
      ss <> [] /\ Forall (fun s => s <> []) ss /\ length (concat ss) <= m
  | Split sentence pieces =>
      m < length sentence /\ hardPieces m sentence pieces
  end.

(** A chunk of glued sentences is closed only because the sentence that
    follows would not fit in it. *)
Definition tight (m : nat) (a b : Block) : Prop :=
  match a, b with
  | Whole ss, Whole (t :: _) => m < length (concat ss) + length t
  | _, _ => True
  end.

Definition packed (m : nat) (blocks : list Block) : Prop :=
  forall i a b,
    nth_error blocks i = Some a -> nth_error blocks (S i) = Some b ->
    tight m a b.

(** The chunk still open, as a block, when there is one. *)
Definition pending (curSs : list jsstring) : list Block :=
  match curSs with
  | [] => []
  | _ :: _ => [Whole curSs]
  end.

Definition lastBlock (blocks : list Block) : option Block :=
  nth_error blocks (pred (length blocks)).

(** What one iteration keeps, in terms of blocks: [blocks] are closed,
    [curSs] are the sentences of the chunk still open. *)
Definition blocked (m : nat) (blocks : list Block) (curSs : list jsstring)
  : Prop :=
  Forall (wellFormed m) blocks
  /\ Forall (fun s => s <> []) curSs
  /\ length (concat curSs) <= m
  /\ packed m (blocks ++ pending curSs)
  /\ (curSs = [] -> forall ss, lastBlock blocks <> Some (Whole ss)).

End ChunkBlocks.

(* ------------------------------------------------------------------------ *)
(** ** The context as sentences: what is rendered, clicked and read *)

Module Reader.

(** [contextText.split('\n')]: never empty, the empty text has one empty
    line. *)
Fixpoint splitLines (text : jsstring) : list jsstring :=
  match text with
  | [] => [[]]
  | c :: rest =>
      if (c =? 10)%N then [] :: splitLines rest
      else match splitLines rest with
           | line :: lines => (c :: line) :: lines
           | [] => [[c]]
           end
  end.

Definition notLineFeed (c : char) : bool := negb (c =? 10)%N.

(** [p => p.trim() !== ''] *)
Definition notBlank (p : jsstring) : bool :=
  match trim p with
  | [] => false
  | _ :: _ => true
  end.

(** [contextText.split('\n').filter(p => p.trim() !== '')] *)
Definition paragraphs (contextText : jsstring) : list jsstring :=
  filter notBlank (splitLines contextText).

(** [acc + (curr.match(/[^.!?]+[.!?]*\s*|.+/g) || []).length], from zero,
    over the lines given: the [reduce] of the render and the [for] loop of
    the click handler. *)
Definition sentenceCount (lines : list jsstring) : nat :=
  fold_left (fun acc curr => acc + length (sentences curr)) lines 0.

(** [overallSentenceIndex] of [handleSentenceClick]; [paragraphs[i]] is
    [undefined] past the end, and [.match] on it throws. *)
Definition clickIndex (contextText : jsstring)
           (paragraphIndex sentenceIndexInParagraph : nat) : option nat :=
  if paragraphIndex <=? length (paragraphs contextText)
  then Some (sentenceCount (firstn paragraphIndex (paragraphs contextText))
             + sentenceIndexInParagraph)
  else None.

(** [overallSentenceIndex] of the render, for the span [sIndex] of the
    paragraph [pIndex]. *)
Definition renderIndex (contextText : jsstring) (pIndex sIndex : nat) : nat :=
  (if 0 <? pIndex
   then sentenceCount (firstn pIndex (splitLines contextText))
   else 0)
  + sIndex.

(** [activeSentenceIndex === overallSentenceIndex] *)
Definition highlighted (contextText : jsstring) (active : option nat)
           (pIndex sIndex : nat) : bool :=
  match active with
  | Some k => k =? renderIndex contextText pIndex sIndex
  | None => false
  end.

(** [const sentences = contextText.split('\n').flatMap(p => p.match(...) || [])] *)
Definition readSentences (contextText : jsstring) : list jsstring :=
  flat_map sentences (splitLines contextText).

(** [window.getSelection()], when there is one. *)
Record Selection : Type := {
  isCollapsed : bool;
  toString : jsstring
}.

Definition fromActive (contextText : jsstring) (active : option nat)
  : jsstring :=
  match active with
  | Some k =>
      match nth_error (readSentences contextText) k with
      | Some sentence =>
          if truthy sentence
          then concat (skipn k (readSentences contextText))
          else contextText
      | None => contextText
      end
  | None => contextText
  end.

(** [textToRead] of [handleReadAloud]. *)
Definition textToRead (contextText : jsstring) (selection : option Selection)
           (active : option nat) : jsstring :=
  match selection with
  | Some sel =>
      if negb (isCollapsed sel) && (0 <? length (trim (toString sel)))
      then toString sel
      else fromActive contextText active
  | None => fromActive contextText active
  end.

(** No line made of white space only. *)
Definition noSpaceOnlyLine (contextText : jsstring) : bool :=
  forallb (fun line => match line with [] => true | _ => notBlank line end)
          (splitLines contextText).

Section WithTime.
Context {T : Type} {TT : Time T}.

(** [handleReadAloud] of the component, on its context and selection. *)
Definition readAloud (contextText : jsstring) (selection : option Selection)
           (s : Tts.State T) : Tts.State T :=
  Tts.handleReadAloud
    (textToRead contextText selection (Tts.activeSentenceIndex s)) s.

(** [handleSentenceClick(paragraphIndex, sentenceIndexInParagraph)]; when
    the index computation throws, nothing has been changed yet. *)
Definition sentenceClick (contextText : jsstring)
           (paragraphIndex sentenceIndexInParagraph : nat) (s : Tts.State T)
  : Tts.State T :=
  match clickIndex contextText paragraphIndex sentenceIndexInParagraph with
  | Some index => Tts.handleSentenceClick index s
  | None => s
  end.

End WithTime.
End Reader.

Module ReaderSamples.

(** Two paragraphs of two sentences, an empty line between them. *)
Definition twoParagraphs : jsstring :=
  js "Hi. Yo." ++ [10%N; 10%N] ++ js "Ok. Go.".

(** Two lines of two sentences. *)
Definition twoLines : jsstring :=
  js "Hi. Yo." ++ [10%N] ++ js "Ok. Go.".

(** Three paragraphs, an empty line after the first. *)
Definition gapThenTwo : jsstring :=
  js "A." ++ [10%N; 10%N] ++ js "B." ++ [10%N] ++ js "C.".

End ReaderSamples.

(* ------------------------------------------------------------------------ *)
(** ** Text chat: the chat service and the handlers that use it *)

Module Chat.

Inductive Role : Type := user | model.

Record ChatMessage : Type := {
  role : Role;
  text : jsstring
}.

(** A [Chat] object made by [ai.chats.create]: which one, and the context
    its system instruction was built from. *)
Record ChatSession : Type := {
  chatId : nat;
  systemContext : jsstring
}.

(** The module state of the service: [chatInstance], with the chats made
    so far and the calls [chat.sendMessage({ message })] made so far. *)
Record Service : Type := {
  chatInstance : option ChatSession;
  chatsCreated : nat;
  sent : list (ChatSession * jsstring)
}.

Definition initService : Service :=
  {| chatInstance := None; chatsCreated := 0; sent := [] |}.

(** [getChatInstance] *)
Definition getChatInstance (context : jsstring) (sv : Service)
  : ChatSession * Service :=
  match chatInstance sv with
  | Some chat => (chat, sv)
  | None =>
      let chat := {| chatId := chatsCreated sv; systemContext := context |} in
      (chat, {| chatInstance := Some chat;
                chatsCreated := S (chatsCreated sv);
                sent := sent sv |})
  end.

(** [resetChat] *)
Definition resetChat (sv : Service) : Service :=
  {| chatInstance := None; chatsCreated := chatsCreated sv; sent := sent sv |}.

(** [getChatResponse], up to its [await]: the call is made. *)
Definition getChatResponse (context message : jsstring) (sv : Service)
  : Service :=
  let '(chat, sv1) := getChatInstance context sv in
  {| chatInstance := chatInstance sv1; chatsCreated := chatsCreated sv1;
     sent := sent sv1 ++ [(chat, message)] |}.

Section WithTime.
Context {T : Type} {TT : Time T}.

(** The state of the component the text chat uses.  [pending] counts the
    invocations of [handleSendMessage] suspended at their [await].  The
    summary, which these handlers only clear, is left out. *)
Record State : Type := {
  contextText : jsstring;
  pastedText : jsstring;
  chatHistory : list ChatMessage;
  inputValue : jsstring;
  isThinking : bool;
  pending : nat;
  service : Service;
  tts : Tts.State T
}.

Definition init : State :=
  {| contextText := []; pastedText := []; chatHistory := [];
     inputValue := []; isThinking := false; pending := 0;
     service := initService; tts := Tts.init |}.

(** [handleContextSubmit] *)
Definition handleContextSubmit (s : State) : State :=
  {| contextText := pastedText s; pastedText := pastedText s;
     chatHistory := []; inputValue := inputValue s;
     isThinking := isThinking s; pending := pending s;
     service := resetChat (service s); tts := tts s |}.

(** [handleNewContext] *)
Definition handleNewContext (s : State) : State :=
  {| contextText := []; pastedText := [];
     chatHistory := []; inputValue := inputValue s;
     isThinking := isThinking s; pending := pending s;
     service := resetChat (service s);
     tts := Tts.stopTtsPlayback (tts s) |}.

(** [handleSendMessage], up to its [await]. *)
Definition handleSendMessage (s : State) : State :=
  if negb (truthy (trim (inputValue s))) || isThinking s then s
  else
    {| contextText := contextText s; pastedText := pastedText s;
       chatHistory :=
         chatHistory s ++ [{| role := user; text := inputValue s |}];
       inputValue := []; isThinking := true; pending := S (pending s);
       service := getChatResponse (contextText s) (inputValue s) (service s);
       tts := tts s |}.

Definition errorReply : jsstring :=
  js "Sorry, I encountered an error. Please try again.".

(** [handleSendMessage] resumes: with [response.text], or in its [catch];
    then the [finally].  Nothing resumes when no invocation is suspended. *)
Definition onResponse (result : option jsstring) (s : State) : State :=
  match pending s with
  | O => s
  | S n =>
      {| contextText := contextText s; pastedText := pastedText s;
         chatHistory :=
           chatHistory s
           ++ [{| role := model;
                  text := match result with
                          | Some t => t
                          | None => errorReply
                          end |}];
         inputValue := inputValue s; isThinking := false; pending := n;
         service := service s; tts := tts s |}
  end.

Definition setPastedText (t : jsstring) (s : State) : State :=
  {| contextText := contextText s; pastedText := t;
     chatHistory := chatHistory s; inputValue := inputValue s;
     isThinking := isThinking s; pending := pending s;
     service := service s; tts := tts s |}.

Definition setInputValue (t : jsstring) (s : State) : State :=
  {| contextText := contextText s; pastedText := pastedText s;
     chatHistory := chatHistory s; inputValue := t;
     isThinking := isThinking s; pending := pending s;
     service := service s; tts := tts s |}.

Inductive Event : Type :=
| PasteText (t : jsstring)
| TypeInput (t : jsstring)
| ContextSubmit
| NewContext
| SendMessage
| ResponseSettled (result : option jsstring).

Definition step (s : State) (e : Event) : State :=
  match e with
  | PasteText t => setPastedText t s
  | TypeInput t => setInputValue t s
  | ContextSubmit => handleContextSubmit s
  | NewContext => handleNewContext s
  | SendMessage => handleSendMessage s
  | ResponseSettled result => onResponse result s
  end.

Definition run (s : State) (es : list Event) : State := fold_left step es s.

(** The chat held, if any, was made for the context shown. *)
Definition chatMatches (s : State) : Prop :=
  match chatInstance (service s) with
  | Some chat => systemContext chat = contextText s
  | None => True
  end.

Definition changesContext (e : Event) : bool :=
  match e with
  | ContextSubmit => true
  | NewContext => true
  | _ => false
  end.

Definition other (r : Role) : Role :=
  match r with
  | user => model
  | model => user
  end.

Fixpoint alternates (first : Role) (h : list ChatMessage) : Prop :=
  match h with
  | [] => True
  | m :: rest => role m = first /\ alternates (other first) rest
  end.

(** Questions and answers in turn, a question first, and a question last
    exactly when [open]. *)
Definition inTurns (open : bool) (h : list ChatMessage) : Prop :=
  alternates user h /\ Nat.odd (length h) = open.

(** One request in flight at most, told by [isThinking], and the history
    in turns. *)
Definition conversing (s : State) : Prop :=
  pending s = (if isThinking s then 1 else 0)
  /\ inTurns (isThinking s) (chatHistory s).

End WithTime.
Arguments State T : clear implicits.
End Chat.

(* ------------------------------------------------------------------------ *)
(** ** Microphone samples as 16-bit PCM

    [new Uint8Array(new Int16Array(inputData.map(f => f * 32768)).buffer)].
    The samples are finite floats, here rationals; the product with
    [32768] is exact in the [Float32Array] that [map] returns.  An
    [Int16Array] built from it converts each element with ToInt16:
    truncate, then reduce modulo [2^16] into [-32768 .. 32767].  The byte
    view shows each element low byte first (the byte order of the
    platforms browsers run on). *)

Module Pcm.

(** The integer part, rounding toward zero. *)
Definition truncate (x : Q) : Z := Z.quot (Qnum x) (Zpos (Qden x)).

Definition toInt16 (x : Q) : Z :=
  let k := ((truncate x) mod 65536)%Z in
  if (32768 <=? k)%Z then (k - 65536)%Z else k.

(** [f => f * 32768], stored in an [Int16Array]. *)
Definition sample (f : Q) : Z := toInt16 (f * 32768)%Q.

(** The two bytes of an [Int16Array] element. *)
Definition bytesOf (v : Z) : list Z :=
  [(v mod 256)%Z; ((v / 256) mod 256)%Z].

Definition pcmBytes (inputData : list Q) : list Z :=
  flat_map (fun f => bytesOf (sample f)) inputData.

(** The element two bytes stand for. *)
Definition int16Of (lo hi : Z) : Z :=
  (if 128 <=? hi then lo + 256 * hi - 65536 else lo + 256 * hi)%Z.

End Pcm.

(* ------------------------------------------------------------------------ *)
(** ** The scratchpad *)

Module Scratchpad.

(** [prev => prev ? `${prev}\n- ${content}` : `- ${content}`] *)
Definition handleAddToScratchpad (content prev : jsstring) : jsstring :=
  if truthy prev
  then prev ++ [10%N] ++ js "- " ++ content
  else js "- " ++ content.

(** The scratchpad after the callback was called with each of [contents]. *)
Definition addAll (contents : list jsstring) (prev : jsstring) : jsstring :=
  fold_left (fun p content => handleAddToScratchpad content p) contents prev.

(** An item on a line of its own, after what is there. *)
Definition item (content : jsstring) : jsstring :=
  [10%N] ++ js "- " ++ content.

End Scratchpad.

Module ChatSamples.
Import Chat.

(** A context submitted and a first question sent, its reply awaited. *)
Definition asked : State Q :=
  run init [PasteText (js "Hi. Bye."); ContextSubmit;
            TypeInput (js "Why?"); SendMessage].

End ChatSamples.

(* ======================================================================== *)
(** * Properties *)

(** ** Strings *)

Section StringFacts.

Variable p : char -> bool.

Lemma takeWhile_dropWhile (s : jsstring) :
  takeWhile p s ++ dropWhile p s = s.
Proof.
  induction s as [|c s IH]; simpl; [reflexivity|].
  destruct (p c); simpl; [now rewrite IH | reflexivity].
Qed.

Lemma dropWhile_nil_iff (s : jsstring) :
  dropWhile p s = [] <-> forallb p s = true.
Proof.
  induction s as [|c s IH]; simpl; [tauto|].
  destruct (p c); simpl; [exact IH | split; discriminate].
Qed.

Lemma dropWhile_head (s : jsstring) (c : char) (t : jsstring) :
  dropWhile p s = c :: t -> p c = false.
Proof.
  induction s as [|d s IH]; simpl; [discriminate|].
  destruct (p d) eqn:E; [exact IH|].
  intros H; injection H as -> _; exact E.
Qed.

Lemma forallb_dropWhile (s : jsstring) :
  forallb p (dropWhile p s) = true -> forallb p s = true.
Proof.
  induction s as [|c s IH]; simpl; [trivial|].
  destruct (p c) eqn:E; simpl; [exact IH | now rewrite E].
Qed.

End StringFacts.

Lemma trimEnd_nil_iff (s : jsstring) :
  trimEnd s = [] <-> forallb isSpace s = true.
Proof.
  induction s as [|c s IH]; simpl; [tauto|].
  destruct (trimEnd s) as [|k kept].
  - destruct (isSpace c); simpl; [exact IH | split; discriminate].
  - split; [discriminate|]. intros H. apply andb_prop in H.
    destruct IH as [_ IH]. now specialize (IH (proj2 H)).
Qed.

Lemma trim_nil_iff (s : jsstring) :
  trim s = [] <-> forallb isSpace s = true.
Proof.
  unfold trim, trimStart. rewrite trimEnd_nil_iff. split.
  - apply forallb_dropWhile.
  - intros H. apply dropWhile_nil_iff in H. now rewrite H.
Qed.

Lemma forallb_takeWhile (p : char -> bool) (s : jsstring) :
  forallb p (takeWhile p s) = true.
Proof.
  induction s as [|c s IH]; [reflexivity|]. cbn.
  destruct (p c) eqn:E; [cbn; now rewrite E | reflexivity].
Qed.

Lemma trimEnd_spec (s : jsstring) :
  exists post,
    s = trimEnd s ++ post /\ forallb isSpace post = true
    /\ (forall t' c, trimEnd s = t' ++ [c] -> isSpace c = false).
Proof.
  induction s as [|c s IH].
  - exists []. cbn. repeat split. intros t' c H. destruct t'; discriminate.
  - destruct IH as (post & Hs & Hpost & Hend). cbn [trimEnd].
    destruct (trimEnd s) as [|k kept].
    + cbn [app] in Hs. subst post. destruct (isSpace c) eqn:Ec.
      * exists (c :: s). cbn. rewrite Ec, Hpost. repeat split.
        intros t' c0 H. destruct t'; discriminate.
      * exists s. repeat split; [exact Hpost|].
        intros t' c0 H. destruct t' as [|x [|y t']]; try discriminate.
        now injection H as <-.
    + exists post. split; [cbn [app]; now rewrite Hs at 1|].
      split; [exact Hpost|].
      intros t' c0 H. destruct t' as [|x t']; [discriminate|].
      injection H as _ H. now apply (Hend t').
Qed.

Lemma trimEnd_head (s : jsstring) (c : char) (t : jsstring) :
  trimEnd s = c :: t -> exists s', s = c :: s'.
Proof.
  destruct s as [|d s]; cbn; [discriminate|].
  destruct (trimEnd s); [destruct (isSpace d)|]; intros H;
    try discriminate; injection H as -> _; now exists s.
Qed.

(** [trim] cuts white space off the two ends, and all of it. *)
Lemma trim_stripped (s : jsstring) : stripped s (trim s).
Proof.
  unfold trim, trimStart.
  destruct (trimEnd_spec (dropWhile isSpace s)) as (post & Hs & Hpost & Hend).
  split; [|split].
  - exists (takeWhile isSpace s), post. split; [|split].
    + rewrite <- Hs. symmetry. apply takeWhile_dropWhile.
    + apply forallb_takeWhile.
    + exact Hpost.
  - intros c t' H. destruct (trimEnd_head _ _ _ H) as [s' Hs'].
    eapply dropWhile_head. exact Hs'.
  - exact Hend.
Qed.

Lemma truthy_nonempty (s : jsstring) : s <> [] -> truthy s = true.
Proof. destruct s; [congruence | reflexivity]. Qed.

Lemma nonBlank_false_iff (s : jsstring) :
  nonBlank s = false <-> forallb isSpace s = true.
Proof.
  rewrite <- trim_nil_iff. unfold nonBlank.
  destruct (trim s); cbn; split; intros; congruence.
Qed.

Lemma firstn_length_diff {A : Type} (m rest : list A) :
  firstn (length (m ++ rest) - length rest) (m ++ rest) = m.
Proof.
  rewrite length_app.
  replace (length m + length rest - length rest) with (length m + 0) by lia.
  rewrite firstn_app_2. simpl. apply app_nil_r.
Qed.

(** ** The sentence regular expression *)

Section RegexFacts.

Import Regex.

(** Under a continuation that accepts whatever it is given, a greedy star
    never gives a character back. *)
Lemma starK_greedy (cls : char -> bool) (s : jsstring) :
  starK cls s (fun rest => Some rest) = Some (dropWhile cls s).
Proof.
  induction s as [|c s IH]; simpl; [reflexivity|].
  destruct (cls c); [now rewrite IH | reflexivity].
Qed.

Lemma starK_total {A : Type} (cls : char -> bool) (k : jsstring -> option A)
      (f : jsstring -> A) (s : jsstring) :
  (forall t, k t = Some (f t)) ->
  starK cls s k = Some (f (dropWhile cls s)).
Proof.
  intros Hk. induction s as [|c s IH]; simpl; [apply Hk|].
  destruct (cls c); [now rewrite IH | apply Hk].
Qed.

Lemma punct_isDot (c : char) : isPunct c = true -> isDot c = true.
Proof.
  unfold isPunct, isDot, isLineTerminator. intros H.
  repeat (apply orb_prop in H; destruct H as [H|H]);
    apply N.eqb_eq in H; subst c; reflexivity.
Qed.

Lemma run_sentenceRe (c : char) (s : jsstring) :
  run sentenceRe (c :: s) (fun rest => Some rest) = Some (sentenceRest c s).
Proof.
  unfold sentenceRe, sentenceRest. simpl. unfold notPunct at 1 3.
  destruct (isPunct c) eqn:E; simpl.
  - rewrite (punct_isDot c E). apply starK_greedy.
  - rewrite (starK_total notPunct
               (fun s' => starK isPunct s' (fun s'0 => starK isSpace s'0 (fun rest => Some rest)))
               (fun t => dropWhile isSpace (dropWhile isPunct t))).
    + reflexivity.
    + intros t. rewrite (starK_total isPunct _ (fun u => dropWhile isSpace u) t).
      * reflexivity.
      * intros u. apply starK_greedy.
Qed.

Lemma sentenceRest_suffix (c : char) (s : jsstring) :
  exists m, c :: s = (c :: m) ++ sentenceRest c s.
Proof.
  unfold sentenceRest. destruct (notPunct c).
  - exists (takeWhile notPunct s
            ++ takeWhile isPunct (dropWhile notPunct s)
            ++ takeWhile isSpace (dropWhile isPunct (dropWhile notPunct s))).
    simpl. f_equal. rewrite <- !app_assoc.
    now rewrite !takeWhile_dropWhile.
  - exists (takeWhile isDot s). simpl. now rewrite takeWhile_dropWhile.
Qed.

Lemma exec_sentenceRe (c : char) (s : jsstring) :
  exists m rest,
    exec sentenceRe (c :: s) = Some (c :: m, rest) /\ c :: s = (c :: m) ++ rest.
Proof.
  destruct (sentenceRest_suffix c s) as [m Hm].
  exists m, (sentenceRest c s). split; [|exact Hm].
  unfold exec. rewrite run_sentenceRe.
  rewrite Hm at 1 2. now rewrite firstn_length_diff.
Qed.

Lemma scan_sentenceRe (fuel : nat) (s : jsstring) :
  length s < fuel ->
  concat (scan fuel sentenceRe s) = s
  /\ Forall (fun m => m <> []) (scan fuel sentenceRe s).
Proof.
  revert s. induction fuel as [|fuel IH]; intros s Hlen; [lia|].
  destruct s as [|c s].
  - simpl. split; [reflexivity | constructor].
  - destruct (exec_sentenceRe c s) as (m & rest & Hex & Hs).
    cbn [scan]. rewrite Hex.
    assert (Hrest : length rest < fuel).
    { apply (f_equal (@length char)) in Hs. rewrite length_app in Hs.
      simpl in Hs, Hlen. lia. }
    destruct (IH rest Hrest) as [Hc Hne]. split.
    + cbn [concat]. rewrite Hc. symmetry. exact Hs.
    + constructor; [discriminate | exact Hne].
Qed.

End RegexFacts.

(** The sentences the expression finds tile the text: nothing between two
    matches is skipped, and no match is empty. *)
Lemma concat_sentences (text : jsstring) : concat (sentences text) = text.
Proof. apply scan_sentenceRe. lia. Qed.

Lemma sentences_nonempty (text : jsstring) :
  Forall (fun m => m <> []) (sentences text).
Proof. apply scan_sentenceRe. lia. Qed.

(** ** [chunkText] *)

Lemma hardPieces_bound (m : nat) (s : jsstring) (ps : list jsstring) :
  hardPieces m s ps -> Forall (fun p => length p <= m) ps.
Proof.
  intros (_ & front & lst & -> & Hf & Hl).
  apply Forall_app. split.
  - eapply Forall_impl; [|exact Hf]. simpl. intros; lia.
  - constructor; [lia | constructor].
Qed.

Lemma hardSplitFrom_done (fuel m : nat) (s : jsstring) (i : nat) :
  length s <= i -> hardSplitFrom fuel m s i = Some [].
Proof.
  intros H. assert (E : (i <? length s) = false) by (apply Nat.ltb_ge; lia).
  destruct fuel; simpl; now rewrite E.
Qed.

Lemma hardSplitFrom_spec (m : nat) (Hm : 1 <= m) (fuel : nat) (s : jsstring) :
  forall i, length s <= fuel + i -> i < length s ->
  exists ps, hardSplitFrom fuel m s i = Some ps /\ hardPieces m (skipn i s) ps.
Proof.
  induction fuel as [|fuel IH]; intros i Hfuel Hi; [lia|].
  cbn [hardSplitFrom].
  assert (E : (i <? length s) = true) by (apply Nat.ltb_lt; lia). rewrite E.
  unfold substring. replace (i + m - i) with m by lia.
  assert (Hsk : skipn (i + m) s = skipn m (skipn i s)).
  { rewrite skipn_skipn. f_equal. lia. }
  destruct (Nat.lt_ge_cases (i + m) (length s)) as [Hlt | Hge].
  - destruct (IH (i + m)) as (ps & Hps & Hc & front & lst & -> & Hf & Hl);
      [lia | lia |].
    rewrite Hps. cbn [option_map]. eexists; split; [reflexivity|]. split.
    + cbn [concat]. rewrite Hc, Hsk. apply firstn_skipn.
    + exists (firstn m (skipn i s) :: front), lst. repeat split; try lia.
      constructor; [|exact Hf].
      rewrite length_firstn, length_skipn. lia.
  - rewrite hardSplitFrom_done by lia. cbn [option_map].
    eexists; split; [reflexivity|].
    assert (Hall : firstn m (skipn i s) = skipn i s).
    { apply firstn_all2. rewrite length_skipn. lia. }
    rewrite Hall. split.
    + simpl. apply app_nil_r.
    + exists [], (skipn i s). repeat split; try constructor;
        rewrite length_skipn; lia.
Qed.

Lemma hardSplit_spec (m : nat) (s : jsstring) :
  1 <= m -> m < length s ->
  exists ps, hardSplit m s = Some ps /\ hardPieces m s ps.
Proof.
  intros Hm Hs. unfold hardSplit.
  destruct (@hardSplitFrom_spec m Hm (length s) s 0) as (ps & H1 & H2);
    [lia | lia |].
  exists ps. split; [exact H1 | exact H2].
Qed.

Lemma flush_concat (chunks : list jsstring) (cur : jsstring) :
  concat (flush chunks cur) = concat chunks ++ cur.
Proof.
  unfold flush. destruct cur; simpl.
  - now rewrite app_nil_r.
  - rewrite concat_app. simpl. now rewrite app_nil_r.
Qed.

Lemma flush_bound (m : nat) (chunks : list jsstring) (cur : jsstring) :
  Forall (fun p => length p <= m) chunks -> length cur <= m ->
  Forall (fun p => length p <= m) (flush chunks cur).
Proof.
  intros Hc Hcur. unfold flush. destruct (truthy cur); [|exact Hc].
  apply Forall_app. split; [exact Hc | constructor; [exact Hcur | constructor]].
Qed.

Lemma flush_ext (chunks : list jsstring) (cur : jsstring) :
  exists ext, flush chunks cur = chunks ++ ext.
Proof.
  unfold flush. destruct (truthy cur).
  - now exists [cur].
  - exists []. now rewrite app_nil_r.
Qed.

(** What one iteration keeps true, for a positive width. *)
Lemma step_spec (m : nat) (chunks : list jsstring) (cur sentence : jsstring) :
  1 <= m -> Forall (fun p => length p <= m) chunks -> length cur <= m ->
  exists chunks' cur',
    step m (chunks, cur) sentence = Some (chunks', cur')
    /\ Forall (fun p => length p <= m) chunks'
    /\ length cur' <= m
    /\ concat chunks' ++ cur' = (concat chunks ++ cur) ++ sentence
    /\ (exists ext, chunks' = chunks ++ ext)
    /\ (m < length sentence ->
        exists ps, hardPieces m sentence ps
                   /\ chunks' = flush chunks cur ++ ps).
Proof.
  intros Hm Hc Hcur. unfold step.
  destruct (m <? length sentence) eqn:E1.
  - apply Nat.ltb_lt in E1.
    destruct (@hardSplit_spec m sentence Hm E1) as (ps & -> & Hps).
    eexists _, _; split; [reflexivity|]. repeat split.
    + apply Forall_app. split; [now apply flush_bound|].
      now apply hardPieces_bound with (s := sentence).
    + simpl; lia.
    + rewrite concat_app, flush_concat, app_nil_r. now destruct Hps as [-> _].
    + destruct (flush_ext chunks cur) as [ext ->].
      exists (ext ++ ps). now rewrite app_assoc.
    + intros _. now exists ps.
  - apply Nat.ltb_ge in E1.
    destruct (m <? length (cur ++ sentence)) eqn:E2.
    + eexists _, _; split; [reflexivity|]. repeat split.
      * now apply flush_bound.
      * exact E1.
      * now rewrite flush_concat.
      * apply flush_ext.
      * intros; lia.
    + apply Nat.ltb_ge in E2.
      eexists _, _; split; [reflexivity|]. repeat split.
      * exact Hc.
      * exact E2.
      * now rewrite app_assoc.
      * exists []. now rewrite app_nil_r.
      * intros; lia.
Qed.

Lemma loop_spec (m : nat) (Hm : 1 <= m) (ss : list jsstring) :
  forall chunks cur,
    Forall (fun p => length p <= m) chunks -> length cur <= m ->
    exists chunks' cur',
      loop m (chunks, cur) ss = Some (chunks', cur')
      /\ Forall (fun p => length p <= m) chunks'
      /\ length cur' <= m
      /\ concat chunks' ++ cur' = (concat chunks ++ cur) ++ concat ss
      /\ (exists ext, chunks' = chunks ++ ext).
Proof.
  induction ss as [|sentence ss IH]; intros chunks cur Hc Hcur.
  - exists chunks, cur. simpl. repeat split; try assumption.
    + now rewrite app_nil_r.
    + exists []. now rewrite app_nil_r.
  - destruct (@step_spec m chunks cur sentence Hm Hc Hcur)
      as (c1 & cur1 & Hstep & Hc1 & Hcur1 & Hcat1 & (ext1 & Hext1) & _).
    destruct (IH c1 cur1 Hc1 Hcur1)
      as (c2 & cur2 & Hloop & Hc2 & Hcur2 & Hcat2 & (ext2 & Hext2)).
    exists c2, cur2. cbn [loop]. rewrite Hstep. repeat split; try assumption.
    + rewrite Hcat2, Hcat1. cbn [concat]. now rewrite <- !app_assoc.
    + exists (ext1 ++ ext2). subst. now rewrite app_assoc.
Qed.

Lemma loop_app (m : nat) (ss1 ss2 : list jsstring) :
  forall st,
    loop m st (ss1 ++ ss2)
    = match loop m st ss1 with
      | Some st' => loop m st' ss2
      | None => None
      end.
Proof.
  induction ss1 as [|s ss1 IH]; intros st; simpl; [reflexivity|].
  destruct (step m st s); [apply IH | reflexivity].
Qed.

(** The array before the final filter: it exists for every positive width,
    tiles the text, and respects the width. *)
Lemma rawChunks_spec (text : jsstring) (m : nat) :
  1 <= m ->
  exists raw,
    rawChunks text m = Some raw
    /\ concat raw = text
    /\ Forall (fun p => length p <= m) raw.
Proof.
  intros Hm. unfold rawChunks.
  destruct (@loop_spec m Hm (sentences text) [] [])
    as (chunks & cur & -> & Hc & Hcur & Hcat & _); [constructor | simpl; lia |].
  eexists; split; [reflexivity|]. split.
  - rewrite flush_concat, Hcat. simpl. apply concat_sentences.
  - now apply flush_bound.
Qed.

(** Every sentence wider than the limit shows up in that array as one run of
    consecutive hard-split pieces. *)
Lemma rawChunks_hard (text : jsstring) (m : nat) (raw : list jsstring)
      (sentence : jsstring) :
  1 <= m -> rawChunks text m = Some raw ->
  In sentence (sentences text) -> m < length sentence ->
  exists before ps after,
    raw = before ++ ps ++ after /\ hardPieces m sentence ps.
Proof.
  intros Hm Hraw Hin Hlong.
  apply in_split in Hin. destruct Hin as (ss1 & ss2 & Hss).
  unfold rawChunks in Hraw. rewrite Hss in Hraw.
  rewrite loop_app in Hraw.
  destruct (@loop_spec m Hm ss1 [] [])
    as (c1 & cur1 & H1 & Hc1 & Hcur1 & _); [constructor | simpl; lia |].
  rewrite H1 in Hraw. cbn [loop] in Hraw.
  destruct (@step_spec m c1 cur1 sentence Hm Hc1 Hcur1)
    as (c2 & cur2 & Hstep & Hc2 & Hcur2 & _ & _ & Hhard).
  rewrite Hstep in Hraw.
  destruct (Hhard Hlong) as (ps & Hps & Hc2eq).
  destruct (@loop_spec m Hm ss2 c2 cur2 Hc2 Hcur2)
    as (c3 & cur3 & H3 & _ & _ & _ & (ext & Hc3eq)).
  rewrite H3 in Hraw. injection Hraw as <-. subst c3 c2.
  destruct (flush_ext ((flush c1 cur1 ++ ps) ++ ext) cur3) as [ext' ->].
  exists (flush c1 cur1), ps, (ext ++ ext'). split; [|exact Hps].
  now rewrite <- !app_assoc.
Qed.

Lemma loop_short (m : nat) (ss : list jsstring) :
  forall cur,
    length (cur ++ concat ss) <= m ->
    loop m ([], cur) ss = Some ([], cur ++ concat ss).
Proof.
  induction ss as [|sentence ss IH]; intros cur Hlen; cbn [loop concat].
  - now rewrite app_nil_r.
  - cbn [concat] in Hlen. rewrite !length_app in Hlen. unfold step.
    assert (E1 : (m <? length sentence) = false) by (apply Nat.ltb_ge; lia).
    assert (E2 : (m <? length (cur ++ sentence)) = false)
      by (apply Nat.ltb_ge; rewrite length_app; lia).
    rewrite E1, E2, IH; [now rewrite <- app_assoc|].
    rewrite !length_app. lia.
Qed.

Lemma filter_notSpace_blank (p : jsstring) :
  forallb isSpace p = true -> filter notSpace p = [].
Proof.
  induction p as [|c p IH]; simpl; [reflexivity|].
  intros H. apply andb_prop in H. destruct H as [Hc Hp].
  unfold notSpace at 1. rewrite Hc. simpl. now apply IH.
Qed.

Lemma filter_notSpace_nonBlank (ps : list jsstring) :
  filter notSpace (concat (filter nonBlank ps)) = filter notSpace (concat ps).
Proof.
  induction ps as [|p ps IH]; [reflexivity|].
  cbn [filter concat]. rewrite filter_app.
  destruct (nonBlank p) eqn:E; cbn [concat].
  - now rewrite filter_app, IH.
  - apply nonBlank_false_iff in E.
    now rewrite (@filter_notSpace_blank p E), IH.
Qed.

(** C4.  For a limit of at least one, [chunkText] returns, and every chunk it
    returns is at most [maxLength] code units long.  A sentence longer than
    the limit is hard-split: the array built before the final filter holds,
    side by side, pieces that tile the sentence, each exactly [maxLength]
    long except the last, which is shorter or equal and not empty. *)
Theorem chunkText_size_bound (text : jsstring) (maxLength : nat) :
  1 <= maxLength ->
  exists raw,
    rawChunks text maxLength = Some raw
    /\ chunkText text maxLength = Some (filter nonBlank raw)
    /\ Forall (fun c => length c <= maxLength) (filter nonBlank raw)
    /\ forall sentence,
         In sentence (sentences text) -> maxLength < length sentence ->
         exists before pieces after,
           raw = before ++ pieces ++ after
           /\ hardPieces maxLength sentence pieces.
Proof.
  intros Hm. destruct (@rawChunks_spec text maxLength Hm) as (raw & Hraw & _ & Hb).
  exists raw. split; [exact Hraw|]. split; [|split].
  - unfold chunkText. now rewrite Hraw.
  - apply Forall_forall. intros c Hc. apply filter_In in Hc.
    rewrite Forall_forall in Hb. now apply Hb.
  - intros sentence Hin Hlong.
    now apply (@rawChunks_hard text maxLength raw sentence).
Qed.

Lemma chunkText_size_bound_witness :
  1 <= 4
  /\ exists raw,
       rawChunks (js "Hi. abcdefghij") 4 = Some raw
       /\ chunkText (js "Hi. abcdefghij") 4 = Some (filter nonBlank raw)
       /\ Forall (fun c => length c <= 4) (filter nonBlank raw)
       /\ forall sentence,
            In sentence (sentences (js "Hi. abcdefghij")) ->
            4 < length sentence ->
            exists before pieces after,
              raw = before ++ pieces ++ after
              /\ hardPieces 4 sentence pieces.
Proof.
  split; [lia | apply (chunkText_size_bound (js "Hi. abcdefghij") 4); lia].
Defined.

(** C7, as the code has it.  A text that is not all whitespace and no longer
    than the limit comes back as exactly one chunk, and that chunk is the
    text itself: whitespace at its ends is kept. *)
Theorem chunkText_short_input (text : jsstring) (maxLength : nat) :
  nonBlank text = true -> length text <= maxLength ->
  chunkText text maxLength = Some [text].
Proof.
  intros Hnb Hlen. unfold chunkText, rawChunks.
  rewrite loop_short by (simpl; now rewrite concat_sentences).
  simpl. rewrite concat_sentences. unfold flush.
  destruct text as [|c text]; [discriminate Hnb|].
  simpl. now rewrite Hnb.
Qed.

Lemma chunkText_short_input_witness :
  nonBlank (js " ok ") = true /\ length (js " ok ") <= 10
  /\ chunkText (js " ok ") 10 = Some [js " ok "].
Proof.
  split; [reflexivity | split; [simpl; lia |]].
  apply (chunkText_short_input (js " ok ") 10); [reflexivity | simpl; lia].
Defined.

(** C7 as stated fails: the text [" a"] is not all whitespace and fits the
    limit, and its one chunk is [" a"], which is not [trim " a"]. *)
Lemma chunkText_short_input_not_trimmed :
  nonBlank (js " a") = true
  /\ length (js " a") <= 5
  /\ chunkText (js " a") 5 = Some [js " a"]
  /\ trim (js " a") = js "a"
  /\ chunkText (js " a") 5 <> Some [trim (js " a")].
Proof.
  repeat split; try reflexivity; [simpl; lia | discriminate].
Qed.

(** C10.  For a limit of at least one, the chunks are what is left of a
    tiling of the text (consecutive, non-overlapping pieces whose
    concatenation is the text) once the pieces made of whitespace only are
    dropped; so the characters that are not whitespace come out all, once,
    and in their order. *)
Theorem chunkText_tiles_text (text : jsstring) (maxLength : nat) :
  1 <= maxLength ->
  exists pieces,
    concat pieces = text
    /\ chunkText text maxLength = Some (filter nonBlank pieces)
    /\ (forall p, In p pieces -> nonBlank p = false ->
                  forallb isSpace p = true)
    /\ filter notSpace (concat (filter nonBlank pieces))
       = filter notSpace text.
Proof.
  intros Hm.
  destruct (@rawChunks_spec text maxLength Hm) as (raw & Hraw & Hcat & _).
  exists raw. split; [exact Hcat|]. split; [|split].
  - unfold chunkText. now rewrite Hraw.
  - intros p _ Hp. now apply nonBlank_false_iff.
  - now rewrite filter_notSpace_nonBlank, Hcat.
Qed.

Lemma chunkText_tiles_text_witness :
  1 <= 3
  /\ exists pieces,
       concat pieces = js "a        b. c"
       /\ chunkText (js "a        b. c") 3 = Some (filter nonBlank pieces)
       /\ (forall p, In p pieces -> nonBlank p = false ->
                     forallb isSpace p = true)
       /\ filter notSpace (concat (filter nonBlank pieces))
          = filter notSpace (js "a        b. c").
Proof.
  split; [lia | apply (chunkText_tiles_text (js "a        b. c") 3); lia].
Defined.

(** ** Playback scheduling *)

Section SchedulerFacts.
Context {T : Type} {TT : Time T}.
Import Scheduler.

Lemma started_app_call (s : State T) (c : NodeCall T) (calls : list (NodeCall T)) :
  nodeCalls s = calls ++ [c] ->
  started s
  = flat_map (fun c => match c with Start e => [e] | Stop _ => [] end) calls
    ++ match c with Start e => [e] | Stop _ => [] end.
Proof.
  intros H. unfold started. rewrite H, flat_map_app. simpl.
  now rewrite app_nil_r.
Qed.

Lemma started_enqueue (now d : T) (s : State T) :
  started (enqueue now d s)
  = started s ++ [{| node := created s;
                     startAt := tmax (nextStartTime s) now;
                     duration := d |}].
Proof.
  exact (started_app_call (enqueue now d s) _ (nodeCalls s) eq_refl).
Qed.

Lemma playAudio_enqueue (now d : T) (s : State T) :
  playAudio now d s = enqueue now d s.
Proof. reflexivity. Qed.

Lemma started_enqueueAll (reqs : list (T * T)) :
  forall s,
    started (enqueueAll reqs s)
    = started s ++ specSchedule (nextStartTime s) (created s) reqs.
Proof.
  induction reqs as [|[now d] reqs IH]; intros s.
  - simpl. now rewrite app_nil_r.
  - unfold enqueueAll in *. cbn [fold_left fst snd specSchedule].
    rewrite IH, started_enqueue, <- app_assoc. reflexivity.
Qed.

Lemma playAudioAll_enqueueAll (reqs : list (T * T)) :
  forall s, playAudioAll reqs s = enqueueAll reqs s.
Proof.
  induction reqs as [|r reqs IH]; intros s; [reflexivity|].
  unfold playAudioAll, enqueueAll in *. cbn [fold_left].
  now rewrite playAudio_enqueue, IH.
Qed.

Lemma specSchedule_nodes (reqs : list (T * T)) :
  forall next k,
    map (@node T) (specSchedule next k reqs) = seq k (length reqs).
Proof.
  induction reqs as [|[now d] reqs IH]; intros next k; [reflexivity|].
  cbn [specSchedule map length seq node]. now rewrite IH.
Qed.

Lemma specSchedule_durations (reqs : list (T * T)) :
  forall next k,
    map (@duration T) (specSchedule next k reqs) = map snd reqs.
Proof.
  induction reqs as [|[now d] reqs IH]; intros next k; [reflexivity|].
  cbn [specSchedule map duration snd]. now rewrite IH.
Qed.

Lemma specSchedule_chained (reqs : list (T * T)) :
  forall next k, chained next (specSchedule next k reqs).
Proof.
  induction reqs as [|[now d] reqs IH]; intros next k; [exact I|].
  cbn [specSchedule chained]. split; [apply tmax_ge_l | apply IH].
Qed.

Lemma chained_weaken (es : list (PlaybackEntry T)) (lo lo' : T) :
  tle lo' lo -> chained lo es -> chained lo' es.
Proof.
  destruct es as [|e es]; [trivial|].
  intros Hle [H1 H2]. split; [|exact H2]. now apply tle_trans with lo.
Qed.

(** Consecutive entries of a chain do not overlap. *)
Lemma chained_consecutive (es : list (PlaybackEntry T)) :
  forall lo k e1 e2,
    chained lo es ->
    nth_error es k = Some e1 -> nth_error es (S k) = Some e2 ->
    tle (endAt e1) (startAt e2).
Proof.
  induction es as [|e es IH]; intros lo k e1 e2 Hch H1 H2.
  - destruct k; discriminate.
  - destruct Hch as [_ Hch]. destruct k as [|k].
    + injection H1 as <-. destruct es as [|e' es]; [discriminate|].
      injection H2 as <-. exact (proj1 Hch).
    + exact (IH _ k e1 e2 Hch H1 H2).
Qed.

Lemma specSchedule_durations_nonneg (reqs : list (T * T)) (next : T) (k : nat) :
  Forall (fun r => tle tzero (snd r)) reqs ->
  Forall (fun e => tle tzero (duration e)) (specSchedule next k reqs).
Proof.
  revert next k. induction reqs as [|[now d] reqs IH]; intros next k H.
  - constructor.
  - inversion H as [|? ? Hd Hrest]; subst. cbn [specSchedule].
    constructor; [exact Hd | now apply IH].
Qed.

(** The two halves of [playAudio] keep the chain whatever the order in which
    pending calls resume. *)
Lemma phases_chained (ps : list (Phase T)) :
  forall s,
    exists es,
      started (fold_left phase ps s) = started s ++ es
      /\ chained (nextStartTime s) es.
Proof.
  induction ps as [|p ps IH]; intros s.
  - exists []. simpl. now rewrite app_nil_r.
  - cbn [fold_left]. destruct (IH (phase s p)) as (es & Hes & Hch).
    destruct p as [now | d]; cbn [phase] in *.
    + exists es. split; [exact Hes|].
      apply chained_weaken with (lo := tmax (nextStartTime s) now);
        [apply tmax_ge_l | exact Hch].
    + exists ({| node := created s; startAt := nextStartTime s;
                 duration := d |} :: es).
      split.
      * rewrite Hes.
        rewrite (started_app_call (playAudioFinish d s) _ (nodeCalls s) eq_refl).
        now rewrite <- app_assoc.
      * split; [apply tle_refl | exact Hch].
Qed.

(** C2.  A run of enqueue calls on one scheduler, from any state: the
    entries it starts are those of the schedule
    [startTime = max(nextStartTime, clockNow())],
    [nextStartTime = startTime + duration], in call order, for the
    text-to-speech scheduler ([enqueue]) and for the session's
    ([playAudio]); each entry starts no earlier than the entry before it
    ends; and with durations that are not negative the starts follow the
    call order. *)
Theorem enqueue_schedule_no_overlap (reqs : list (T * T)) (s : State T) :
  let es := specSchedule (nextStartTime s) (created s) reqs in
  started (enqueueAll reqs s) = started s ++ es
  /\ started (playAudioAll reqs s) = started s ++ es
  /\ map (@node T) es = seq (created s) (length reqs)
  /\ map (@duration T) es = map snd reqs
  /\ (forall k e1 e2,
        nth_error es k = Some e1 -> nth_error es (S k) = Some e2 ->
        tle (endAt e1) (startAt e2))
  /\ (Forall (fun r => tle tzero (snd r)) reqs ->
      forall k e1 e2,
        nth_error es k = Some e1 -> nth_error es (S k) = Some e2 ->
        tle (startAt e1) (startAt e2)).
Proof.
  intros es. repeat split.
  - apply started_enqueueAll.
  - rewrite playAudioAll_enqueueAll. apply started_enqueueAll.
  - apply specSchedule_nodes.
  - apply specSchedule_durations.
  - intros k e1 e2. apply chained_consecutive with (lo := nextStartTime s).
    apply specSchedule_chained.
  - intros Hpos k e1 e2 H1 H2.
    apply tle_trans with (endAt e1).
    + apply tadd_ge.
      pose proof (specSchedule_durations_nonneg reqs (nextStartTime s)
                    (created s) Hpos) as Hall.
      rewrite Forall_forall in Hall. apply Hall.
      now apply nth_error_In with k.
    + apply (chained_consecutive es (nextStartTime s) k e1 e2);
        [apply specSchedule_chained | exact H1 | exact H2].
Qed.

End SchedulerFacts.

(** ** Transcripts *)

Section TranscriptFacts.
Import Transcripts.

Lemma js_inj (a b : string) : js a = js b -> a = b.
Proof.
  unfold js. intros H.
  rewrite <- (string_of_list_ascii_of_string a),
          <- (string_of_list_ascii_of_string b).
  f_equal. revert H.
  generalize (list_ascii_of_string a) (list_ascii_of_string b).
  intros l. induction l as [|x l IH]; intros [|y l']; simpl; try discriminate.
  - reflexivity.
  - intros H. injection H as Hxy Hl. f_equal; [|now apply IH].
    rewrite <- (ascii_N_embedding x), <- (ascii_N_embedding y).
    now rewrite Hxy.
Qed.

Lemma string_of_uint_inj (d d' : Decimal.uint) :
  NilEmpty.string_of_uint d = NilEmpty.string_of_uint d' -> d = d'.
Proof.
  intros H. apply (f_equal NilEmpty.uint_of_string) in H.
  rewrite !NilEmpty.usu in H. now injection H.
Qed.

(** Two counter values never print as the same id. *)
Lemma transcriptId_inj (n n' : N) :
  transcriptId n = transcriptId n' -> n = n'.
Proof.
  unfold transcriptId, decimal. intros H.
  apply app_inv_head in H. apply js_inj in H.
  apply string_of_uint_inj in H. now apply DecimalN.Unsigned.to_uint_inj.
Qed.

Lemma appendHistory_app (prev toAdd : list Transcript) :
  appendHistory prev toAdd = prev ++ toAdd.
Proof.
  unfold appendHistory. destruct toAdd; simpl; [now rewrite app_nil_r | reflexivity].
Qed.

Lemma pushes_specEntries (c : N) (u m : jsstring) :
  pushIfTruthy model m (pushIfTruthy user u ([], c))
  = (specEntries c u m, (c + N.of_nat (length (specEntries c u m)))%N).
Proof.
  unfold pushIfTruthy, specEntries.
  destruct (truthy u), (truthy m); simpl;
    rewrite <- ?N.add_assoc, ?N.add_0_r; reflexivity.
Qed.

Lemma commitTurn_spec (a : Aggregator) :
  let entries := specEntries (transcriptIdCounter a)
                             (trim (userUtteranceRef a))
                             (trim (modelUtteranceRef a)) in
  commitTurn a
  = {| transcriptHistory := transcriptHistory a ++ entries;
       transcriptIdCounter :=
         (transcriptIdCounter a + N.of_nat (length entries))%N;
       userUtteranceRef := [];
       modelUtteranceRef := [] |}.
Proof.
  unfold commitTurn. rewrite pushes_specEntries, appendHistory_app. reflexivity.
Qed.

Lemma commitFinalUtterances_spec (a : Aggregator) :
  let entries := specEntries (transcriptIdCounter a)
                             (userUtteranceRef a) (modelUtteranceRef a) in
  commitFinalUtterances a
  = {| transcriptHistory := transcriptHistory a ++ entries;
       transcriptIdCounter :=
         (transcriptIdCounter a + N.of_nat (length entries))%N;
       userUtteranceRef := [];
       modelUtteranceRef := [] |}.
Proof.
  unfold commitFinalUtterances.
  rewrite pushes_specEntries, appendHistory_app. reflexivity.
Qed.

Lemma StronglySorted_snoc (ns : list N) (n : N) :
  StronglySorted N.lt ns -> Forall (fun k => (k < n)%N) ns ->
  StronglySorted N.lt (ns ++ [n]).
Proof.
  induction ns as [|k ns IH]; intros Hs Hlt; simpl.
  - constructor; constructor.
  - inversion Hs as [|? ? Hs' Hk]; subst.
    inversion Hlt as [|? ? Hkn Hlt']; subst.
    constructor; [now apply IH|].
    apply Forall_app. split; [exact Hk | constructor; [exact Hkn | constructor]].
Qed.

Lemma issued_snoc (c : N) (h : list Transcript) (t : Transcript) :
  issued c h -> id t = transcriptId (c + 1) -> issued (c + 1) (h ++ [t]).
Proof.
  intros (ns & Hids & Hsorted & Hb) Hid. exists (ns ++ [(c + 1)%N]).
  split; [|split].
  - rewrite !map_app, Hids. simpl. now rewrite Hid.
  - apply StronglySorted_snoc; [exact Hsorted|].
    eapply Forall_impl; [|exact Hb]. simpl. intros; lia.
  - apply Forall_app. split.
    + eapply Forall_impl; [|exact Hb]. simpl. intros; lia.
    + constructor; [lia | constructor].
Qed.

(** Whatever a commit appends keeps the ids issued in increasing order. *)
Lemma issued_specEntries (c : N) (h : list Transcript) (u m : jsstring) :
  issued c h ->
  issued (c + N.of_nat (length (specEntries c u m))) (h ++ specEntries c u m).
Proof.
  intros H. unfold specEntries.
  destruct (truthy u), (truthy m); simpl.
  - replace (c + 2)%N with (c + 1 + 1)%N by lia.
    change (h ++ [?x; ?y]) with (h ++ [x] ++ [y]). rewrite app_assoc.
    apply issued_snoc; [now apply issued_snoc | reflexivity].
  - now apply issued_snoc.
  - now apply issued_snoc.
  - rewrite app_nil_r, N.add_0_r. exact H.
Qed.

Lemma issued_NoDup (c : N) (h : list Transcript) :
  issued c h -> NoDup (map id h).
Proof.
  intros (ns & -> & Hsorted & _).
  induction Hsorted as [|n ns Hs IH Hlt]; simpl; constructor.
  - intros Hin. apply in_map_iff in Hin. destruct Hin as (k & Hk & Hin).
    apply transcriptId_inj in Hk. subst k.
    rewrite Forall_forall in Hlt. specialize (Hlt n Hin). lia.
  - exact IH.
Qed.

Lemma issued_init : issued 0 [].
Proof. exists []. repeat split; constructor. Qed.

End TranscriptFacts.

(** ** The realtime session *)

Section SessionFacts.
Context {T : Type} {TT : Time T}.
Import Transcripts Session.


Lemma transcripts_playInline (now d : T) (s : State T) :
  transcripts (playInline now d s) = transcripts s.
Proof.
  unfold playInline. destruct (outputAudioContextRef (handles s)) as [a|];
    [|reflexivity].
  now destruct (resumed a).
Qed.

Lemma transcripts_handleServerContent (now : T) (sc : ServerContent T)
      (s : State T) :
  transcripts (handleServerContent now sc s)
  = handleTranscription sc (transcripts s).
Proof.
  unfold handleServerContent.
  destruct (interrupted sc); cbn [setPlayback transcripts];
    (destruct (inlineData sc) as [[data d]|];
     [destruct (truthy data); [apply transcripts_playInline|] |]; reflexivity).
Qed.

Lemma transcripts_stopSession (env : StopEnv) (s : State T) :
  transcripts (stopSession env s) = commitFinalUtterances (transcripts s).
Proof.
  unfold stopSession.
  destruct (closeContext (inputCloseRejects env) _),
           (closeContext (outputCloseRejects env) _). reflexivity.
Qed.

Lemma transcripts_startSession (env : StartEnv) (s : State T) :
  transcripts (startSession env s) = Transcripts.init.
Proof.
  unfold startSession. destruct (resumed _) as [out e1].
  destruct (userMedia env); [reflexivity|].
  rewrite transcripts_stopSession. reflexivity.
Qed.

Lemma handleTranscription_turnComplete (sc : ServerContent T) (a : Aggregator) :
  turnComplete sc = true ->
  let entries := specEntries (transcriptIdCounter a)
                             (trim (bufferedUser sc a))
                             (trim (bufferedModel sc a)) in
  handleTranscription sc a
  = {| transcriptHistory := transcriptHistory a ++ entries;
       transcriptIdCounter :=
         (transcriptIdCounter a + N.of_nat (length entries))%N;
       userUtteranceRef := [];
       modelUtteranceRef := [] |}.
Proof.
  intros Htc. unfold handleTranscription, bufferedUser, bufferedModel.
  rewrite Htc, commitTurn_spec.
  destruct (inputTranscription sc), (outputTranscription sc); reflexivity.
Qed.

Lemma handleTranscription_pending (sc : ServerContent T) (a : Aggregator) :
  turnComplete sc = false ->
  transcriptHistory (handleTranscription sc a) = transcriptHistory a
  /\ transcriptIdCounter (handleTranscription sc a) = transcriptIdCounter a.
Proof.
  intros Htc. unfold handleTranscription. rewrite Htc.
  destruct (inputTranscription sc), (outputTranscription sc); split; reflexivity.
Qed.

Lemma transcripts_onmessage (now : T) (m : Message T) (s : State T) :
  transcripts (onmessage now m s)
  = if thrown (toolCalls m s) then transcripts s
    else match serverContent m with
         | Some sc => handleTranscription sc (transcripts s)
         | None => transcripts s
         end.
Proof.
  unfold onmessage. cbn [emit transcripts].
  destruct (thrown (toolCalls m s)); [reflexivity|].
  destruct (serverContent m);
    [now rewrite transcripts_handleServerContent | reflexivity].
Qed.

Lemma isName_true (name : option jsstring) (n : jsstring) :
  isName name n = true -> name = Some n.
Proof.
  unfold isName. destruct name as [x|]; [|discriminate].
  destruct (list_eq_dec N.eq_dec x n); [now subst | discriminate].
Qed.

Lemma guard_hasArgs (fc : FunctionCall) :
  (fcName fc = Some addToScratchpadName -> fcArgs fc <> None) ->
  guard fc <> TypeError.
Proof.
  intros H. unfold guard.
  destruct (isName (fcName fc) addToScratchpadName) eqn:E; [|discriminate].
  apply isName_true in E. specialize (H E).
  destruct (fcArgs fc) as [[c|]|]; try discriminate; [|congruence].
  destruct (truthy c); discriminate.
Qed.

Lemma thrown_callsHaveArgs (session : option nat) (fcs : list FunctionCall) :
  callsHaveArgs fcs -> thrown (toolCallLoop session fcs) = false.
Proof.
  induction 1 as [|fc fcs Hfc _ IH]; [reflexivity|].
  cbn [toolCallLoop]. pose proof (guard_hasArgs fc Hfc) as Hg.
  destruct (guard fc); [exact IH | exact IH | congruence].
Qed.

Lemma thrown_messageHasArgs (m : Message T) (s : State T) :
  messageHasArgs m -> thrown (toolCalls m s) = false.
Proof.
  unfold messageHasArgs, toolCalls. destruct (functionCalls m);
    [apply thrown_callsHaveArgs | reflexivity].
Qed.

(** X22.  A message that carries a turn-complete marker, and no call named
    [addToScratchpad] without arguments, commits the turn.  The two buffers
    (with the transcription text of the same message, which is appended
    first) are stripped of the white space at their two ends; the history
    grows by one entry per stripped text that is not empty, the user's
    before the model's, with the next values of the id counter; both
    buffers end empty.  With only the model's text left, the one entry
    appended is the model's. *)
Theorem turn_complete_commits (now : T) (m : Message T) (sc : ServerContent T)
        (s : State T) :
  messageHasArgs m -> serverContent m = Some sc -> turnComplete sc = true ->
  let a := transcripts s in
  let a' := transcripts (onmessage now m s) in
  let c := transcriptIdCounter a in
  exists u mo,
    stripped (bufferedUser sc a) u /\ stripped (bufferedModel sc a) mo
    /\ transcriptHistory a' = transcriptHistory a ++ specEntries c u mo
    /\ transcriptIdCounter a' = (c + N.of_nat (length (specEntries c u mo)))%N
    /\ userUtteranceRef a' = [] /\ modelUtteranceRef a' = []
    /\ (u <> [] -> mo <> [] ->
        specEntries c u mo
        = [{| id := transcriptId (c + 1); text := u; source := user |};
           {| id := transcriptId (c + 2); text := mo; source := model |}])
    /\ (u = [] -> mo <> [] ->
        specEntries c u mo
        = [{| id := transcriptId (c + 1); text := mo; source := model |}])
    /\ (u <> [] -> mo = [] ->
        specEntries c u mo
        = [{| id := transcriptId (c + 1); text := u; source := user |}])
    /\ (u = [] -> mo = [] -> specEntries c u mo = []).
Proof.
  intros Hargs Hsc Htc a a' c.
  exists (trim (bufferedUser sc a)), (trim (bufferedModel sc a)).
  split; [apply trim_stripped|]. split; [apply trim_stripped|].
  set (u := trim (bufferedUser sc a)). set (mo := trim (bufferedModel sc a)).
  assert (Ha' : a' = {| transcriptHistory :=
                          transcriptHistory a ++ specEntries c u mo;
                        transcriptIdCounter :=
                          (c + N.of_nat (length (specEntries c u mo)))%N;
                        userUtteranceRef := [];
                        modelUtteranceRef := [] |}).
  { unfold a'. rewrite transcripts_onmessage.
    rewrite (thrown_messageHasArgs m s Hargs), Hsc.
    now rewrite (handleTranscription_turnComplete sc (transcripts s) Htc). }
  rewrite Ha'. cbn [transcriptHistory transcriptIdCounter userUtteranceRef
                    modelUtteranceRef].
  clearbody u mo c. clear Ha'.
  repeat split; unfold specEntries;
    destruct u, mo; simpl; intros; congruence.
Qed.

Lemma commitFinal_twice (a : Aggregator) :
  commitFinalUtterances (commitFinalUtterances a) = commitFinalUtterances a.
Proof.
  rewrite !commitFinalUtterances_spec. cbn.
  now rewrite app_nil_r, N.add_0_r.
Qed.

Lemma in_closeContext (rejects : bool) (c : option AudioContext)
      (a : AudioContext) :
  c = Some a -> state a <> closed ->
  In (if rejects then ConsoleError else ContextClose (ctx a))
     (snd (closeContext rejects c)).
Proof.
  intros -> Hst. unfold closeContext.
  destruct (state a); [| |congruence]; destruct rejects; now left.
Qed.

Lemma closeContext_only (rejects : bool) (c : option AudioContext)
      (x : Effect) :
  In x (snd (closeContext rejects c)) ->
  x = ConsoleError
  \/ exists a, c = Some a /\ x = ContextClose (ctx a) /\ state a <> closed.
Proof.
  unfold closeContext. destruct c as [a|]; [|intros []].
  destruct (state a) eqn:E; [| |intros []]; destruct rejects; cbn;
    intros [<-|[]]; auto; right; exists a; rewrite E;
    repeat split; discriminate.
Qed.

(** What [stopSession] calls: all that it owes to what is held, and
    nothing else. *)
Lemma stopSession_effects (env : StopEnv) (s : State T) :
  exists new,
    effects (stopSession env s) = effects s ++ new
    /\ releasesHeld env (handles s) new
    /\ closesContexts env (handles s) new
    /\ onlyHeld (handles s) new.
Proof.
  unfold stopSession.
  pose proof (in_closeContext (inputCloseRejects env)
                (inputAudioContextRef (handles s))) as H5.
  pose proof (in_closeContext (outputCloseRejects env)
                (outputAudioContextRef (handles s))) as H6.
  pose proof (closeContext_only (inputCloseRejects env)
                (inputAudioContextRef (handles s))) as O5.
  pose proof (closeContext_only (outputCloseRejects env)
                (outputAudioContextRef (handles s))) as O6.
  destruct (closeContext (inputCloseRejects env) _) as [ic e5],
           (closeContext (outputCloseRejects env) _) as [oc e6].
  cbn [snd] in H5, H6, O5, O6. cbn [effects]. eexists.
  split; [reflexivity|]. split; [|split].
  - repeat split; intros n Hn; rewrite Hn; rewrite !in_app_iff; cbn.
    + destruct (sessionCloseFails env); cbn; auto.
    + auto.
    + auto.
    + auto 6.
  - split; intros a Ha Hst; rewrite !in_app_iff.
    + right; right; right; right; left. now apply H5.
    + right; right; right; right; right. now apply H6.
  - intros x Hx. rewrite !in_app_iff in Hx.
    destruct Hx as [Hx|[Hx|[Hx|[Hx|[Hx|Hx]]]]].
    + unfold closeSession in Hx.
      destruct (sessionPromiseRef (handles s)); [|destruct Hx].
      destruct (sessionCloseFails env); destruct Hx as [<-|[]];
        cbn; reflexivity.
    + destruct (mediaStreamRef (handles s)); cbn in Hx; [|destruct Hx].
      destruct Hx as [<-|[]]. reflexivity.
    + destruct (scriptProcessorRef (handles s)); cbn in Hx; [|destruct Hx].
      destruct Hx as [<-|[]]. now left.
    + destruct (sourceNodeRef (handles s)); cbn in Hx; [|destruct Hx].
      destruct Hx as [<-|[]]. now right.
    + destruct (O5 x Hx) as [->|(a & Ha & -> & Hst)]; [exact I|].
      exists a. auto.
    + destruct (O6 x Hx) as [->|(a & Ha & -> & Hst)]; [exact I|].
      exists a. auto.
Qed.

Lemma stopSession_fields (env : StopEnv) (s : State T) :
  released (handles (stopSession env s))
  /\ isConnecting (stopSession env s) = false
  /\ isConnected (stopSession env s) = false
  /\ playback (stopSession env s) = Scheduler.stopAll (playback s)
  /\ audioLevelRef (stopSession env s) = tzero.
Proof.
  unfold stopSession.
  destruct (closeContext (inputCloseRejects env) _) as [ic e5],
           (closeContext (outputCloseRejects env) _) as [oc e6].
  cbn. unfold released. cbn. repeat split.
Qed.

Lemma released_onlyHeld (h : Handles) (new : list Effect) :
  released h -> onlyHeld h new ->
  Forall (fun x => releasesHandle x = false) new.
Proof.
  intros (H1 & H2 & H3 & H4) Ho. apply Forall_forall. intros x Hx.
  specialize (Ho x Hx). destruct x; cbn in *; try reflexivity;
    try congruence. destruct Ho; congruence.
Qed.

Lemma stopAll_twice (p : Scheduler.State T) :
  Scheduler.stopAll (Scheduler.stopAll p) = Scheduler.stopAll p.
Proof. unfold Scheduler.stopAll. cbn. now rewrite app_nil_r. Qed.

Lemma stopSession_twice (env1 env2 : StopEnv) (s : State T) :
  inputCloseRejects env1 = false -> outputCloseRejects env1 = false ->
  stopSession env2 (stopSession env1 s) = stopSession env1 s.
Proof.
  intros H1 H2. unfold stopSession. rewrite H1, H2.
  destruct (inputAudioContextRef (handles s)) as [[ic []]|];
    destruct (outputAudioContextRef (handles s)) as [[oc []]|];
    cbn -[commitFinalUtterances Scheduler.stopAll app];
    rewrite commitFinal_twice, stopAll_twice, ?app_nil_r; reflexivity.
Qed.

(** C6.  [stopSession] is a total function of the state, whichever of the
    calls it awaits fail.  From any state it leaves the session promise,
    the media stream, the script processor and the source node null, and
    it has made the calls that release those it held: the session was
    closed (or the failure of that logged), the stream stopped, both nodes
    disconnected, each context not closed yet closed, and nothing was
    called on what it did not hold.  No entry is left playing (each one
    was stopped), the scheduler clock and the loudness level are zero, and
    the session is neither connecting nor connected.  A second call gives
    nothing back again and changes neither the handles listed, nor the
    transcripts, nor the scheduler; it changes nothing at all when the
    first one closed both contexts.  Before any start, [stopSession]
    changes nothing either. *)
Theorem stop_is_idempotent (env1 env2 : StopEnv) (s : State T) :
  let s1 := stopSession env1 s in
  let s2 := stopSession env2 s1 in
  (released (handles s1)
   /\ isConnecting s1 = false /\ isConnected s1 = false
   /\ Scheduler.activeEntries (playback s1) = []
   /\ Scheduler.nextStartTime (playback s1) = tzero
   /\ audioLevelRef s1 = tzero
   /\ Scheduler.nodeCalls (playback s1)
      = Scheduler.nodeCalls (playback s)
        ++ map (fun e => Scheduler.Stop (Scheduler.node e))
               (Scheduler.activeEntries (playback s))
   /\ exists new,
        effects s1 = effects s ++ new
        /\ releasesHeld env1 (handles s) new
        /\ closesContexts env1 (handles s) new
        /\ onlyHeld (handles s) new)
  /\ (released (handles s2)
      /\ isConnecting s2 = false /\ isConnected s2 = false
      /\ Scheduler.activeEntries (playback s2) = []
      /\ Scheduler.nextStartTime (playback s2) = tzero
      /\ audioLevelRef s2 = tzero
      /\ (exists new,
            effects s2 = effects s1 ++ new
            /\ Forall (fun x => releasesHandle x = false) new)
      /\ transcripts s2 = transcripts s1
      /\ playback s2 = playback s1)
  /\ (inputCloseRejects env1 = false -> outputCloseRejects env1 = false ->
      s2 = s1)
  /\ stopSession env1 init = init.
Proof.
  intros s1 s2.
  destruct (stopSession_fields env1 s) as (Hr1 & Hc1 & Hd1 & Hp1 & Hl1).
  destruct (stopSession_fields env2 s1) as (Hr2 & Hc2 & Hd2 & Hp2 & Hl2).
  fold s1 in Hr1, Hc1, Hd1, Hp1, Hl1.
  fold s2 in Hr2, Hc2, Hd2, Hp2, Hl2.
  split; [|split; [|split]].
  - rewrite Hp1. repeat split; try assumption; try apply Hr1.
    apply stopSession_effects.
  - rewrite Hp2, Hp1, stopAll_twice. repeat split; try assumption; try apply Hr2.
    + destruct (stopSession_effects env2 s1) as (new & He & _ & _ & Ho).
      exists new. split; [exact He|]. now apply released_onlyHeld with (h := handles s1).
    + unfold s2, s1. rewrite !transcripts_stopSession. apply commitFinal_twice.
  - apply stopSession_twice.
  - reflexivity.
Qed.

Lemma extends_same (a a' : Aggregator) :
  transcriptHistory a' = transcriptHistory a ->
  transcriptIdCounter a' = transcriptIdCounter a ->
  extends a a'.
Proof.
  intros Hh Hc. exists [], []. cbn. now rewrite app_nil_r, N.add_0_r.
Qed.

Lemma extends_commitFinal (a : Aggregator) :
  extends a (commitFinalUtterances a).
Proof.
  exists (userUtteranceRef a), (modelUtteranceRef a).
  rewrite commitFinalUtterances_spec. split; reflexivity.
Qed.

Lemma extends_handleTranscription (sc : ServerContent T) (a : Aggregator) :
  extends a (handleTranscription sc a).
Proof.
  destruct (turnComplete sc) eqn:Htc.
  - exists (trim (bufferedUser sc a)), (trim (bufferedModel sc a)).
    rewrite (handleTranscription_turnComplete sc a Htc). split; reflexivity.
  - destruct (handleTranscription_pending sc a Htc) as [Hh Hc].
    now apply extends_same.
Qed.

Lemma step_extends (s : State T) (e : Event T) :
  isStart e = false -> extends (transcripts s) (transcripts (step s e)).
Proof.
  destruct e as [env | env | n1 n2 | now m | msg env | env | level data | n];
    cbn [isStart step]; intros Hs; try discriminate.
  - rewrite transcripts_stopSession. apply extends_commitFinal.
  - now apply extends_same.
  - rewrite transcripts_onmessage.
    destruct (thrown (toolCalls m s)); [now apply extends_same|].
    destruct (serverContent m) as [sc|].
    + apply extends_handleTranscription.
    + now apply extends_same.
  - unfold onerror. rewrite transcripts_stopSession. apply extends_commitFinal.
  - rewrite transcripts_stopSession. apply extends_commitFinal.
  - now apply extends_same.
  - now apply extends_same.
Qed.

Lemma specEntries_ids (c : N) (u m : jsstring) :
  map id (specEntries c u m)
  = map (fun k => transcriptId (c + 1 + N.of_nat k))
        (seq 0 (length (specEntries c u m))).
Proof.
  unfold specEntries. destruct (truthy u), (truthy m); cbn;
    rewrite ?N.add_0_r; try reflexivity.
  replace (c + 1 + 1)%N with (c + 2)%N by lia. reflexivity.
Qed.

Lemma issued_step (s : State T) (e : Event T) :
  issued (transcriptIdCounter (transcripts s))
         (transcriptHistory (transcripts s)) ->
  issued (transcriptIdCounter (transcripts (step s e)))
         (transcriptHistory (transcripts (step s e))).
Proof.
  intros H. destruct (isStart e) eqn:Hs.
  - destruct e; try discriminate. cbn [step].
    rewrite transcripts_startSession. apply issued_init.
  - destruct (step_extends s e Hs) as (u & m & -> & ->).
    now apply issued_specEntries.
Qed.

Lemma issued_run (es : list (Event T)) :
  forall s,
    issued (transcriptIdCounter (transcripts s))
           (transcriptHistory (transcripts s)) ->
    issued (transcriptIdCounter (transcripts (run s es)))
           (transcriptHistory (transcripts (run s es))).
Proof.
  induction es as [|e es IH]; intros s H; [exact H|].
  cbn [run fold_left]. apply IH. now apply issued_step.
Qed.

(** C9.  In every state the hook reaches, the ids of the history are those
    of a strictly increasing run of counter values, none past the counter,
    so no id occurs twice.  An event other than a start leaves the history
    as it was or appends to it: the entries appended carry the counter
    values that follow the current one, and the counter moves past them.
    A start leaves an empty history and the counter at zero. *)
Theorem transcript_ids_and_history :
  (forall es : list (Event T),
      let a := transcripts (run init es) in
      issued (transcriptIdCounter a) (transcriptHistory a)
      /\ NoDup (map id (transcriptHistory a)))
  /\ (forall (s : State T) (e : Event T),
        let a := transcripts s in
        let a' := transcripts (step s e) in
        if isStart e
        then transcriptHistory a' = [] /\ transcriptIdCounter a' = 0%N
        else exists new,
            transcriptHistory a' = transcriptHistory a ++ new
            /\ transcriptIdCounter a'
               = (transcriptIdCounter a + N.of_nat (length new))%N
            /\ map id new
               = map (fun k => transcriptId (transcriptIdCounter a + 1 + N.of_nat k))
                     (seq 0 (length new))).
Proof.
  split.
  - intros es a.
    assert (H : issued (transcriptIdCounter a) (transcriptHistory a)).
    { apply issued_run. apply issued_init. }
    split; [exact H | now apply issued_NoDup with (c := transcriptIdCounter a)].
  - intros s e a a'. destruct (isStart e) eqn:Hs.
    + destruct e; try discriminate. unfold a'. cbn [step].
      now rewrite transcripts_startSession.
    + destruct (step_extends s e Hs) as (u & m & Hh & Hc).
      exists (specEntries (transcriptIdCounter a) u m).
      split; [exact Hh | split; [exact Hc | apply specEntries_ids]].
Qed.

(** Tool calls *)

Lemma effects_handleServerContent (now : T) (sc : ServerContent T)
      (s : State T) :
  exists after,
    effects (handleServerContent now sc s) = effects s ++ after
    /\ Forall (fun x => exists c, x = ContextResume c) after.
Proof.
  unfold handleServerContent.
  assert (Hplay : forall d st,
             exists after,
               effects (playInline now d st) = effects st ++ after
               /\ Forall (fun x => exists c, x = ContextResume c) after).
  { intros d st. unfold playInline.
    destruct (outputAudioContextRef (handles st)) as [a|].
    - unfold resumed. destruct (state a); cbn [effects]; eexists;
        (split; [reflexivity|]); repeat constructor.
      eexists; reflexivity.
    - exists []. split; [now rewrite app_nil_r | constructor]. }
  assert (Hnone : exists after,
             effects s = effects s ++ after
             /\ Forall (fun x => exists c, x = ContextResume c) after).
  { exists []. split; [now rewrite app_nil_r | constructor]. }
  destruct (inlineData sc) as [[data d]|].
  - destruct (truthy data).
    + destruct (Hplay d (setTranscripts (handleTranscription sc (transcripts s)) s))
        as [after Hafter].
      exists after. destruct (interrupted sc); exact Hafter.
    + destruct (interrupted sc); exact Hnone.
  - destruct (interrupted sc); exact Hnone.
Qed.

Lemma isName_refl (n : jsstring) : isName (Some n) n = true.
Proof. unfold isName. now destruct (list_eq_dec N.eq_dec n n). Qed.

Lemma calls_callbacks (session : option nat) (fcs : list FunctionCall) :
  Forall (fun x => isCallback x = true)
         (callbacks (toolCallLoop session fcs)).
Proof.
  induction fcs as [|fc fcs IH]; [constructor|]. cbn [toolCallLoop].
  destruct (guard fc); cbn [callbacks]; [|exact IH|constructor].
  constructor; [reflexivity | exact IH].
Qed.

Lemma calls_acknowledgments (session : option nat) (fcs : list FunctionCall) :
  Forall (fun x => isToolResponse x = true)
         (acknowledgments (toolCallLoop session fcs)).
Proof.
  induction fcs as [|fc fcs IH]; [constructor|]. cbn [toolCallLoop].
  destruct (guard fc); cbn [acknowledgments]; [|exact IH|constructor].
  apply Forall_app. split; [|exact IH].
  destruct session; repeat constructor.
Qed.

Lemma calls_unheard (fcs : list FunctionCall) :
  acknowledgments (toolCallLoop None fcs) = [].
Proof.
  induction fcs as [|fc fcs IH]; [reflexivity|]. cbn [toolCallLoop].
  destruct (guard fc); cbn [acknowledgments release app];
    [exact IH | exact IH | reflexivity].
Qed.

Lemma calls_app (session : option nat) (l1 l2 : list FunctionCall) :
  callsHaveArgs l1 ->
  callbacks (toolCallLoop session (l1 ++ l2))
  = callbacks (toolCallLoop session l1) ++ callbacks (toolCallLoop session l2)
  /\ acknowledgments (toolCallLoop session (l1 ++ l2))
     = acknowledgments (toolCallLoop session l1)
       ++ acknowledgments (toolCallLoop session l2)
  /\ thrown (toolCallLoop session (l1 ++ l2))
     = thrown (toolCallLoop session l2).
Proof.
  induction 1 as [|fc l1 Hfc _ (IH1 & IH2 & IH3)]; [now repeat split|].
  cbn [app toolCallLoop]. pose proof (guard_hasArgs fc Hfc) as Hg.
  destruct (guard fc); [|now repeat split|congruence].
  cbn [callbacks acknowledgments thrown].
  rewrite IH1, IH2, IH3, <- app_assoc. now repeat split.
Qed.

Lemma calls_skip (session : option nat) (l1 l2 : list FunctionCall)
      (fc : FunctionCall) :
  guard fc = Skip ->
  toolCallLoop session (l1 ++ fc :: l2) = toolCallLoop session (l1 ++ l2).
Proof.
  intros Hfc. induction l1 as [|x l1 IH]; cbn [app toolCallLoop].
  - now rewrite Hfc.
  - destruct (guard x); [now rewrite IH | exact IH | reflexivity].
Qed.

(** The calls a message makes: the callbacks of the loop, what the rest
    of the handler calls (a resume of the output context at most), and
    then the acknowledgments. *)
Lemma effects_onmessage (now : T) (m : Message T) (s : State T) :
  exists mid,
    effects (onmessage now m s)
    = effects s ++ callbacks (toolCalls m s) ++ mid
      ++ acknowledgments (toolCalls m s)
    /\ Forall (fun x => exists c, x = ContextResume c) mid.
Proof.
  unfold onmessage. cbv zeta. cbn [emit effects].
  destruct (thrown (toolCalls m s)).
  - exists []. cbn [emit effects app]. split; [|constructor].
    now rewrite <- app_assoc.
  - destruct (serverContent m) as [sc|].
    + destruct (effects_handleServerContent now sc
                  (emit (callbacks (toolCalls m s)) s)) as (mid & -> & Hmid).
      exists mid. cbn [emit effects]. split; [|exact Hmid].
      now rewrite <- !app_assoc.
    + exists []. cbn [emit effects app]. split; [|constructor].
      now rewrite <- app_assoc.
Qed.

(** C8, as the code has it.  Take a function call named [addToScratchpad]
    in a message in which no earlier call of that name comes without
    arguments.  If its content is a string that is not empty, the
    scratchpad callback is called with that content; the acknowledgments of
    the message come after all of its callbacks, and the tool response with
    the id and the name of the call is among them when the session promise
    is held, while none is sent when it is not.  If its content is the
    empty string the call is passed over: the message does what it would
    do without it. *)
Theorem tool_call_acknowledged (now : T) (m : Message T) (s : State T)
        (l1 l2 : list FunctionCall) (fc : FunctionCall) (content : jsstring) :
  functionCalls m = Some (l1 ++ fc :: l2) ->
  callsHaveArgs l1 ->
  fcName fc = Some addToScratchpadName ->
  fcArgs fc = Some (Some content) ->
  (content <> [] ->
   exists cbs mid acks,
     effects (onmessage now m s) = effects s ++ cbs ++ mid ++ acks
     /\ In (AddToScratchpad content) cbs
     /\ Forall (fun x => isCallback x = true) cbs
     /\ Forall (fun x => isCallback x = false /\ isToolResponse x = false) mid
     /\ Forall (fun x => isToolResponse x = true) acks
     /\ match sessionPromiseRef (handles s) with
        | Some session =>
            In (SendToolResponse session (fcId fc) (fcName fc)
                                 (js "ok, content added.")) acks
        | None => acks = []
        end)
  /\ (content = [] ->
      forall m' : Message T,
        functionCalls m' = Some (l1 ++ l2) ->
        serverContent m' = serverContent m ->
        onmessage now m' s = onmessage now m s).
Proof.
  intros Hm Hl1 Hname Hargs. split.
  - intros Hne.
    assert (Hg : guard fc = Enter content).
    { unfold guard. rewrite Hname, isName_refl, Hargs.
      now rewrite (truthy_nonempty content Hne). }
    destruct (effects_onmessage now m s) as (mid & He & Hmid).
    exists (callbacks (toolCalls m s)), mid, (acknowledgments (toolCalls m s)).
    split; [exact He|].
    assert (Hr : toolCalls m s
                 = toolCallLoop (sessionPromiseRef (handles s))
                                (l1 ++ fc :: l2)).
    { unfold toolCalls. now rewrite Hm. }
    destruct (calls_app (sessionPromiseRef (handles s)) l1 (fc :: l2) Hl1)
      as (Hc & Ha & _).
    cbn [toolCallLoop] in Hc, Ha. rewrite Hg in Hc, Ha.
    cbn [callbacks acknowledgments] in Hc, Ha.
    rewrite Hr. split; [|split; [apply calls_callbacks|split; [|split]]].
    + rewrite Hc. apply in_or_app. right. now left.
    + eapply Forall_impl; [|exact Hmid]. intros x [c ->]. now split.
    + apply calls_acknowledgments.
    + destruct (sessionPromiseRef (handles s)) as [session|].
      * rewrite Ha. apply in_or_app. right. now left.
      * apply calls_unheard.
  - intros -> m' Hm' Hsc.
    assert (Hg : guard fc = Skip).
    { unfold guard. now rewrite Hname, isName_refl, Hargs. }
    unfold onmessage, toolCalls. rewrite Hm', Hm, Hsc.
    now rewrite (calls_skip _ l1 l2 fc Hg).
Qed.

End SessionFacts.

(** ** The session on concrete inputs *)

Section SessionExamples.
Import Transcripts Session Examples.

(** The turn of the specification: two entries, the user's first. *)
Example turn_commit_ordering :
  transcriptHistory (transcripts (onmessage 2%Q turnCompleteMessage midTurn))
  = [{| id := js "t_1"; text := js "What's the total?"; source := user |};
     {| id := js "t_2"; text := js "It's 42."; source := model |}].
Proof. reflexivity. Qed.

Example turn_commit_model_only :
  transcriptHistory (transcripts (onmessage 2%Q turnCompleteMessage modelOnly))
  = [{| id := js "t_1"; text := js "It's 42."; source := model |}].
Proof. reflexivity. Qed.

Lemma turn_complete_commits_witness :
  messageHasArgs (turnCompleteMessage (T := Q))
  /\ serverContent (turnCompleteMessage (T := Q)) = Some marker
  /\ turnComplete marker = true
  /\ modelUtteranceRef (transcripts midTurn) = js " It's 42. "
  /\ transcriptHistory (transcripts (onmessage 2%Q turnCompleteMessage midTurn))
     = [{| id := js "t_1"; text := js "What's the total?"; source := user |};
        {| id := js "t_2"; text := js "It's 42."; source := model |}]
  /\ (let a := transcripts midTurn in
      let a' := transcripts (onmessage 2%Q turnCompleteMessage midTurn) in
      let c := transcriptIdCounter a in
      exists u mo,
        stripped (bufferedUser marker a) u
        /\ stripped (bufferedModel marker a) mo
        /\ transcriptHistory a' = transcriptHistory a ++ specEntries c u mo
        /\ transcriptIdCounter a'
           = (c + N.of_nat (length (specEntries c u mo)))%N
        /\ userUtteranceRef a' = [] /\ modelUtteranceRef a' = []
        /\ (u <> [] -> mo <> [] ->
            specEntries c u mo
            = [{| id := transcriptId (c + 1); text := u; source := user |};
               {| id := transcriptId (c + 2); text := mo; source := model |}])
        /\ (u = [] -> mo <> [] ->
            specEntries c u mo
            = [{| id := transcriptId (c + 1); text := mo; source := model |}])
        /\ (u <> [] -> mo = [] ->
            specEntries c u mo
            = [{| id := transcriptId (c + 1); text := u; source := user |}])
        /\ (u = [] -> mo = [] -> specEntries c u mo = [])).
Proof.
  split; [exact I|]. split; [reflexivity|]. split; [reflexivity|].
  split; [reflexivity|]. split; [reflexivity|].
  apply (turn_complete_commits 2%Q turnCompleteMessage marker midTurn);
    [exact I | reflexivity | reflexivity].
Defined.


(** Teardown of a live session: what is released, and in which order. *)
Example stop_live_session :
  effects (stopSession stopEnv live)
  = [SessionClose 3; TrackStop 7; Disconnect 5; Disconnect 4;
     ContextClose 2; ContextClose 1]
  /\ stopSession stopEnv (stopSession stopEnv live) = stopSession stopEnv live.
Proof. split; reflexivity. Qed.

(** Two buffers of one and two seconds, the second enqueued while the first
    still plays: it starts when the first ends. *)
Example enqueue_back_to_back :
  Scheduler.started
    (Scheduler.enqueueAll [(0%Q, 1%Q); ((1 # 2)%Q, 2%Q)] Scheduler.init)
  = [{| Scheduler.node := 0; Scheduler.startAt := Qmax 0 0;
        Scheduler.duration := 1%Q |};
     {| Scheduler.node := 1; Scheduler.startAt := Qmax (Qmax 0 0 + 1) (1 # 2);
        Scheduler.duration := 2%Q |}]
  /\ (Qmax (Qmax 0 0 + 1) (1 # 2) == 1)%Q.
Proof. split; reflexivity. Qed.

(** C5 on the code.  The session ends with a single space in the user's
    buffer: [stopSession] appends an entry whose text is that space, where
    the turn-complete commit of the same state appends nothing. *)
Theorem stop_commits_blank_buffer :
  userUtteranceRef (transcripts blankUser) = js " "
  /\ trim (js " ") = []
  /\ transcriptHistory (transcripts (stopSession stopEnv blankUser))
     = [{| id := js "t_1"; text := js " "; source := user |}]
  /\ transcriptHistory (transcripts (onmessage 1%Q turnCompleteMessage blankUser))
     = [].
Proof. repeat split. Qed.

(** C8 as stated fails: a call named [addToScratchpad] whose content is the
    empty string, received on a live session, reaches neither the callback
    nor the channel.  A call with content that arrives once the session
    promise has been dropped reaches the callback, but no response is
    sent.  And a call with content that follows, in its message, a call of
    that name without arguments is never reached. *)
Lemma tool_call_empty_content_ignored :
  (fcName emptyCall = Some addToScratchpadName
   /\ fcArgs emptyCall = Some (Some [])
   /\ sessionPromiseRef (handles live) = Some 3
   /\ effects live = []
   /\ effects (onmessage 0%Q (calling [emptyCall]) live) = [])
  /\ (sessionPromiseRef (handles (stopSession stopEnv live)) = None
      /\ effects (onmessage 0%Q (calling [noteCall])
                            (stopSession stopEnv live))
         = effects (stopSession stopEnv live) ++ [AddToScratchpad (js "42")])
  /\ (fcName bareCall = Some addToScratchpadName /\ fcArgs bareCall = None
      /\ effects (onmessage 0%Q (calling [bareCall; noteCall]) live) = []).
Proof. repeat split. Qed.

Lemma tool_call_acknowledged_witness :
  functionCalls (calling [noteCall; secondCall])
  = Some ([noteCall] ++ secondCall :: [])
  /\ callsHaveArgs [noteCall]
  /\ fcName secondCall = Some addToScratchpadName
  /\ fcArgs secondCall = Some (Some (js "7"))
  /\ effects (onmessage 0%Q (calling [noteCall; secondCall]) live)
     = [AddToScratchpad (js "42"); AddToScratchpad (js "7");
        SendToolResponse 3 (Some (js "call-2")) (Some addToScratchpadName)
                         (js "ok, content added.");
        SendToolResponse 3 (Some (js "call-3")) (Some addToScratchpadName)
                         (js "ok, content added.")]
  /\ (js "7" <> [] ->
      exists cbs mid acks,
        effects (onmessage 0%Q (calling [noteCall; secondCall]) live)
        = effects live ++ cbs ++ mid ++ acks
        /\ In (AddToScratchpad (js "7")) cbs
        /\ Forall (fun x => isCallback x = true) cbs
        /\ Forall (fun x => isCallback x = false /\ isToolResponse x = false)
                  mid
        /\ Forall (fun x => isToolResponse x = true) acks
        /\ match sessionPromiseRef (handles live) with
           | Some session =>
               In (SendToolResponse session (fcId secondCall)
                                    (fcName secondCall)
                                    (js "ok, content added.")) acks
           | None => acks = []
           end)
  /\ (js "7" = [] ->
      forall m' : Message Q,
        functionCalls m' = Some ([noteCall] ++ []) ->
        serverContent m' = serverContent (calling [noteCall; secondCall]) ->
        onmessage 0%Q m' live
        = onmessage 0%Q (calling [noteCall; secondCall]) live).
Proof.
  split; [reflexivity|].
  split; [constructor; [discriminate | constructor]|].
  split; [reflexivity|]. split; [reflexivity|]. split; [reflexivity|].
  apply (tool_call_acknowledged 0%Q (calling [noteCall; secondCall]) live
           [noteCall] [] secondCall (js "7"));
    [reflexivity | constructor; [discriminate | constructor]
     | reflexivity | reflexivity].
Defined.

End SessionExamples.

(** ** The text-to-speech pipeline *)

Section TtsFacts.
Context {T : Type} {TT : Time T}.
Import Tts.

Lemma started_stopAll (p : Scheduler.State T) :
  Scheduler.started (Scheduler.stopAll p) = Scheduler.started p.
Proof.
  unfold Scheduler.started, Scheduler.stopAll. cbn.
  rewrite flat_map_app.
  assert (H : forall es : list (Scheduler.PlaybackEntry T),
             flat_map (fun c : Scheduler.NodeCall T =>
                         match c with
                         | Scheduler.Start e => [e]
                         | Scheduler.Stop _ => []
                         end)
                      (map (fun e => Scheduler.Stop (Scheduler.node e)) es)
             = []).
  { induction es as [|e es IH]; [reflexivity | exact IH]. }
  now rewrite H, app_nil_r.
Qed.

Lemma takeRun_single (rid : nat) (rs : list (Run T)) (r : Run T)
      (others : list (Run T)) :
  length rs <= 1 -> takeRun rid rs = Some (r, others) -> others = [].
Proof.
  destruct rs as [|x [|y rs]]; simpl; intros Hlen H; try lia.
  - discriminate.
  - destruct (runId x =? rid); [now injection H as _ <- | discriminate].
Qed.

Lemma nextChunk_cancelled (rid : nat) (first : bool) (chunks : list jsstring)
      (s : State T) :
  isCancelledRef s = true ->
  nextChunk rid first chunks s = stopTtsPlayback s.
Proof.
  intros Hc. unfold nextChunk, afterLoop.
  destruct chunks; now rewrite Hc.
Qed.

Lemma afterLoop_cancelled (hasFailed : bool) (s : State T) :
  isCancelledRef s = true ->
  afterLoop hasFailed s = stopTtsPlayback (if hasFailed then alert s else s).
Proof. intros Hc. unfold afterLoop. now rewrite Hc, orb_true_r. Qed.

(** Once cancelled, and with at most one run suspended, whatever settles
    issues no request, enqueues nothing that was not already decoding,
    raises the notice only for a failure, and leaves the pipeline
    cancelled. *)
Lemma cancelled_step (s : State T) (e : Event T) :
  cancelled s -> settles e = true ->
  cancelled (step s e)
  /\ requests (step s e) = requests s
  /\ (synthesisFailed e = false -> alerts (step s e) = alerts s)
  /\ (decodes e = false ->
      Scheduler.started (playback (step s e)) = Scheduler.started (playback s)).
Proof.
  intros (Hc & Hst & Hidx & Hlen & Hact) Hse.
  destruct e as [txt | idx | rid res | rid now | n]; try discriminate;
    cbn [step synthesisFailed decodes].
  - unfold onSynthesized.
    destruct (takeRun rid (runs s)) as [[r others]|] eqn:Htake;
      [|repeat split; try assumption; reflexivity].
    pose proof (takeRun_single rid (runs s) r others Hlen Htake) as ->.
    destruct (awaiting r); [|repeat split; try assumption; reflexivity].
    destruct res as [data d | |].
    + destruct (truthy data); cbn [negb].
      * cbn [setRuns isCancelledRef]. rewrite Hc. cbn [negb].
        rewrite nextChunk_cancelled by exact Hc.
        unfold cancelled. cbn. repeat split; try lia.
        intros _. apply started_stopAll.
      * rewrite afterLoop_cancelled by exact Hc.
        unfold cancelled. cbn. repeat split; try lia; try discriminate.
        intros _. apply started_stopAll.
    + rewrite afterLoop_cancelled by exact Hc.
      unfold cancelled. cbn. repeat split; try lia; try discriminate.
      intros _. apply started_stopAll.
    + rewrite afterLoop_cancelled by exact Hc.
      unfold cancelled. cbn. repeat split; try lia; try discriminate.
      intros _. apply started_stopAll.
  - unfold onDecoded.
    destruct (takeRun rid (runs s)) as [[r others]|] eqn:Htake;
      [|repeat split; try assumption; try reflexivity;
        destruct now; reflexivity].
    pose proof (takeRun_single rid (runs s) r others Hlen Htake) as ->.
    destruct (awaiting r);
      [repeat split; try assumption; try reflexivity;
       destruct now; reflexivity|].
    destruct now as [t|].
    + rewrite nextChunk_cancelled by exact Hc.
      unfold cancelled. cbn. repeat split; try lia; discriminate.
    + rewrite afterLoop_cancelled by exact Hc.
      unfold cancelled. cbn. repeat split; try lia; discriminate.
  - unfold onended. cbn [setPlayback isCancelledRef]. rewrite Hc. cbn [negb].
    assert (Hs : cancelled (setPlayback (Scheduler.ended n (playback s)) s)).
    { unfold cancelled. cbn. repeat split; try assumption.
      intros Hr. now rewrite (Hact Hr). }
    destruct (Scheduler.activeEntries (Scheduler.ended n (playback s)));
      repeat split; try exact Hs; apply Hs.
Qed.

Lemma cancelled_run (es : list (Event T)) :
  forall s,
    cancelled s -> Forall (fun e => settles e = true) es ->
    cancelled (run s es)
    /\ requests (run s es) = requests s
    /\ (Forall (fun e => synthesisFailed e = false) es ->
        alerts (run s es) = alerts s)
    /\ (Forall (fun e => decodes e = false) es ->
        Scheduler.started (playback (run s es)) = Scheduler.started (playback s)).
Proof.
  induction es as [|e es IH]; intros s Hs Hes.
  - split; [exact Hs|]. repeat split; reflexivity.
  - inversion Hes as [|? ? He Hes']; subst.
    destruct (cancelled_step s e Hs He) as (Hs1 & Hr1 & Ha1 & Hd1).
    destruct (IH (step s e) Hs1 Hes') as (Hs2 & Hr2 & Ha2 & Hd2).
    cbn [run fold_left]. fold (run (step s e) es).
    split; [exact Hs2|]. split; [|split].
    + now rewrite Hr2.
    + intros Hf. inversion Hf; subst. rewrite Ha2, Ha1; auto.
    + intros Hf. inversion Hf; subst. rewrite Hd2, Hd1; auto.
Qed.

(** X8.  A run cancelled and then left alone.  When [stopTtsPlayback] is called
    with at most one run suspended, and nothing but the awaited calls and
    the ends of playback happens afterwards: the flag is set, the status is
    idle, the resume index is cleared and the active set is stopped, with no
    notice; no further synthesis is requested; a synthesis that settles
    afterwards is not enqueued; the active set is empty once the run is
    over; and the notice is raised only for a synthesis or a decoding that
    failed. *)
Theorem cancel_stops_isolated_run (s0 : State T) (es : list (Event T)) :
  length (runs s0) <= 1 ->
  Forall (fun e => settles e = true) es ->
  let s := stopTtsPlayback s0 in
  let s' := run s es in
  (isCancelledRef s = true /\ ttsStatus s = idle
   /\ activeSentenceIndex s = None
   /\ Scheduler.activeEntries (playback s) = []
   /\ alerts s = alerts s0)
  /\ requests s' = requests s0
  /\ (Forall (fun e => decodes e = false) es ->
      Scheduler.started (playback s') = Scheduler.started (playback s0))
  /\ (runs s' = [] -> Scheduler.activeEntries (playback s') = [])
  /\ isCancelledRef s' = true /\ ttsStatus s' = idle
  /\ (Forall (fun e => synthesisFailed e = false) es -> alerts s' = alerts s0).
Proof.
  intros Hlen Hes s s'.
  assert (Hs : cancelled s) by (unfold cancelled, s; cbn; repeat split; assumption).
  destruct (cancelled_run es s Hs Hes) as ((Hc & Hst & _ & _ & Hact) & Hr & Ha & Hd).
  fold s' in Hc, Hst, Hact, Hr, Ha, Hd.
  split; [repeat split|].
  split; [exact Hr|]. split; [|split; [exact Hact|]].
  - intros Hf. rewrite (Hd Hf). apply started_stopAll.
  - split; [exact Hc|]. split; [exact Hst | exact Ha].
Qed.

End TtsFacts.

(** ** The pipeline on concrete inputs *)

Section TtsExamples.
Import Tts Examples.

(** C3 on the code.  A run of three chunks is cancelled while its first
    request is in flight: the flag is set, the status is idle, nothing plays
    and no notice is raised.  A second run is then started, which clears the
    flag the two runs share.  When the first request of the cancelled run
    comes back with audio, that audio is decoded and enqueued, and the
    cancelled run requests its second chunk. *)
Theorem cancelled_run_resumes_after_restart :
  digest cancelledRun
  = (true, idle, 0, [(0, 5000)], [], [], [(0, 2)])
  /\ digest resumedRun
     = (false, playing, 0, [(0, 5000); (1, 5000); (0, 5000)], [0], [0],
        [(1, 2); (0, 1)]).
Proof. split; vm_compute; reflexivity. Qed.

(** The same cancelled run, left alone: its request comes back with audio,
    which is dropped; the run is over and nothing plays. *)
Example cancelled_run_left_alone :
  digest quietRun = (true, idle, 0, [(0, 5000)], [], [], []).
Proof. vm_compute. reflexivity. Qed.

Lemma cancel_stops_isolated_run_witness :
  length (runs shortRun) <= 1
  /\ Forall (fun e => settles e = true) [SynthesisSettled 0 someAudio]
  /\ (let s := stopTtsPlayback shortRun in
      let s' := run s [SynthesisSettled 0 someAudio] in
      (isCancelledRef s = true /\ ttsStatus s = idle
       /\ activeSentenceIndex s = None
       /\ Scheduler.activeEntries (playback s) = []
       /\ alerts s = alerts shortRun)
      /\ requests s' = requests shortRun
      /\ (Forall (fun e => decodes e = false) [SynthesisSettled 0 someAudio] ->
          Scheduler.started (playback s') = Scheduler.started (playback shortRun))
      /\ (runs s' = [] -> Scheduler.activeEntries (playback s') = [])
      /\ isCancelledRef s' = true /\ ttsStatus s' = idle
      /\ (Forall (fun e => synthesisFailed e = false)
                 [SynthesisSettled 0 someAudio] ->
          alerts s' = alerts shortRun)).
Proof.
  split; [vm_compute; lia|]. split; [repeat constructor|].
  apply (cancel_stops_isolated_run shortRun [SynthesisSettled 0 someAudio]).
  - vm_compute; lia.
  - repeat constructor.
Defined.

End TtsExamples.

(** ** Runs of the pipeline that nothing disturbs *)

Section TtsRunFacts.
Context {T : Type} {TT : Time T}.
Import Tts TtsRuns.

Lemma serve_one (rid : nat) (r : Served T) (chunk : jsstring)
      (rest : list jsstring) (first : bool) (s : State T) :
  runs s = [{| runId := rid; awaiting := Synthesis chunk; remaining := rest;
               firstChunkProcessed := first |}] ->
  isCancelledRef s = false -> data r <> [] ->
  run s (served rid r)
  = nextChunk rid true rest
      {| ttsStatus := if first then ttsStatus s else playing;
         activeSentenceIndex := activeSentenceIndex s;
         isCancelledRef := isCancelledRef s;
         playback := Scheduler.enqueue (clock r) (lasts r) (playback s);
         runs := [];
         launched := launched s;
         requests := requests s;
         alerts := alerts s |}.
Proof.
  intros Hruns Hc Hdata. unfold run, served. cbn [fold_left step].
  unfold onSynthesized. rewrite Hruns. cbn [takeRun runId].
  rewrite Nat.eqb_refl. cbn [awaiting].
  destruct (data r) as [|c d] eqn:Hd; [congruence|]. cbn [truthy].
  cbn [setRuns isCancelledRef]. rewrite Hc. cbn [negb].
  unfold onDecoded.
  destruct first; cbn; rewrite Nat.eqb_refl; cbn; f_equal;
    unfold setPlayback, setRuns, setStatus; cbn; rewrite ?Hc; reflexivity.
Qed.

Lemma serve_loop (rid : nat) (rs : list (Served T)) :
  forall (rest : list jsstring) (chunk : jsstring) (first : bool) (s : State T),
    runs s = [{| runId := rid; awaiting := Synthesis chunk; remaining := rest;
                 firstChunkProcessed := first |}] ->
    isCancelledRef s = false ->
    (first = true -> ttsStatus s = playing) ->
    length rs <= S (length rest) ->
    Forall (fun r => data r <> []) rs ->
    let s' := run s (allServed rid rs) in
    requests s' = requests s ++ map (pair rid) (firstn (length rs) rest)
    /\ Scheduler.started (playback s')
       = Scheduler.started (playback s)
         ++ Scheduler.specSchedule (Scheduler.nextStartTime (playback s))
                                   (Scheduler.created (playback s))
                                   (map timing rs)
    /\ alerts s' = alerts s
    /\ isCancelledRef s' = false
    /\ (rs <> [] -> ttsStatus s' = playing)
    /\ (length rs = S (length rest) -> runs s' = [])
    /\ (length rs < S (length rest) -> length (runs s') = 1).
Proof.
  induction rs as [|r rs IH]; intros rest chunk first s Hruns Hc Hfirst Hlen Hall s'.
  - unfold s'. cbn. rewrite !app_nil_r. repeat split; try assumption.
    + congruence.
    + intros H; discriminate.
    + intros _. now rewrite Hruns.
  - inversion Hall as [|? ? Hr Hrs]; subst.
    assert (Hs' : s' = run (run s (served rid r)) (allServed rid rs)).
    { unfold s', allServed, run. cbn [flat_map]. now rewrite fold_left_app. }
    clearbody s'.
    rewrite (serve_one rid r chunk rest first s Hruns Hc Hr) in Hs'.
    destruct rest as [|c rest'].
    + (* the last chunk has been served *)
      destruct rs as [|r' rs']; [|cbn in Hlen; lia].
      unfold nextChunk, afterLoop in Hs'.
      cbn [isCancelledRef orb allServed flat_map run fold_left] in Hs'.
      rewrite Hc in Hs'. subst s'.
      cbn [requests playback alerts isCancelledRef ttsStatus runs length
           firstn map timing Scheduler.specSchedule].
      split; [now rewrite app_nil_r|].
      split; [apply (started_enqueue (clock r) (lasts r) (playback s))|].
      split; [reflexivity|]. split; [first [exact Hc | reflexivity]|].
      split; [intros _; destruct first; [now apply Hfirst | reflexivity]|].
      split; [reflexivity | intros H; lia].
    + unfold nextChunk in Hs'. cbn [isCancelledRef] in Hs'. rewrite Hc in Hs'.
      unfold request in Hs'. cbn in Hs'.
      match type of Hs' with
      | s' = run ?st _ =>
          destruct (IH rest' c true st) as (H1 & H2 & H3 & H4 & H5 & H6 & H7);
            [reflexivity | first [exact Hc | reflexivity]
            | intros _; cbn; destruct first; [now apply Hfirst | reflexivity]
            | cbn in Hlen |- *; lia | exact Hrs |]
      end.
      rewrite <- Hs' in H1, H2, H3, H4, H5, H6, H7.
      cbn [requests playback alerts] in H1, H2, H3.
      rewrite (started_enqueue (clock r) (lasts r) (playback s)) in H2.
      cbn [Scheduler.nextStartTime Scheduler.created Scheduler.enqueue] in H2.
      repeat split.
      * rewrite H1. cbn [length firstn map]. now rewrite <- app_assoc.
      * rewrite H2.
        cbn [map Scheduler.specSchedule timing]. now rewrite <- app_assoc.
      * exact H3.
      * exact H4.
      * intros _. destruct rs as [|r' rs'].
        -- rewrite Hs'. cbn. destruct first; [now apply Hfirst | reflexivity].
        -- apply H5. discriminate.
      * intros H. apply H6. cbn in H |- *. lia.
      * intros H. apply H7. cbn in H |- *. lia.
Qed.

Lemma chunkText_nil (m : nat) : chunkText [] m = Some [].
Proof. reflexivity. Qed.


Lemma idle_settles (s : State T) (e : Event T) :
  runs s = [] -> settles e = true ->
  runs (step s e) = [] /\ requests (step s e) = requests s
  /\ alerts (step s e) = alerts s.
Proof.
  intros Hruns He.
  destruct e as [txt | idx | rid res | rid now | n]; try discriminate;
    cbn [step].
  - unfold onSynthesized. rewrite Hruns. cbn. now rewrite Hruns.
  - unfold onDecoded. rewrite Hruns. cbn. now rewrite Hruns.
  - unfold onended.
    destruct (Scheduler.activeEntries (Scheduler.ended n (playback s)));
      [destruct (negb (isCancelledRef s))|]; cbn; now rewrite Hruns.
Qed.

Lemma idle_settles_run (es : list (Event T)) :
  forall s,
    runs s = [] -> Forall (fun e => settles e = true) es ->
    runs (run s es) = [] /\ requests (run s es) = requests s
    /\ alerts (run s es) = alerts s.
Proof.
  induction es as [|e es IH]; intros s Hruns Hes; [now repeat split|].
  inversion Hes as [|? ? He Hes']; subst.
  destruct (idle_settles s e Hruns He) as (H1 & H2 & H3).
  destruct (IH (step s e) H1 Hes') as (H4 & H5 & H6).
  cbn [run fold_left]. fold (run (step s e) es).
  repeat split; congruence.
Qed.

(** X2.  A synthesis that fails ends the run.  When the one suspended run is
    waiting for [getTextToSpeech] and the call comes back with [null], with
    an empty string, or rejected: the notice is raised once, every active
    node is stopped, the status is idle, the resume index is cleared and no
    run is left; whatever settles afterwards, no further synthesis is
    requested and no further notice is raised. *)
Theorem synthesis_failure_ends_run
        (s : State T) (r : Run T) (chunk : jsstring) (result : Synthesized T)
        (es : list (Event T)) :
  runs s = [r] -> awaiting r = Synthesis chunk -> noAudio result = true ->
  Forall (fun e => settles e = true) es ->
  let s1 := onSynthesized (runId r) result s in
  alerts s1 = S (alerts s)
  /\ ttsStatus s1 = idle /\ activeSentenceIndex s1 = None
  /\ runs s1 = []
  /\ Scheduler.activeEntries (playback s1) = []
  /\ Scheduler.nodeCalls (playback s1)
     = Scheduler.nodeCalls (playback s)
       ++ map (fun e => Scheduler.Stop (Scheduler.node e))
              (Scheduler.activeEntries (playback s))
  /\ requests (run s1 es) = requests s
  /\ alerts (run s1 es) = S (alerts s).
Proof.
  intros Hruns Haw Hres Hes s1.
  assert (Hs1 : s1 = stopTtsPlayback (alert (setRuns [] s))).
  { unfold s1, onSynthesized. rewrite Hruns. cbn [takeRun].
    rewrite Nat.eqb_refl, Haw.
    destruct result as [d l | |]; cbn in Hres.
    - destruct (truthy d); [discriminate | reflexivity].
    - reflexivity.
    - reflexivity. }
  clearbody s1. subst s1.
  destruct (idle_settles_run es (stopTtsPlayback (alert (setRuns [] s))))
    as (_ & Hr & Ha); [reflexivity | exact Hes |].
  repeat split; try reflexivity; assumption.
Qed.

End TtsRunFacts.

Section TtsRunExamples.
Import Tts TtsRuns.

Lemma synthesis_failure_ends_run_witness :
  runs Examples.shortRun = [Samples.shortRunning]
  /\ awaiting Samples.shortRunning = Synthesis (js "Hi. Bye.")
  /\ noAudio (T := Q) Null = true
  /\ Forall (fun e => settles e = true) [Ended (T := Q) 0]
  /\ (let s1 := onSynthesized (runId Samples.shortRunning) Null
                              Examples.shortRun in
      alerts s1 = S (alerts Examples.shortRun)
      /\ ttsStatus s1 = idle /\ activeSentenceIndex s1 = None
      /\ runs s1 = []
      /\ Scheduler.activeEntries (playback s1) = []
      /\ Scheduler.nodeCalls (playback s1)
         = Scheduler.nodeCalls (playback Examples.shortRun)
           ++ map (fun e => Scheduler.Stop (Scheduler.node e))
                  (Scheduler.activeEntries (playback Examples.shortRun))
      /\ requests (run s1 [Ended 0]) = requests Examples.shortRun
      /\ alerts (run s1 [Ended 0]) = S (alerts Examples.shortRun)).
Proof.
  split; [reflexivity|]. split; [reflexivity|]. split; [reflexivity|].
  split; [repeat constructor|].
  apply (synthesis_failure_ends_run Examples.shortRun Samples.shortRunning
           (js "Hi. Bye.") Null [Ended 0]);
    [reflexivity | reflexivity | reflexivity | repeat constructor].
Defined.


End TtsRunExamples.

(** ** Blank texts *)

Lemma blank_pieces_dropped (raw : list jsstring) :
  forallb isSpace (concat raw) = true -> filter nonBlank raw = [].
Proof.
  induction raw as [|p raw IH]; [reflexivity|].
  cbn [concat filter]. rewrite forallb_app. intros H.
  apply andb_prop in H. destruct H as [Hp Hraw].
  apply nonBlank_false_iff in Hp. rewrite Hp. now apply IH.
Qed.

Lemma chunkText_blank (text : jsstring) (m : nat) :
  1 <= m -> forallb isSpace text = true -> chunkText text m = Some [].
Proof.
  intros Hm Hblank.
  destruct (rawChunks_spec text m Hm) as (raw & Hraw & Hcat & _).
  unfold chunkText. rewrite Hraw. cbn [option_map].
  rewrite blank_pieces_dropped; [reflexivity | now rewrite Hcat].
Qed.

Lemma limit_positive : 1 <= Tts.TTS_CHARACTER_LIMIT.
Proof. apply Nat.leb_le. vm_compute. reflexivity. Qed.

Section BlankText.
Context {T : Type} {TT : Time T}.
Import Tts.

(** X3.  Reading a blank text aloud.  A text that is not empty but holds
    nothing but whitespace yields no chunk, and pressing read aloud on it
    while idle requests no synthesis and suspends no run: the flag is
    cleared, the status is back to idle, and everything else is as it
    was. *)
Theorem blank_text_is_not_read (s : State T) (text : jsstring) :
  ttsStatus s = idle -> text <> [] -> forallb isSpace text = true ->
  chunkText text TTS_CHARACTER_LIMIT = Some []
  /\ handleReadAloud text s
     = {| ttsStatus := idle;
          activeSentenceIndex := activeSentenceIndex s;
          isCancelledRef := false;
          playback := playback s;
          runs := runs s;
          launched := launched s;
          requests := requests s;
          alerts := alerts s |}.
Proof.
  intros Hidle Hne Hblank.
  pose proof (chunkText_blank text TTS_CHARACTER_LIMIT limit_positive Hblank)
    as Hchunks.
  split; [exact Hchunks|].
  unfold handleReadAloud. rewrite Hidle, Hchunks.
  destruct text; [congruence | reflexivity].
Qed.

End BlankText.

Lemma blank_text_is_not_read_witness :
  Tts.ttsStatus (Tts.init (T := Q)) = Tts.idle
  /\ js "  " <> []
  /\ forallb isSpace (js "  ") = true
  /\ chunkText (js "  ") Tts.TTS_CHARACTER_LIMIT = Some []
  /\ Tts.handleReadAloud (js "  ") (Tts.init (T := Q))
     = {| Tts.ttsStatus := Tts.idle;
          Tts.activeSentenceIndex := Tts.activeSentenceIndex (Tts.init (T := Q));
          Tts.isCancelledRef := false;
          Tts.playback := Tts.playback Tts.init;
          Tts.runs := Tts.runs Tts.init;
          Tts.launched := Tts.launched (Tts.init (T := Q));
          Tts.requests := Tts.requests (Tts.init (T := Q));
          Tts.alerts := Tts.alerts (Tts.init (T := Q)) |}.
Proof.
  split; [reflexivity|]. split; [discriminate|]. split; [reflexivity|].
  apply (blank_text_is_not_read Tts.init (js "  "));
    [reflexivity | discriminate | reflexivity].
Defined.

(** ** The log of a scheduler *)

Section SchedulerSound.
Context {T : Type} {TT : Time T}.
Import Scheduler SchedulerLog.

Lemma in_started (s : State T) (e : PlaybackEntry T) :
  In e (started s) <-> In (Start e) (nodeCalls s).
Proof.
  unfold started. rewrite in_flat_map. split.
  - intros ([e' | n] & Hin & He); simpl in He; [|contradiction].
    destruct He as [-> | []]. exact Hin.
  - intros Hin. exists (Start e). split; [exact Hin | now left].
Qed.

Lemma started_node_lt (s : State T) (e : PlaybackEntry T) :
  map (@node T) (started s) = seq 0 (created s) ->
  In (Start e) (nodeCalls s) -> node e < created s.
Proof.
  intros Hnum Hin. apply in_started in Hin.
  apply (in_map (@node T)) in Hin. rewrite Hnum in Hin.
  apply in_seq in Hin. lia.
Qed.

Lemma stop_node_lt (s : State T) (n : nat) :
  map (@node T) (started s) = seq 0 (created s) ->
  stopsFollowStarts (nodeCalls s) ->
  In (Stop n) (nodeCalls s) -> n < created s.
Proof.
  intros Hnum Hfollow Hin. apply In_nth_error in Hin. destruct Hin as [k Hk].
  destruct (Hfollow k n Hk) as (j & e & _ & Hj & <-).
  apply started_node_lt; [exact Hnum | now apply nth_error_In with j].
Qed.

Lemma sound_init : sound (init (T := T)).
Proof.
  unfold sound. cbn. repeat split; try constructor; try contradiction.
  - intros k n H. destruct k; discriminate.
  - intros j k n H. destruct j; discriminate.
Qed.

Lemma nth_error_snoc_stop (calls : list (NodeCall T)) (e : PlaybackEntry T)
      (k n : nat) :
  nth_error (calls ++ [Start e]) k = Some (Stop n) ->
  nth_error calls k = Some (Stop n).
Proof.
  intros H. destruct (Nat.lt_ge_cases k (length calls)) as [Hlt | Hge].
  - now rewrite nth_error_app1 in H.
  - rewrite nth_error_app2 in H by exact Hge.
    destruct (k - length calls) as [|[|i]]; discriminate.
Qed.

(** A node is created, started and added. *)
Lemma sound_add (s : State T) (e : PlaybackEntry T) (next : T) :
  sound s -> node e = created s ->
  sound {| nextStartTime := next; activeEntries := activeEntries s ++ [e];
           created := S (created s); nodeCalls := nodeCalls s ++ [Start e] |}.
Proof.
  intros (Hnum & Hnd & Hin & Hlive & Hfollow & Honce) Hnode.
  unfold sound. cbn [activeEntries created nodeCalls].
  split; [|split; [|split; [|split; [|split]]]].
  - match goal with
    | |- map _ (started ?st) = _ =>
        rewrite (started_app_call st (Start e) (nodeCalls s) eq_refl)
    end.
    fold (started s). rewrite map_app, Hnum, seq_S. cbn. now rewrite Hnode.
  - rewrite map_app. apply NoDup_app; [exact Hnd | repeat constructor; auto |].
    intros n Hn [<- | []]. apply in_map_iff in Hn.
    destruct Hn as (e' & He' & Hine').
    pose proof (started_node_lt s e' Hnum (Hin e' Hine')). lia.
  - intros e' He'. apply in_app_or in He'. apply in_or_app.
    destruct He' as [He' | [<- | []]]; [left; now apply Hin | right; now left].
  - intros e' He' Hstop. apply in_app_or in Hstop.
    destruct Hstop as [Hstop | [Hstop | []]]; [|discriminate].
    apply in_app_or in He'. destruct He' as [He' | [<- | []]].
    + now apply (Hlive e').
    + pose proof (stop_node_lt s (node e) Hnum Hfollow Hstop). lia.
  - intros k n Hk. apply nth_error_snoc_stop in Hk.
    destruct (Hfollow k n Hk) as (j & e' & Hjk & Hj & He').
    exists j, e'. split; [exact Hjk|]. split; [|exact He'].
    rewrite nth_error_app1; [exact Hj|].
    apply nth_error_Some. congruence.
  - intros j k n Hj Hk. apply nth_error_snoc_stop in Hj, Hk.
    now apply (Honce j k n).
Qed.

Lemma NoDup_map_filter (f : PlaybackEntry T -> bool)
      (l : list (PlaybackEntry T)) :
  NoDup (map (@node T) l) -> NoDup (map (@node T) (filter f l)).
Proof.
  induction l as [|e l IH]; cbn; [trivial|].
  intros H. inversion H as [|? ? Hnot Hl]; subst.
  destruct (f e); cbn; [|now apply IH].
  constructor; [|now apply IH].
  intros Hin. apply Hnot. apply in_map_iff in Hin.
  destruct Hin as (e' & He' & Hin). apply filter_In in Hin.
  apply in_map_iff. exists e'. tauto.
Qed.

Lemma sound_ended (s : State T) (n : nat) : sound s -> sound (ended n s).
Proof.
  intros (Hnum & Hnd & Hin & Hlive & Hfollow & Honce).
  unfold sound, ended. cbn [activeEntries created nodeCalls].
  split; [exact Hnum|]. split; [now apply NoDup_map_filter|].
  split; [|split; [|split; assumption]].
  - intros e He. apply filter_In in He. now apply Hin.
  - intros e He. apply filter_In in He. now apply Hlive.
Qed.

Lemma started_stops (s : State T) :
  started (stopAll s) = started s.
Proof.
  unfold started, stopAll. cbn [nodeCalls]. rewrite flat_map_app.
  assert (H : forall es : list (PlaybackEntry T),
             flat_map (fun c : NodeCall T =>
                         match c with Start e => [e] | Stop _ => [] end)
                      (map (fun e => Stop (node e)) es) = []).
  { induction es as [|e es IH]; [reflexivity | exact IH]. }
  now rewrite H, app_nil_r.
Qed.

Lemma sound_stopAll (s : State T) : sound s -> sound (stopAll s).
Proof.
  intros (Hnum & Hnd & Hin & Hlive & Hfollow & Honce).
  unfold sound. rewrite started_stops.
  cbn [stopAll activeEntries created nodeCalls].
  split; [exact Hnum|]. split; [constructor|].
  split; [intros e []|]. split; [intros e []|].
  set (stops := map (fun e => Stop (node e)) (activeEntries s)).
  assert (Hnew : forall i n,
             nth_error stops i = Some (Stop n) ->
             exists e, nth_error (activeEntries s) i = Some e /\ node e = n).
  { intros i n Hi. unfold stops in Hi. rewrite nth_error_map in Hi.
    destruct (nth_error (activeEntries s) i) as [e|]; [|discriminate].
    injection Hi as <-. now exists e. }
  split.
  - intros k n Hk.
    destruct (Nat.lt_ge_cases k (length (nodeCalls s))) as [Hlt | Hge].
    + rewrite nth_error_app1 in Hk by exact Hlt.
      destruct (Hfollow k n Hk) as (j & e & Hjk & Hj & He).
      exists j, e. split; [exact Hjk|]. split; [|exact He].
      rewrite nth_error_app1; [exact Hj | lia].
    + rewrite nth_error_app2 in Hk by exact Hge.
      destruct (Hnew _ n Hk) as (e & He & Hn).
      apply nth_error_In in He. apply Hin in He.
      apply In_nth_error in He. destruct He as [j Hj].
      assert (Hjl : j < length (nodeCalls s))
        by (apply nth_error_Some; congruence).
      exists j, e. split; [lia|]. split; [|exact Hn].
      now rewrite nth_error_app1.
  - intros j k n Hj Hk.
    assert (Hold : forall i,
               i < length (nodeCalls s) ->
               nth_error (nodeCalls s ++ stops) i = Some (Stop n) ->
               forall i', length (nodeCalls s) <= i' ->
               nth_error (nodeCalls s ++ stops) i' = Some (Stop n) -> False).
    { intros i Hi Hsi i' Hi' Hsi'.
      rewrite nth_error_app1 in Hsi by exact Hi.
      rewrite nth_error_app2 in Hsi' by exact Hi'.
      destruct (Hnew _ n Hsi') as (e & He & <-).
      apply (Hlive e); [now apply nth_error_In with (i' - length (nodeCalls s))|].
      now apply nth_error_In with i. }
    destruct (Nat.lt_ge_cases j (length (nodeCalls s))) as [Hjl | Hjl];
      destruct (Nat.lt_ge_cases k (length (nodeCalls s))) as [Hkl | Hkl].
    + rewrite nth_error_app1 in Hj, Hk by assumption.
      now apply (Honce j k n).
    + exfalso. exact (Hold j Hjl Hj k Hkl Hk).
    + exfalso. exact (Hold k Hkl Hk j Hjl Hj).
    + rewrite nth_error_app2 in Hj, Hk by assumption.
      destruct (Hnew _ n Hj) as (e1 & He1 & Hn1).
      destruct (Hnew _ n Hk) as (e2 & He2 & Hn2).
      assert (Heq : j - length (nodeCalls s) = k - length (nodeCalls s)).
      { apply (proj1 (NoDup_nth_error (map (@node T) (activeEntries s))) Hnd).
        - rewrite length_map. apply nth_error_Some. congruence.
        - rewrite !nth_error_map, He1, He2. cbn. congruence. }
      lia.
Qed.

Lemma sound_enqueue (now d : T) (s : State T) :
  sound s -> sound (enqueue now d s).
Proof. intros H. now apply sound_add. Qed.

Lemma sound_playAudio (now d : T) (s : State T) :
  sound s -> sound (playAudio now d s).
Proof. intros H. rewrite playAudio_enqueue. now apply sound_enqueue. Qed.

End SchedulerSound.

Section HookSchedulers.
Context {T : Type} {TT : Time T}.
Import Scheduler SchedulerLog.

Lemma playback_stopSession (env : Session.StopEnv) (s : Session.State T) :
  Session.playback (Session.stopSession env s)
  = stopAll (Session.playback s).
Proof. exact (proj1 (proj2 (proj2 (proj2 (stopSession_fields env s))))). Qed.

Lemma sound_playInline (now d : T) (s : Session.State T) :
  sound (Session.playback s) ->
  sound (Session.playback (Session.playInline now d s)).
Proof.
  intros H. unfold Session.playInline.
  destruct (Session.outputAudioContextRef (Session.handles s)) as [a|];
    [|exact H].
  destruct (Session.resumed a). cbn [Session.playback].
  now apply sound_playAudio.
Qed.

Lemma sound_session_step (s : Session.State T) (e : Session.Event T) :
  sound (Session.playback s) -> sound (Session.playback (Session.step s e)).
Proof.
  intros H.
  destruct e as [env | env | n1 n2 | now m | msg env | env | level data | n];
    cbn [Session.step].
  - unfold Session.startSession. destruct (Session.resumed _) as [out e1].
    destruct (Session.userMedia env); [exact H|].
    rewrite playback_stopSession. now apply sound_stopAll.
  - rewrite playback_stopSession. now apply sound_stopAll.
  - exact H.
  - unfold Session.onmessage. cbv zeta. cbn [Session.emit Session.playback].
    set (s0 := Session.emit _ s).
    assert (H1 : sound (Session.playback s0)) by exact H.
    destruct (Session.thrown _); [exact H1|].
    destruct (Session.serverContent m) as [sc|]; [|exact H1].
    unfold Session.handleServerContent.
    set (s1 := Session.setTranscripts _ _).
    assert (Hs1 : sound (Session.playback s1)) by exact H1.
    assert (H2 : sound (Session.playback
                          match Session.inlineData sc with
                          | Some (data, d) =>
                              if truthy data
                              then Session.playInline now d s1 else s1
                          | None => s1
                          end)).
    { destruct (Session.inlineData sc) as [[data d]|]; [|exact Hs1].
      destruct (truthy data); [now apply sound_playInline | exact Hs1]. }
    destruct (Session.interrupted sc); [|exact H2].
    cbn [Session.setPlayback Session.playback]. now apply sound_stopAll.
  - unfold Session.onerror. rewrite playback_stopSession.
    now apply sound_stopAll.
  - rewrite playback_stopSession. now apply sound_stopAll.
  - exact H.
  - cbn. now apply sound_ended.
Qed.

(** X4.  The scheduler of the session hook, in every state the hook can
    reach.  Nodes are numbered in the order they are started; the active set
    holds no node twice, and only nodes that were started and not stopped;
    every [stop] in the log is on a node started earlier in the log, and no
    node is stopped twice.  So [stopAllPlayback], which does not guard its
    calls of [stop], never stops a node that was not started. *)
Theorem session_scheduler_sound (es : list (Session.Event T)) :
  sound (Session.playback (Session.run Session.init es)).
Proof.
  unfold Session.run.
  assert (H : forall s, sound (Session.playback s) ->
                        sound (Session.playback (fold_left Session.step es s))).
  { induction es as [|e es IH]; intros s Hs; [exact Hs|].
    cbn [fold_left]. apply IH. now apply sound_session_step. }
  apply H. apply sound_init.
Qed.

Lemma sound_stopTts (s : Tts.State T) :
  sound (Tts.playback s) -> sound (Tts.playback (Tts.stopTtsPlayback s)).
Proof. intros H. cbn. now apply sound_stopAll. Qed.

Lemma sound_afterLoop (hasFailed : bool) (s : Tts.State T) :
  sound (Tts.playback s) ->
  sound (Tts.playback (Tts.afterLoop hasFailed s)).
Proof.
  intros H. unfold Tts.afterLoop.
  destruct (hasFailed || Tts.isCancelledRef s); [|exact H].
  apply sound_stopTts. now destruct hasFailed.
Qed.

Lemma sound_nextChunk (rid : nat) (first : bool) (chunks : list jsstring)
      (s : Tts.State T) :
  sound (Tts.playback s) ->
  sound (Tts.playback (Tts.nextChunk rid first chunks s)).
Proof.
  intros H. unfold Tts.nextChunk.
  destruct chunks as [|c rest]; [now apply sound_afterLoop|].
  destruct (Tts.isCancelledRef s); [now apply sound_afterLoop | exact H].
Qed.

Lemma sound_tts_step (s : Tts.State T) (e : Tts.Event T) :
  sound (Tts.playback s) -> sound (Tts.playback (Tts.step s e)).
Proof.
  intros H.
  destruct e as [txt | idx | rid res | rid now | n]; cbn [Tts.step].
  - unfold Tts.handleReadAloud.
    destruct (Tts.ttsStatus s); try now apply sound_stopTts.
    destruct (truthy txt); [|exact H].
    destruct (chunkText txt Tts.TTS_CHARACTER_LIMIT) as [[|c rest]|];
      exact H.
  - unfold Tts.handleSentenceClick.
    destruct (Tts.ttsStatus s); try now apply sound_stopTts. exact H.
  - unfold Tts.onSynthesized.
    destruct (Tts.takeRun rid (Tts.runs s)) as [[r others]|]; [|exact H].
    destruct (Tts.awaiting r); [|exact H].
    assert (H1 : sound (Tts.playback (Tts.setRuns others s))) by exact H.
    destruct res as [data d | |]; try now apply sound_afterLoop.
    destruct (truthy data); [|now apply sound_afterLoop].
    destruct (negb (Tts.isCancelledRef (Tts.setRuns others s)));
      [|now apply sound_nextChunk].
    destruct (Tts.firstChunkProcessed r); exact H.
  - unfold Tts.onDecoded.
    destruct (Tts.takeRun rid (Tts.runs s)) as [[r others]|]; [|exact H].
    destruct (Tts.awaiting r) as [|d]; [exact H|].
    destruct now as [t|]; [|now apply sound_afterLoop].
    apply sound_nextChunk. cbn [Tts.setPlayback Tts.playback].
    now apply sound_enqueue.
  - unfold Tts.onended.
    assert (H1 : sound (ended n (Tts.playback s))) by now apply sound_ended.
    destruct (activeEntries (ended n (Tts.playback s)));
      [destruct (negb (Tts.isCancelledRef s))|]; exact H1.
Qed.

(** X5.  The scheduler of the text-to-speech pipeline, in every state the
    pipeline can reach, whatever the order in which runs are started,
    cancelled and resumed: the same bookkeeping holds.  Every node that
    [stopTtsPlayback] stops was started, none is stopped twice, and the
    active set holds only nodes started and not stopped. *)
Theorem tts_scheduler_sound (es : list (Tts.Event T)) :
  sound (Tts.playback (Tts.run Tts.init es)).
Proof.
  unfold Tts.run.
  assert (H : forall s, sound (Tts.playback s) ->
                        sound (Tts.playback (fold_left Tts.step es s))).
  { induction es as [|e es IH]; intros s Hs; [exact Hs|].
    cbn [fold_left]. apply IH. now apply sound_tts_step. }
  apply H. apply sound_init.
Qed.

End HookSchedulers.

(** ** Gaps and interleavings *)

Section Interleaving.
Context {T : Type} {TT : Time T}.
Import Scheduler.

(** X7.  The two halves of [playAudio] ([nextStartTime] is raised to the
    clock before [await decodeAudioData], the node is started at
    [nextStartTime] after it) in any interleaving of pending calls: the
    entries started are chained, each one starting no earlier than the
    scheduled end of the one started before it, and the first one no earlier
    than where the scheduler stood. *)
Theorem interleaved_playAudio_never_overlaps
        (ps : list (Phase T)) (s : State T) :
  exists es,
    started (fold_left phase ps s) = started s ++ es
    /\ chained (nextStartTime s) es
    /\ forall k e1 e2,
         nth_error es k = Some e1 -> nth_error es (S k) = Some e2 ->
         tle (endAt e1) (startAt e2).
Proof.
  destruct (phases_chained ps s) as (es & Hes & Hch).
  exists es. split; [exact Hes|]. split; [exact Hch|].
  intros k e1 e2. now apply chained_consecutive with (lo := nextStartTime s).
Qed.

End Interleaving.

Section GaplessFacts.
Import Scheduler Gapless.

Lemma fedAhead_chain (reqs : list (Q * Q)) :
  forall (next : Q) (k : nat),
    fedAhead next reqs ->
    (forall e, nth_error (specSchedule next k reqs) 0 = Some e ->
               (startAt e == next)%Q)
    /\ (forall i e1 e2,
           nth_error (specSchedule next k reqs) i = Some e1 ->
           nth_error (specSchedule next k reqs) (S i) = Some e2 ->
           (startAt e2 == endAt e1)%Q).
Proof.
  induction reqs as [|[now d] reqs IH]; intros next k Hfed.
  - split; [intros e H; discriminate | intros i e1 e2 H; destruct i; discriminate].
  - destruct Hfed as [Hnow Hrest].
    destruct (IH (Qmax next now + d)%Q (S k) Hrest) as [Hhead Hcons].
    cbn [specSchedule]. split.
    + intros e He. injection He as <-. cbn [startAt].
      apply Q.max_l. exact Hnow.
    + intros i e1 e2 H1 H2. destruct i as [|i].
      * injection H1 as <-. cbn [nth_error] in H2.
        exact (Hhead e2 H2).
      * exact (Hcons i e1 e2 H1 H2).
Qed.

(** X6.  Buffers that arrive ahead of the clock play without a gap.  When
    each buffer is enqueued no later than the scheduled end of the one
    before it (the first, no later than where the scheduler stands), the
    first entry starts exactly where the scheduler stood and every other
    entry starts exactly when the one before it ends; for both
    schedulers. *)
Theorem fed_ahead_plays_gapless (reqs : list (Q * Q)) (s : State Q) :
  fedAhead (nextStartTime s) reqs ->
  let es := specSchedule (nextStartTime s) (created s) reqs in
  started (enqueueAll reqs s) = started s ++ es
  /\ started (playAudioAll reqs s) = started s ++ es
  /\ (forall e, nth_error es 0 = Some e -> (startAt e == nextStartTime s)%Q)
  /\ (forall i e1 e2,
         nth_error es i = Some e1 -> nth_error es (S i) = Some e2 ->
         (startAt e2 == endAt e1)%Q).
Proof.
  intros Hfed es.
  destruct (fedAhead_chain reqs (nextStartTime s) (created s) Hfed)
    as [Hhead Hcons].
  split; [apply started_enqueueAll|].
  split; [rewrite playAudioAll_enqueueAll; apply started_enqueueAll|].
  split; [exact Hhead | exact Hcons].
Qed.

Lemma fed_ahead_plays_gapless_witness :
  fedAhead (nextStartTime (init (T := Q))) [(0%Q, 1%Q); ((1 # 2)%Q, 2%Q)]
  /\ (let s := init (T := Q) in
      let reqs := [(0%Q, 1%Q); ((1 # 2)%Q, 2%Q)] in
      let es := specSchedule (nextStartTime s) (created s) reqs in
      started (enqueueAll reqs s) = started s ++ es
      /\ started (playAudioAll reqs s) = started s ++ es
      /\ (forall e, nth_error es 0 = Some e ->
                    (startAt e == nextStartTime s)%Q)
      /\ (forall i e1 e2,
             nth_error es i = Some e1 -> nth_error es (S i) = Some e2 ->
             (startAt e2 == endAt e1)%Q)).
Proof.
  assert (H : fedAhead (nextStartTime (init (T := Q)))
                       [(0%Q, 1%Q); ((1 # 2)%Q, 2%Q)]).
  { cbn. repeat split; unfold Qle; cbn; lia. }
  split; [exact H|].
  apply (fed_ahead_plays_gapless [(0%Q, 1%Q); ((1 # 2)%Q, 2%Q)] init H).
Defined.

End GaplessFacts.

(** ** Starting, and what follows teardown *)

Section SessionLifecycle.
Context {T : Type} {TT : Time T}.
Import Transcripts Session SessionChannel.

(** X9.  The two outcomes of [startSession].  When [getUserMedia] rejects,
    the error message is set and the failure logged, and the session is
    torn down at once: the handles are null; whatever an earlier session
    still held has been released, call by call (its session closed or the
    failure of that logged, its stream stopped, its two nodes
    disconnected); nothing plays, the history is empty, and the session is
    neither connecting nor connected.  When it resolves, the session is
    connecting with the new stream, input context and session promise in
    place, the history is empty and the counter is zero, and nothing has
    been released: a session that was live before is not closed. *)
Theorem start_session_outcomes (env : StartEnv) (s : State T) :
  let s' := startSession env s in
  transcripts s' = Transcripts.init
  /\ match userMedia env with
     | None =>
         error s' = Some (startFailure (failureMessage env))
         /\ released (handles s')
         /\ isConnecting s' = false /\ isConnected s' = false
         /\ Scheduler.activeEntries (playback s') = []
         /\ audioLevelRef s' = tzero
         /\ exists new,
              effects s' = effects s ++ new
              /\ In ConsoleError new
              /\ releasesHeld (onFailure env) (handles s) new
     | Some stream =>
         error s' = None
         /\ isConnecting s' = true /\ isConnected s' = isConnected s
         /\ sessionPromiseRef (handles s') = Some (connected env)
         /\ mediaStreamRef (handles s') = Some stream
         /\ inputAudioContextRef (handles s') = Some (freshInputContext env)
         /\ playback s' = playback s
         /\ exists resume,
              effects s' = effects s ++ resume
              /\ Forall (fun x => exists c, x = ContextResume c) resume
     end.
Proof.
  intros s'. split; [apply transcripts_startSession|].
  unfold s', startSession.
  destruct (resumed _) as [out e1] eqn:Hres.
  destruct (userMedia env) as [stream|].
  - cbn. repeat split. exists e1. split; [reflexivity|].
    unfold resumed in Hres.
    destruct (state (ensureContext _ _)); injection Hres as _ <-;
      repeat constructor. eexists; reflexivity.
  - match goal with
    | |- context [stopSession ?e ?st] =>
        destruct (stopSession_fields e st) as (Hr & Hc & Hd & Hp & Hl);
          destruct (stopSession_effects e st) as (new & He & Hrel & _ & _);
          set (s1 := stopSession e st) in *
    end.
    split.
    { unfold s1, stopSession.
      destruct (closeContext _ _), (closeContext _ _). reflexivity. }
    split; [exact Hr|]. split; [exact Hc|]. split; [exact Hd|].
    split; [now rewrite Hp|]. split; [exact Hl|].
    cbn [emit setError effects handles] in He, Hrel.
    exists (e1 ++ [ConsoleError] ++ new). split; [|split].
    + rewrite He. now rewrite <- !app_assoc.
    + rewrite !in_app_iff. right. left. now left.
    + destruct Hrel as (R1 & R2 & R3 & R4).
      repeat split; intros n Hn; rewrite !in_app_iff; right; right;
        [apply R1 | apply R2 | apply R3 | apply R4]; exact Hn.
Qed.

Lemma quiet_toolCalls (fcs : list FunctionCall) :
  Forall (fun x => onChannel x = false)
         (callbacks (toolCallLoop None fcs))
  /\ acknowledgments (toolCallLoop None fcs) = [].
Proof.
  induction fcs as [|fc fcs [IH1 IH2]]; [split; [constructor | reflexivity]|].
  cbn [toolCallLoop].
  destruct (guard fc); cbn [callbacks acknowledgments release app].
  - split; [constructor; [reflexivity | exact IH1] | exact IH2].
  - now split.
  - split; [constructor | reflexivity].
Qed.

Lemma quiet_closeContext (rejects : bool) (c : option AudioContext) :
  Forall (fun x => onChannel x = false) (snd (closeContext rejects c)).
Proof.
  unfold closeContext. destruct c as [a|]; [|constructor].
  destruct (state a), rejects; repeat constructor.
Qed.

Lemma quiet_stopSession (env : StopEnv) (s : State T) :
  sessionPromiseRef (handles s) = None ->
  sessionPromiseRef (handles (stopSession env s)) = None
  /\ exists new,
       effects (stopSession env s) = effects s ++ new
       /\ Forall (fun x => onChannel x = false) new.
Proof.
  intros Hnone. unfold stopSession. rewrite Hnone.
  pose proof (quiet_closeContext (inputCloseRejects env)
                (inputAudioContextRef (handles s))) as H5.
  pose proof (quiet_closeContext (outputCloseRejects env)
                (outputAudioContextRef (handles s))) as H6.
  destruct (closeContext (inputCloseRejects env) _) as [ic e5],
           (closeContext (outputCloseRejects env) _) as [oc e6].
  cbn in H5, H6 |- *. split; [reflexivity|].
  eexists. split; [reflexivity|].
  repeat (apply Forall_app; split); try assumption;
    match goal with
    | |- Forall _ (release _ ?h) => destruct h; repeat constructor
    end.
Qed.

Lemma quiet_playInline (now d : T) (s : State T) :
  sessionPromiseRef (handles (playInline now d s))
  = sessionPromiseRef (handles s)
  /\ exists new,
       effects (playInline now d s) = effects s ++ new
       /\ Forall (fun x => onChannel x = false) new.
Proof.
  unfold playInline.
  destruct (outputAudioContextRef (handles s)) as [a|].
  - unfold resumed. destruct (state a); cbn; split; try reflexivity;
      eexists; (split; [reflexivity | repeat constructor]).
  - split; [reflexivity|]. exists []. now rewrite app_nil_r.
Qed.

Lemma quiet_step (s : State T) (e : Event T) :
  sessionPromiseRef (handles s) = None -> isStart e = false ->
  sessionPromiseRef (handles (step s e)) = None
  /\ exists new,
       effects (step s e) = effects s ++ new
       /\ Forall (fun x => onChannel x = false) new.
Proof.
  intros Hnone Hs.
  assert (Hsame : forall st : State T,
             sessionPromiseRef (handles st) = None ->
             effects st = effects s ->
             sessionPromiseRef (handles st) = None
             /\ exists new, effects st = effects s ++ new
                            /\ Forall (fun x => onChannel x = false) new).
  { intros st H1 H2. split; [exact H1|]. exists [].
    now rewrite app_nil_r. }
  destruct e as [env | env | n1 n2 | now m | msg env | env | level data | n];
    cbn [isStart step] in *; try discriminate.
  - now apply quiet_stopSession.
  - apply Hsame; [|reflexivity]. unfold onopen. cbn.
    now destruct (inputAudioContextRef (handles s)),
                 (mediaStreamRef (handles s)).
  - unfold onmessage. cbv zeta.
    assert (Hr : Forall (fun x => onChannel x = false)
                        (callbacks (toolCalls m s))
                 /\ acknowledgments (toolCalls m s) = []).
    { unfold toolCalls. destruct (functionCalls m) as [fcs|].
      - rewrite Hnone. apply quiet_toolCalls.
      - split; [constructor | reflexivity]. }
    destruct Hr as [Hcb Hack]. rewrite Hack.
    set (s0 := emit (callbacks (toolCalls m s)) s).
    assert (H0 : sessionPromiseRef (handles s0) = None
                 /\ exists new, effects s0 = effects s ++ new
                      /\ Forall (fun x => onChannel x = false) new).
    { split; [exact Hnone|]. exists (callbacks (toolCalls m s)).
      split; [reflexivity | exact Hcb]. }
    assert (Hemit : forall st : State T,
               (sessionPromiseRef (handles st) = None
                /\ exists new, effects st = effects s ++ new
                     /\ Forall (fun x => onChannel x = false) new) ->
               sessionPromiseRef (handles (emit [] st)) = None
               /\ exists new, effects (emit [] st) = effects s ++ new
                    /\ Forall (fun x => onChannel x = false) new).
    { intros st (Hn & new & He & Hq). split; [exact Hn|]. exists new.
      cbn [emit effects]. now rewrite app_nil_r. }
    apply Hemit.
    destruct (thrown (toolCalls m s)); [exact H0|].
    destruct (serverContent m) as [sc|]; [|exact H0].
    destruct H0 as (Hn1 & new1 & He1 & Hq1).
    unfold handleServerContent.
    set (s1 := setTranscripts _ s0).
    assert (H2 : sessionPromiseRef
                   (handles match inlineData sc with
                            | Some (data, d) =>
                                if truthy data then playInline now d s1 else s1
                            | None => s1
                            end) = None
                 /\ exists new,
                      effects match inlineData sc with
                              | Some (data, d) =>
                                  if truthy data then playInline now d s1
                                  else s1
                              | None => s1
                              end = effects s ++ new
                      /\ Forall (fun x => onChannel x = false) new).
    { assert (Hs1 : sessionPromiseRef (handles s1) = None
                    /\ exists new, effects s1 = effects s ++ new
                         /\ Forall (fun x => onChannel x = false) new).
      { split; [exact Hn1|]. exists new1. split; [exact He1 | exact Hq1]. }
      destruct (inlineData sc) as [[data d]|]; [|exact Hs1].
      destruct (truthy data); [|exact Hs1].
      destruct (quiet_playInline now d s1) as (Hh & new2 & He2 & Hq2).
      split; [now rewrite Hh|].
      exists (new1 ++ new2). split.
      - rewrite He2. change (effects s1) with (effects s0).
        rewrite He1. now rewrite <- app_assoc.
      - apply Forall_app. now split. }
    destruct (interrupted sc); exact H2.
  - unfold onerror.
    destruct (quiet_stopSession env (emit [ConsoleError] (setError
                (Some (js "Live session error:" ++ [10%N]
                       ++ (if truthy msg then msg else js "Unknown error")))
                s)) Hnone) as (Hh & new & He & Hq).
    split; [exact Hh|]. exists (ConsoleError :: new). split.
    + rewrite He. cbn [emit effects]. now rewrite <- app_assoc.
    + constructor; [reflexivity | exact Hq].
  - now apply quiet_stopSession.
  - apply Hsame; [exact Hnone|]. unfold onaudioprocess. cbn.
    rewrite Hnone. cbn. now rewrite app_nil_r.
  - now apply Hsame.
Qed.

(** X10.  Nothing reaches the channel once the session promise is dropped.
    From a state in which [sessionPromiseRef] is null (the initial state, or
    any state after [stopSession]) and until the next [startSession],
    whatever arrives (late messages with tool calls, capture frames, errors,
    further stops): the ref stays null and no tool response, no audio frame
    and no close is sent to a session. *)
Theorem no_channel_call_after_teardown (s : State T) (es : list (Event T)) :
  sessionPromiseRef (handles s) = None ->
  Forall (fun e => isStart e = false) es ->
  sessionPromiseRef (handles (run s es)) = None
  /\ exists new,
       effects (run s es) = effects s ++ new
       /\ Forall (fun x => onChannel x = false) new.
Proof.
  revert s. induction es as [|e es IH]; intros s Hnone Hes.
  - split; [exact Hnone|]. exists []. cbn. now rewrite app_nil_r.
  - inversion Hes as [|? ? He Hes']; subst.
    destruct (quiet_step s e Hnone He) as (Hn1 & new1 & He1 & Hq1).
    destruct (IH (step s e) Hn1 Hes') as (Hn2 & new2 & He2 & Hq2).
    cbn [run fold_left]. fold (run (step s e) es).
    split; [exact Hn2|]. exists (new1 ++ new2). split.
    + rewrite He2, He1. now rewrite <- app_assoc.
    + apply Forall_app. now split.
Qed.

End SessionLifecycle.

(** ** How chunks are made of sentences *)

Section ChunkBlockFacts.
Import ChunkBlocks.

Lemma concat_nonempty (ss : list jsstring) :
  Forall (fun s => s <> []) ss -> ss <> [] -> concat ss <> [].
Proof.
  intros Hall Hne. destruct ss as [|s ss]; [congruence|].
  inversion Hall; subst. destruct s; [congruence | discriminate].
Qed.

Lemma flush_pending (blocks : list Block) (curSs : list jsstring) :
  Forall (fun s => s <> []) curSs ->
  flush (flat_map blockChunks blocks) (concat curSs)
  = flat_map blockChunks (blocks ++ pending curSs).
Proof.
  intros Hall. rewrite flat_map_app. destruct curSs as [|s ss].
  - cbn. now rewrite app_nil_r.
  - unfold flush.
    destruct (concat (s :: ss)) as [|c cs] eqn:E.
    + exfalso. apply (concat_nonempty (s :: ss) Hall); [discriminate | exact E].
    + cbn [truthy pending flat_map blockChunks]. now rewrite E, app_nil_r.
Qed.

Lemma nth_error_Some_lt {A : Type} (l : list A) (i : nat) (x : A) :
  nth_error l i = Some x -> i < length l.
Proof. intros H. apply nth_error_Some. congruence. Qed.

Lemma lastBlock_snoc (l : list Block) (b : Block) :
  lastBlock (l ++ [b]) = Some b.
Proof.
  unfold lastBlock. rewrite length_app. cbn [length].
  replace (pred (length l + 1)) with (length l) by lia.
  rewrite nth_error_app2 by lia. now rewrite Nat.sub_diag.
Qed.

Lemma packed_snoc (m : nat) (l : list Block) (b : Block) :
  packed m l -> (forall a, lastBlock l = Some a -> tight m a b) ->
  packed m (l ++ [b]).
Proof.
  intros Hp Hlast i x y Hx Hy.
  destruct (Nat.lt_ge_cases (S i) (length l)) as [Hlt | Hge].
  - rewrite nth_error_app1 in Hx, Hy by lia. now apply (Hp i).
  - assert (Hi : i < length l).
    { apply nth_error_Some_lt in Hy. rewrite length_app in Hy. cbn in Hy. lia. }
    rewrite nth_error_app1 in Hx by exact Hi.
    rewrite nth_error_app2 in Hy by lia.
    replace (S i - length l) with 0 in Hy by lia. injection Hy as <-.
    apply Hlast. unfold lastBlock.
    replace (pred (length l)) with i by lia. exact Hx.
Qed.

Lemma packed_last_change (m : nat) (l : list Block) (a a' : Block) :
  packed m (l ++ [a]) -> (forall x, tight m x a -> tight m x a') ->
  packed m (l ++ [a']).
Proof.
  intros Hp Himp. apply packed_snoc.
  - intros i x y Hx Hy. apply (Hp i).
    + rewrite nth_error_app1; [exact Hx|]. now apply nth_error_Some_lt in Hx.
    + rewrite nth_error_app1; [exact Hy|]. now apply nth_error_Some_lt in Hy.
  - intros x Hx. apply Himp. unfold lastBlock in Hx.
    destruct l as [|b l]; [discriminate|]. cbn [length pred] in Hx.
    apply (Hp (length l)).
    + rewrite nth_error_app1; [exact Hx | cbn; lia].
    + rewrite nth_error_app2 by (cbn; lia).
      cbn [length]. now rewrite Nat.sub_diag.
Qed.

Lemma step_blocks (m : nat) (blocks : list Block) (curSs : list jsstring)
      (sentence : jsstring) :
  1 <= m -> sentence <> [] -> blocked m blocks curSs ->
  exists blocks' curSs',
    step m (flat_map blockChunks blocks, concat curSs) sentence
    = Some (flat_map blockChunks blocks', concat curSs')
    /\ blocked m blocks' curSs'
    /\ flat_map blockSentences blocks' ++ curSs'
       = (flat_map blockSentences blocks ++ curSs) ++ [sentence].
Proof.
  intros Hm Hs (Hwf & Hne & Hlen & Hpacked & Hlast). unfold step.
  assert (Hpend : Forall (wellFormed m) (blocks ++ pending curSs)).
  { apply Forall_app. split; [exact Hwf|].
    destruct curSs as [|s ss]; [constructor|].
    constructor; [|constructor]. cbn. repeat split; try assumption.
    discriminate. }
  assert (Hsent : flat_map blockSentences (blocks ++ pending curSs)
                  = flat_map blockSentences blocks ++ curSs).
  { rewrite flat_map_app. destruct curSs; cbn; now rewrite ?app_nil_r. }
  destruct (m <? length sentence) eqn:E1.
  - apply Nat.ltb_lt in E1.
    destruct (hardSplit_spec m sentence Hm E1) as (ps & -> & Hps).
    exists ((blocks ++ pending curSs) ++ [Split sentence ps]), [].
    split; [|split].
    + rewrite flush_pending by exact Hne.
      rewrite (flat_map_app blockChunks (blocks ++ pending curSs)).
      cbn. now rewrite app_nil_r.
    + unfold blocked. cbn [pending concat length]. rewrite app_nil_r.
      split; [|split; [constructor|split; [lia|split]]].
      * apply Forall_app. split; [exact Hpend|].
        constructor; [now split | constructor].
      * apply packed_snoc; [exact Hpacked|].
        intros a _. now destruct a as [ss|? ?].
      * intros _ ss. rewrite lastBlock_snoc. discriminate.
    + rewrite app_nil_r, (flat_map_app blockSentences), Hsent. reflexivity.
  - apply Nat.ltb_ge in E1.
    destruct (m <? length (concat curSs ++ sentence)) eqn:E2.
    + apply Nat.ltb_lt in E2.
      exists (blocks ++ pending curSs), [sentence]. split; [|split].
      * rewrite flush_pending by exact Hne. cbn. now rewrite app_nil_r.
      * unfold blocked. cbn [pending concat]. rewrite app_nil_r.
        split; [exact Hpend|]. split; [now repeat constructor|].
        split; [exact E1|]. split; [|discriminate].
        apply packed_snoc; [exact Hpacked|].
        intros a Ha. destruct a as [ss|? ?]; [|exact I].
        cbn [tight]. destruct curSs as [|t ts].
        -- cbn [concat app] in E2. lia.
        -- cbn [pending] in Ha. rewrite lastBlock_snoc in Ha.
           injection Ha as <-. rewrite length_app in E2. exact E2.
      * rewrite Hsent. reflexivity.
    + apply Nat.ltb_ge in E2.
      exists blocks, (curSs ++ [sentence]). split; [|split].
      * rewrite concat_app. cbn. now rewrite app_nil_r.
      * unfold blocked. split; [exact Hwf|].
        split; [apply Forall_app; split; [exact Hne | now repeat constructor]|].
        split; [rewrite concat_app; cbn; now rewrite app_nil_r|].
        split.
        -- destruct curSs as [|t ts].
           ++ cbn [app pending]. apply packed_snoc.
              ** cbn [pending] in Hpacked. now rewrite app_nil_r in Hpacked.
              ** intros a Ha. destruct a as [ss|? ?]; [|exact I].
                 exfalso. now apply (Hlast eq_refl ss).
           ++ cbn [app pending] in *.
              apply packed_last_change with (a := Whole (t :: ts));
                [exact Hpacked|].
              intros x Hx. now destruct x.
        -- intros H. destruct curSs; discriminate.
      * now rewrite app_assoc.
Qed.

Lemma loop_blocks (m : nat) (Hm : 1 <= m) (ss : list jsstring) :
  Forall (fun s => s <> []) ss ->
  forall blocks curSs,
    blocked m blocks curSs ->
    exists blocks' curSs',
      loop m (flat_map blockChunks blocks, concat curSs) ss
      = Some (flat_map blockChunks blocks', concat curSs')
      /\ blocked m blocks' curSs'
      /\ flat_map blockSentences blocks' ++ curSs'
         = (flat_map blockSentences blocks ++ curSs) ++ ss.
Proof.
  induction ss as [|s ss IH]; intros Hall blocks curSs Hb.
  - exists blocks, curSs. cbn. split; [reflexivity|].
    split; [exact Hb | now rewrite app_nil_r].
  - inversion Hall as [|? ? Hs Hss]; subst.
    destruct (step_blocks m blocks curSs s Hm Hs Hb)
      as (b1 & c1 & Hstep & Hb1 & Hs1).
    destruct (IH Hss b1 c1 Hb1) as (b2 & c2 & Hloop & Hb2 & Hs2).
    exists b2, c2. cbn [loop]. rewrite Hstep.
    split; [exact Hloop|]. split; [exact Hb2|].
    rewrite Hs2, Hs1. now rewrite <- app_assoc.
Qed.

(** X11.  Chunks respect sentences.  For a limit of at least one, the array
    of chunks (before blank ones are dropped) is made, in order, of blocks
    of two kinds: whole sentences glued into one chunk that fits the limit,
    and a sentence longer than the limit cut into its hard-split pieces.
    The sentences of the blocks are the sentences of the text, in order,
    so no sentence that fits the limit is ever cut.  And chunks are packed:
    a chunk of glued sentences is followed by another one only when the
    first sentence of that one would not have fitted in it. *)
Theorem chunks_respect_sentences (text : jsstring) (maxLength : nat) :
  1 <= maxLength ->
  exists blocks,
    rawChunks text maxLength = Some (flat_map blockChunks blocks)
    /\ chunkText text maxLength
       = Some (filter nonBlank (flat_map blockChunks blocks))
    /\ flat_map blockSentences blocks = sentences text
    /\ Forall (wellFormed maxLength) blocks
    /\ packed maxLength blocks.
Proof.
  intros Hm.
  assert (H0 : blocked maxLength [] []).
  { unfold blocked. cbn. repeat split; try constructor; try lia.
    - intros i a b H. destruct i; discriminate.
    - intros ss. discriminate. }
  destruct (loop_blocks maxLength Hm (sentences text)
              (sentences_nonempty text) [] [] H0)
    as (blocks & curSs & Hloop & (Hwf & Hne & Hlen & Hpacked & _) & Hs).
  cbn [flat_map concat app] in Hloop, Hs.
  assert (Hraw : rawChunks text maxLength
                 = Some (flat_map blockChunks (blocks ++ pending curSs))).
  { unfold rawChunks. rewrite Hloop. now rewrite flush_pending. }
  exists (blocks ++ pending curSs).
  split; [exact Hraw|]. split; [unfold chunkText; now rewrite Hraw|].
  split; [|split; [|exact Hpacked]].
  - rewrite flat_map_app, <- Hs. destruct curSs; cbn; now rewrite ?app_nil_r.
  - apply Forall_app. split; [exact Hwf|].
    destruct curSs as [|s ss]; [constructor|].
    constructor; [|constructor]. cbn. repeat split; try assumption.
    discriminate.
Qed.

End ChunkBlockFacts.

(** ** Zero as a limit *)

Lemma hardSplitFrom_zero (fuel : nat) (sentence : jsstring) :
  sentence <> [] -> hardSplitFrom fuel 0 sentence 0 = None.
Proof.
  intros Hs. destruct sentence as [|c sentence]; [congruence|].
  induction fuel as [|fuel IH]; cbn; [reflexivity|].
  cbn in IH. now rewrite IH.
Qed.

Lemma hardSplitInto_zero (room : nat) (sentence : jsstring)
      (chunks : list jsstring) :
  sentence <> [] ->
  PushLoop.hardSplitInto room 0 sentence 0 chunks
  = PushLoop.RangeError (chunks ++ repeat [] room).
Proof.
  intros Hs. destruct sentence as [|c sentence]; [congruence|].
  revert chunks. induction room as [|room IH]; intros chunks.
  - cbn. now rewrite app_nil_r.
  - cbn [PushLoop.hardSplitInto length Nat.ltb Nat.leb Nat.add].
    cbn [Nat.ltb Nat.leb length] in IH. rewrite IH.
    cbn [repeat]. unfold substring. cbn [Nat.sub firstn].
    now rewrite <- app_assoc.
Qed.

Lemma hardSplitInto_agrees (fuel m : nat) (sentence : jsstring) :
  forall i pieces room chunks,
    hardSplitFrom fuel m sentence i = Some pieces ->
    length pieces <= room ->
    PushLoop.hardSplitInto room m sentence i chunks
    = PushLoop.Finished (chunks ++ pieces).
Proof.
  induction fuel as [|fuel IH]; intros i pieces room chunks Hp Hroom;
    cbn [hardSplitFrom] in Hp.
  - destruct (i <? length sentence) eqn:E; [discriminate|].
    injection Hp as <-. destruct room; cbn [PushLoop.hardSplitInto];
      rewrite E; now rewrite app_nil_r.
  - destruct (i <? length sentence) eqn:E.
    + destruct (hardSplitFrom fuel m sentence (i + m)) as [ps|] eqn:Eps;
        [|discriminate].
      cbn in Hp. injection Hp as <-. cbn [length] in Hroom.
      destruct room as [|room]; [lia|].
      cbn [PushLoop.hardSplitInto]. rewrite E.
      rewrite (IH (i + m) ps room _ Eps) by lia.
      now rewrite <- app_assoc.
    + injection Hp as <-. destruct room; cbn [PushLoop.hardSplitInto];
        rewrite E; now rewrite app_nil_r.
Qed.

(** X12.  With a limit of zero [chunkText] returns no array.  For a text
    that is not empty, the first sentence is longer than the limit and the
    index of the cutting loop, [for (i = 0; i < sentence.length; i += 0)],
    never advances: the condition holds after any number of iterations,
    and the loop is left only by its [push], which on an array with room
    for [room] more elements has pushed that many empty strings when it
    throws.  Where the loop is left by its condition, it has pushed the
    pieces of [hardSplit], on any array that has room for them. *)
Theorem chunkText_zero_limit_throws (text : jsstring) :
  text <> [] ->
  exists sentence rest,
    sentences text = sentence :: rest
    /\ (forall room chunks,
          PushLoop.hardSplitInto room 0 sentence 0 chunks
          = PushLoop.RangeError (chunks ++ repeat [] room))
    /\ (forall fuel, hardSplitFrom fuel 0 sentence 0 = None)
    /\ rawChunks text 0 = None
    /\ chunkText text 0 = None
    /\ (forall m s pieces room chunks,
          hardSplit m s = Some pieces -> length pieces <= room ->
          PushLoop.hardSplitInto room m s 0 chunks
          = PushLoop.Finished (chunks ++ pieces)).
Proof.
  intros Ht.
  pose proof (concat_sentences text) as Hc.
  pose proof (sentences_nonempty text) as Hne.
  unfold chunkText, rawChunks.
  destruct (sentences text) as [|sentence rest].
  - cbn in Hc. congruence.
  - inversion Hne as [|? ? Hs _]; subst.
    exists sentence, rest. split; [reflexivity|].
    split; [intros room chunks; now apply hardSplitInto_zero|].
    split; [intros fuel; now apply hardSplitFrom_zero|].
    cbn [loop step].
    destruct sentence as [|c sentence]; [congruence|].
    cbn [length Nat.ltb Nat.leb]. unfold hardSplit.
    rewrite hardSplitFrom_zero by discriminate.
    split; [reflexivity|]. split; [reflexivity|].
    intros m s pieces room chunks Hp Hroom.
    now apply (hardSplitInto_agrees (length s) m s 0 pieces room chunks Hp).
Qed.

Lemma chunkText_zero_limit_throws_witness :
  js "Hi." <> []
  /\ PushLoop.hardSplitInto 3 0 (js "Hi.") 0 [js "x"]
     = PushLoop.RangeError [js "x"; []; []; []]
  /\ exists sentence rest,
       sentences (js "Hi.") = sentence :: rest
       /\ (forall room chunks,
             PushLoop.hardSplitInto room 0 sentence 0 chunks
             = PushLoop.RangeError (chunks ++ repeat [] room))
       /\ (forall fuel, hardSplitFrom fuel 0 sentence 0 = None)
       /\ rawChunks (js "Hi.") 0 = None
       /\ chunkText (js "Hi.") 0 = None
       /\ (forall m s pieces room chunks,
             hardSplit m s = Some pieces -> length pieces <= room ->
             PushLoop.hardSplitInto room m s 0 chunks
             = PushLoop.Finished (chunks ++ pieces)).
Proof.
  split; [discriminate|]. split; [reflexivity|].
  apply (chunkText_zero_limit_throws (js "Hi.")). discriminate.
Defined.

Lemma chunks_respect_sentences_witness :
  1 <= 5
  /\ exists blocks,
       rawChunks (js "Hi. Go on, then.") 5
       = Some (flat_map ChunkBlocks.blockChunks blocks)
       /\ chunkText (js "Hi. Go on, then.") 5
          = Some (filter nonBlank (flat_map ChunkBlocks.blockChunks blocks))
       /\ flat_map ChunkBlocks.blockSentences blocks
          = sentences (js "Hi. Go on, then.")
       /\ Forall (ChunkBlocks.wellFormed 5) blocks
       /\ ChunkBlocks.packed 5 blocks.
Proof.
  split; [lia|].
  apply (chunks_respect_sentences (js "Hi. Go on, then.") 5). lia.
Defined.

(** ** Rendered, clicked and read sentences *)

Section ReaderFacts.
Import Reader.

Lemma concat_splitLines (text : jsstring) :
  concat (splitLines text) = filter notLineFeed text.
Proof.
  induction text as [|c text IH]; [reflexivity|].
  cbn [splitLines filter]. unfold notLineFeed at 1.
  destruct (c =? 10)%N; cbn [negb].
  - cbn [concat app]. exact IH.
  - destruct (splitLines text) as [|line lines]; cbn [concat app] in *;
      now rewrite <- IH.
Qed.

Lemma concat_flat_map_sentences (lines : list jsstring) :
  concat (flat_map sentences lines) = concat lines.
Proof.
  induction lines as [|l lines IH]; [reflexivity|].
  cbn [flat_map concat]. now rewrite concat_app, concat_sentences, IH.
Qed.

Lemma fold_sentenceCount (lines : list jsstring) (a : nat) :
  fold_left (fun acc curr => acc + length (sentences curr)) lines a
  = a + length (flat_map sentences lines).
Proof.
  revert a. induction lines as [|l lines IH]; intros a; cbn [fold_left flat_map].
  - cbn. lia.
  - rewrite IH, length_app. lia.
Qed.

Lemma sentenceCount_flat (lines : list jsstring) :
  sentenceCount lines = length (flat_map sentences lines).
Proof. unfold sentenceCount. now rewrite fold_sentenceCount. Qed.

Lemma nth_error_parts {A : Type} (l : list A) (n : nat) (x : A) :
  nth_error l n = Some x -> l = firstn n l ++ x :: skipn (S n) l.
Proof.
  revert l. induction n as [|n IH]; intros [|y l] H; try discriminate.
  - cbn in H. now injection H as ->.
  - cbn in H. cbn [firstn skipn app]. f_equal. now apply IH.
Qed.

(** The sentence [i] of the element [p] of a list of lines sits, in the
    flat list of all their sentences, after the sentences of the lines
    before it and its own first [i]. *)
Lemma flat_sentence_at (ps : list jsstring) (p i : nat)
      (para sentence : jsstring) :
  nth_error ps p = Some para ->
  nth_error (sentences para) i = Some sentence ->
  exists before after,
    flat_map sentences ps = before ++ sentence :: after
    /\ length before = sentenceCount (firstn p ps) + i.
Proof.
  intros Hp Hi.
  pose proof (nth_error_parts ps p para Hp) as Eps.
  pose proof (nth_error_parts (sentences para) i sentence Hi) as Es.
  exists (flat_map sentences (firstn p ps) ++ firstn i (sentences para)),
         (skipn (S i) (sentences para)
          ++ flat_map sentences (skipn (S p) ps)).
  split.
  - rewrite Eps at 1. rewrite flat_map_app. cbn [flat_map].
    rewrite Es at 1. now rewrite <- !app_assoc.
  - rewrite length_app, sentenceCount_flat. f_equal.
    apply firstn_length_le. apply Nat.lt_le_incl.
    apply nth_error_Some. congruence.
Qed.

Lemma sentences_nil : sentences [] = [].
Proof. reflexivity. Qed.

Lemma notBlank_nil : notBlank [] = false.
Proof. reflexivity. Qed.

(** Dropping the blank lines loses no sentence when the only blank lines
    are the empty ones. *)
Lemma flat_map_paragraphs (lines : list jsstring) :
  forallb (fun line => match line with [] => true | _ => notBlank line end)
          lines = true ->
  flat_map sentences (filter notBlank lines) = flat_map sentences lines.
Proof.
  induction lines as [|l lines IH]; [reflexivity|].
  cbn [forallb filter flat_map]. intros H.
  apply andb_prop in H. destruct H as [Hl Hrest].
  destruct l as [|c l].
  - rewrite notBlank_nil, sentences_nil. cbn [app]. now apply IH.
  - rewrite Hl. cbn [flat_map]. now rewrite IH.
Qed.

Lemma firstn_filter_all {A : Type} (f : A -> bool) (n : nat) (l : list A) :
  forallb f (firstn n l) = true -> firstn n (filter f l) = firstn n l.
Proof.
  revert l. induction n as [|n IH]; intros [|x l] H; try reflexivity.
  cbn [firstn forallb] in H. apply andb_prop in H. destruct H as [Hx Hl].
  cbn [filter]. rewrite Hx. cbn [firstn]. f_equal. now apply IH.
Qed.

Lemma skipn_exact {A : Type} (before rest : list A) :
  skipn (length before) (before ++ rest) = rest.
Proof. induction before as [|x before IH]; [reflexivity | exact IH]. Qed.

Lemma nth_error_exact {A : Type} (before after : list A) (x : A) :
  nth_error (before ++ x :: after) (length before) = Some x.
Proof. induction before as [|y before IH]; [reflexivity | exact IH]. Qed.

Lemma firstn_exact {A : Type} (before rest : list A) :
  firstn (length before) (before ++ rest) = before.
Proof.
  induction before as [|x before IH]; [now destruct rest|].
  cbn. now rewrite IH.
Qed.

Lemma readSentences_nonempty (contextText : jsstring) :
  Forall (fun s => s <> []) (readSentences contextText).
Proof.
  unfold readSentences. induction (splitLines contextText) as [|l ls IH].
  - constructor.
  - cbn [flat_map]. apply Forall_app. split;
      [apply sentences_nonempty | exact IH].
Qed.

Lemma filter_all {A : Type} (f : A -> bool) (l : list A) :
  forallb f l = true -> filter f l = l.
Proof.
  induction l as [|x l IH]; [reflexivity|]. cbn. intros H.
  apply andb_prop in H. destruct H as [Hx Hl]. now rewrite Hx, IH.
Qed.

Lemma renderIndex_count (contextText : jsstring) (p i : nat) :
  renderIndex contextText p i
  = sentenceCount (firstn p (splitLines contextText)) + i.
Proof. unfold renderIndex. now destruct p. Qed.

Lemma count_firstn_S (ls : list jsstring) (p : nat) (para : jsstring) :
  nth_error ls p = Some para ->
  sentenceCount (firstn (S p) ls)
  = sentenceCount (firstn p ls) + length (sentences para).
Proof.
  rewrite !sentenceCount_flat. revert ls.
  induction p as [|p IH]; intros [|x ls] H; try discriminate.
  - cbn in H. injection H as ->. cbn. now rewrite length_app.
  - cbn in H. change (firstn (S (S p)) (x :: ls)) with (x :: firstn (S p) ls).
    change (firstn (S p) (x :: ls)) with (x :: firstn p ls).
    cbn [flat_map]. rewrite !length_app, (IH ls H). lia.
Qed.

Lemma count_firstn_mono (ls : list jsstring) (p q : nat) :
  p <= q -> sentenceCount (firstn p ls) <= sentenceCount (firstn q ls).
Proof.
  rewrite !sentenceCount_flat. revert p q.
  induction ls as [|x ls IH]; intros p q Hpq.
  - now rewrite !firstn_nil.
  - destruct p as [|p]; [cbn; lia|]. destruct q as [|q]; [lia|].
    cbn [firstn flat_map]. rewrite !length_app.
    specialize (IH p q ltac:(lia)). lia.
Qed.

(** Two sentences of the lines given sit at different places among all
    their sentences. *)
Lemma position_inj (ls : list jsstring) (p i p' i' : nat)
      (para para' : jsstring) :
  nth_error ls p = Some para -> i < length (sentences para) ->
  nth_error ls p' = Some para' -> i' < length (sentences para') ->
  sentenceCount (firstn p' ls) + i' = sentenceCount (firstn p ls) + i ->
  p' = p /\ i' = i.
Proof.
  intros Hp Hi Hp' Hi' Heq.
  destruct (Nat.lt_trichotomy p p') as [Hlt | [<- | Hgt]].
  - pose proof (count_firstn_S ls p para Hp) as HS.
    pose proof (count_firstn_mono ls (S p) p' Hlt). lia.
  - split; [reflexivity | lia].
  - pose proof (count_firstn_S ls p' para' Hp') as HS.
    pose proof (count_firstn_mono ls (S p') p Hgt). lia.
Qed.

Lemma fromActive_at (contextText sentence : jsstring)
      (before after : list jsstring) :
  readSentences contextText = before ++ sentence :: after ->
  fromActive contextText (Some (length before)) = sentence ++ concat after.
Proof.
  intros E. unfold fromActive. rewrite E, nth_error_exact, skipn_exact.
  rewrite truthy_nonempty; [reflexivity|].
  pose proof (readSentences_nonempty contextText) as H. rewrite E in H.
  apply Forall_app in H. destruct H as [_ H]. now inversion H.
Qed.

Section WithTime.
Context {T : Type} {TT : Time T}.

(** X13.  A click on a sentence makes the reading start there.  Take a
    context none of whose lines is made of white space only (empty lines
    are fine), the player idle with no sentence active, and the sentence
    number [i] of the rendered paragraph number [p].  The index the click
    handler computes is the position of that sentence among the sentences
    [handleReadAloud] finds; the click makes it the active index; and the
    text then read, without a selection, is that sentence followed by all
    the sentences after it. *)
Theorem click_then_read_starts_at_sentence
        (contextText para sentence : jsstring) (p i : nat) (s : Tts.State T) :
  noSpaceOnlyLine contextText = true ->
  nth_error (paragraphs contextText) p = Some para ->
  nth_error (sentences para) i = Some sentence ->
  Tts.ttsStatus s = Tts.idle ->
  Tts.activeSentenceIndex s = None ->
  exists before after,
    readSentences contextText = before ++ sentence :: after
    /\ clickIndex contextText p i = Some (length before)
    /\ Tts.activeSentenceIndex (sentenceClick contextText p i s)
       = Some (length before)
    /\ Tts.ttsStatus (sentenceClick contextText p i s) = Tts.idle
    /\ textToRead contextText None
         (Tts.activeSentenceIndex (sentenceClick contextText p i s))
       = sentence ++ concat after
    /\ readAloud contextText None (sentenceClick contextText p i s)
       = Tts.handleReadAloud (sentence ++ concat after)
           (sentenceClick contextText p i s).
Proof.
  intros Hlines Hp Hi Hidle Hnone.
  destruct (flat_sentence_at (paragraphs contextText) p i para sentence Hp Hi)
    as (before & after & Hflat & Hlen).
  unfold paragraphs in Hflat at 1.
  rewrite (flat_map_paragraphs _ Hlines) in Hflat.
  assert (Hclick : clickIndex contextText p i = Some (length before)).
  { unfold clickIndex.
    assert (Hle : (p <=? length (paragraphs contextText)) = true).
    { apply Nat.leb_le. apply Nat.lt_le_incl. apply nth_error_Some.
      congruence. }
    now rewrite Hle, Hlen. }
  assert (Hactive : Tts.activeSentenceIndex (sentenceClick contextText p i s)
                    = Some (length before)).
  { unfold sentenceClick, Tts.handleSentenceClick.
    rewrite Hclick, Hidle. cbn. now rewrite Hnone. }
  assert (Htext : textToRead contextText None
                    (Tts.activeSentenceIndex (sentenceClick contextText p i s))
                  = sentence ++ concat after).
  { rewrite Hactive. cbn [textToRead]. now apply fromActive_at. }
  exists before, after. split; [exact Hflat|]. split; [exact Hclick|].
  split; [exact Hactive|]. split.
  - unfold sentenceClick, Tts.handleSentenceClick.
    now rewrite Hclick, Hidle.
  - split; [exact Htext|]. unfold readAloud. now rewrite Htext.
Qed.

(** X14.  The highlight follows the click when no blank line comes first.
    If none of the first [p] lines of the context is blank (empty or white
    space only), the index the render gives to the sentence [i] of the
    paragraph [p] is the one the click handler computes for it, so the
    sentence clicked, with the player idle and no sentence active, is
    highlighted.  If no line of the context is blank at all, it is the only
    rendered sentence that is highlighted.  (With a blank line further
    down, a later sentence may be highlighted as well.) *)
Theorem highlight_follows_click (contextText : jsstring) (p i : nat)
        (s : Tts.State T) :
  forallb notBlank (firstn p (splitLines contextText)) = true ->
  p <= length (paragraphs contextText) ->
  Tts.ttsStatus s = Tts.idle ->
  Tts.activeSentenceIndex s = None ->
  clickIndex contextText p i = Some (renderIndex contextText p i)
  /\ highlighted contextText
       (Tts.activeSentenceIndex (sentenceClick contextText p i s)) p i
     = true
  /\ (forallb notBlank (splitLines contextText) = true ->
      forall para,
        nth_error (paragraphs contextText) p = Some para ->
        i < length (sentences para) ->
        forall p' i' para',
          nth_error (paragraphs contextText) p' = Some para' ->
          i' < length (sentences para') ->
          highlighted contextText
            (Tts.activeSentenceIndex (sentenceClick contextText p i s)) p' i'
          = true ->
          p' = p /\ i' = i).
Proof.
  intros Hlines Hp Hidle Hnone.
  assert (Hclick : clickIndex contextText p i
                   = Some (renderIndex contextText p i)).
  { unfold clickIndex, renderIndex, paragraphs.
    apply Nat.leb_le in Hp. unfold paragraphs in Hp. rewrite Hp.
    rewrite (firstn_filter_all notBlank p _ Hlines).
    destruct p as [|p]; [reflexivity|]. reflexivity. }
  assert (Hactive : Tts.activeSentenceIndex (sentenceClick contextText p i s)
                    = Some (renderIndex contextText p i)).
  { unfold sentenceClick, Tts.handleSentenceClick.
    rewrite Hclick, Hidle. cbn. now rewrite Hnone. }
  split; [exact Hclick|]. rewrite Hactive. split.
  - cbn [highlighted]. apply Nat.eqb_refl.
  - intros Hall para Hpara Hi p' i' para' Hpara' Hi' Hh.
    cbn [highlighted] in Hh. apply Nat.eqb_eq in Hh.
    rewrite !renderIndex_count in Hh. symmetry in Hh.
    unfold paragraphs in Hpara, Hpara'.
    rewrite (filter_all notBlank _ Hall) in Hpara, Hpara'.
    destruct (position_inj (splitLines contextText) p i p' i' para para'
                Hpara Hi Hpara' Hi' Hh) as [-> ->].
    now split.
Qed.

End WithTime.

(** X15.  What is read from a sentence on.  The sentences [handleReadAloud]
    finds tile the context with its line feeds removed.  Hence, without a
    selection, reading from the active sentence [k] reads what follows the
    first [k] sentences in the context without its line feeds: paragraphs
    are joined with nothing between them; and an active index past the last
    sentence, or none, reads the whole context, line feeds included. *)
Theorem resumed_text_drops_line_feeds (contextText : jsstring) :
  concat (readSentences contextText) = filter notLineFeed contextText
  /\ (forall k,
        k < length (readSentences contextText) ->
        concat (firstn k (readSentences contextText))
        ++ textToRead contextText None (Some k)
        = filter notLineFeed contextText)
  /\ (forall k,
        length (readSentences contextText) <= k ->
        textToRead contextText None (Some k) = contextText)
  /\ textToRead contextText None None = contextText.
Proof.
  assert (Hall : concat (readSentences contextText)
                 = filter notLineFeed contextText).
  { unfold readSentences.
    now rewrite concat_flat_map_sentences, concat_splitLines. }
  split; [exact Hall|]. split; [|split; [|reflexivity]].
  - intros k Hk. cbn [textToRead]. unfold fromActive.
    destruct (nth_error (readSentences contextText) k) as [x|] eqn:E.
    + rewrite truthy_nonempty.
      * rewrite <- concat_app, firstn_skipn. exact Hall.
      * pose proof (readSentences_nonempty contextText) as H.
        rewrite Forall_forall in H. apply H. eapply nth_error_In. exact E.
    + apply nth_error_None in E. lia.
  - intros k Hk. cbn [textToRead]. unfold fromActive.
    apply nth_error_None in Hk. now rewrite Hk.
Qed.

End ReaderFacts.

Section ReaderExamples.
Import Reader ReaderSamples.

Lemma click_then_read_starts_at_sentence_witness :
  exists before after,
    readSentences twoParagraphs = before ++ js "Go." :: after
    /\ clickIndex twoParagraphs 1 1 = Some (length before)
    /\ Tts.activeSentenceIndex
         (sentenceClick twoParagraphs 1 1 (Tts.init (T := Q)))
       = Some (length before)
    /\ Tts.ttsStatus (sentenceClick twoParagraphs 1 1 (Tts.init (T := Q)))
       = Tts.idle
    /\ textToRead twoParagraphs None
         (Tts.activeSentenceIndex
            (sentenceClick twoParagraphs 1 1 (Tts.init (T := Q))))
       = js "Go." ++ concat after
    /\ readAloud twoParagraphs None
         (sentenceClick twoParagraphs 1 1 (Tts.init (T := Q)))
       = Tts.handleReadAloud (js "Go." ++ concat after)
           (sentenceClick twoParagraphs 1 1 (Tts.init (T := Q))).
Proof.
  exact (click_then_read_starts_at_sentence
           twoParagraphs (js "Ok. Go.") (js "Go.") 1 1 (Tts.init (T := Q))
           eq_refl eq_refl eq_refl eq_refl eq_refl).
Defined.

Lemma highlight_follows_click_witness :
  clickIndex twoLines 1 0 = Some (renderIndex twoLines 1 0)
  /\ highlighted twoLines
       (Tts.activeSentenceIndex
          (sentenceClick twoLines 1 0 (Tts.init (T := Q)))) 1 0
     = true
  /\ (forall p' i' para',
        nth_error (paragraphs twoLines) p' = Some para' ->
        i' < length (sentences para') ->
        highlighted twoLines
          (Tts.activeSentenceIndex
             (sentenceClick twoLines 1 0 (Tts.init (T := Q)))) p' i'
        = true ->
        p' = 1 /\ i' = 0).
Proof.
  destruct (highlight_follows_click twoLines 1 0 (Tts.init (T := Q)))
    as (H1 & H2 & H3);
    [reflexivity | cbn; lia | reflexivity | reflexivity |].
  split; [exact H1|]. split; [exact H2|].
  apply (H3 eq_refl (js "Ok. Go.")); [reflexivity | cbn; lia].
Defined.

(** After an empty line the two indices part: a click on the first
    sentence of the second paragraph highlights it and the first sentence
    of the third. *)
Example highlight_shared_after_empty_line :
  forallb notBlank (firstn 1 (splitLines gapThenTwo)) = true
  /\ highlighted gapThenTwo
       (Tts.activeSentenceIndex
          (sentenceClick gapThenTwo 1 0 (Tts.init (T := Q)))) 1 0 = true
  /\ highlighted gapThenTwo
       (Tts.activeSentenceIndex
          (sentenceClick gapThenTwo 1 0 (Tts.init (T := Q)))) 2 0 = true.
Proof. repeat split. Qed.

End ReaderExamples.

(** ** Text chat *)

Section ChatFacts.
Import Chat.
Context {T : Type} {TT : Time T}.

Lemma chatMatches_step (s : State T) (e : Event) :
  chatMatches s -> chatMatches (step s e).
Proof.
  unfold chatMatches. intros H. destruct e; cbn; try exact H; try exact I.
  - unfold handleSendMessage.
    destruct (negb (truthy (trim (inputValue s))) || isThinking s);
      [exact H|].
    cbn. unfold getChatResponse, getChatInstance.
    destruct (chatInstance (service s)) as [chat|] eqn:E; cbn.
    + now rewrite E.
    + reflexivity.
  - unfold onResponse. destruct (pending s); exact H.
Qed.

Lemma chatMatches_run (es : list Event) (s : State T) :
  chatMatches s -> chatMatches (run s es).
Proof.
  revert s. induction es as [|e es IH]; intros s H; [exact H|].
  cbn. apply IH. now apply chatMatches_step.
Qed.

(** X16.  Every question goes to a chat made for the context shown.
    Whatever has happened since the component was mounted (text pasted or
    typed, contexts submitted or cleared, messages sent, replies arrived or
    failed, in any order), the chat object the service holds, if it holds
    one, was created with the current context; and a message that is sent
    then is passed, as typed, to a chat whose system instruction was built
    from the current context, in exactly one call. *)
Theorem chat_follows_context (es : list Event) :
  chatMatches (run (init (T := T)) es)
  /\ (let s := run (init (T := T)) es in
      sent (service (handleSendMessage s)) = sent (service s)
      \/ exists chat,
           sent (service (handleSendMessage s))
           = sent (service s) ++ [(chat, inputValue s)]
           /\ systemContext chat = contextText s
           /\ chatInstance (service (handleSendMessage s)) = Some chat).
Proof.
  assert (H : chatMatches (run (init (T := T)) es)).
  { apply chatMatches_run. exact I. }
  split; [exact H|]. cbn zeta.
  set (s := run init es) in *. clearbody s.
  unfold handleSendMessage.
  destruct (negb (truthy (trim (inputValue s))) || isThinking s);
    [now left | right].
  unfold chatMatches in H. cbn. unfold getChatResponse, getChatInstance.
  destruct (chatInstance (service s)) as [chat|] eqn:E; cbn.
  - exists chat. now rewrite E.
  - eexists. split; [reflexivity|]. split; reflexivity.
Qed.

Lemma thinking_step (s : State T) (e : Event) :
  pending s = (if isThinking s then 1 else 0) ->
  pending (step s e) = (if isThinking (step s e) then 1 else 0).
Proof.
  intros H. destruct e; cbn; try exact H.
  - unfold handleSendMessage.
    destruct (negb (truthy (trim (inputValue s)))); cbn; [exact H|].
    destruct (isThinking s) eqn:E; cbn; [now rewrite E | now rewrite H].
  - unfold onResponse. destruct (pending s) as [|n] eqn:E; [now rewrite E|].
    cbn. destruct (isThinking s); [congruence | discriminate].
Qed.

Lemma alternates_snoc (h : list ChatMessage) (m : ChatMessage) (r : Role) :
  alternates r h ->
  role m = (if Nat.odd (length h) then other r else r) ->
  alternates r (h ++ [m]).
Proof.
  revert r. induction h as [|x h IH]; intros r Hh Hm.
  - cbn in *. now split.
  - destruct Hh as [Hx Hh]. cbn [app alternates]. split; [exact Hx|].
    apply IH; [exact Hh|]. cbn [length] in Hm. rewrite Nat.odd_succ in Hm.
    rewrite <- Nat.negb_odd in Hm.
    destruct (Nat.odd (length h)), r; cbn in *; exact Hm.
Qed.

Lemma odd_snoc (h : list ChatMessage) (m : ChatMessage) :
  Nat.odd (length (h ++ [m])) = negb (Nat.odd (length h)).
Proof.
  rewrite length_app. cbn [length]. rewrite Nat.add_1_r, Nat.odd_succ.
  now rewrite <- Nat.negb_odd.
Qed.

Lemma inTurns_answer (h : list ChatMessage) (a : ChatMessage) :
  role a = model -> inTurns true h -> inTurns false (h ++ [a]).
Proof.
  intros Ha [Hh Ho]. split.
  - apply alternates_snoc; [exact Hh|]. now rewrite Ho.
  - now rewrite odd_snoc, Ho.
Qed.

Lemma inTurns_question (h : list ChatMessage) (q : ChatMessage) :
  role q = user -> inTurns false h -> inTurns true (h ++ [q]).
Proof.
  intros Hq [Hh Ho]. split.
  - apply alternates_snoc; [exact Hh|]. now rewrite Ho.
  - now rewrite odd_snoc, Ho.
Qed.

Lemma conversing_step (s : State T) (e : Event) :
  changesContext e = false -> conversing s -> conversing (step s e).
Proof.
  intros He [Hp Hh]. split; [now apply thinking_step|].
  destruct e; try discriminate; cbn; try exact Hh.
  - unfold handleSendMessage.
    destruct (negb (truthy (trim (inputValue s)))); cbn; [exact Hh|].
    destruct (isThinking s) eqn:E; cbn; [now rewrite E|].
    now apply inTurns_question.
  - unfold onResponse. destruct (pending s) as [|n] eqn:E; [exact Hh|].
    cbn. apply inTurns_answer; [reflexivity|].
    destruct (isThinking s); [exact Hh | discriminate].
Qed.

(** X17.  One question at a time.  At most one message is waiting for its
    reply, and [isThinking] says when one is.  And as long as the context
    is neither submitted nor cleared, the history reads as questions and
    answers in turn, starting with a question and ending with one exactly
    when a reply is awaited. *)
Theorem questions_and_answers_in_turn (es : list Event) :
  (let s := run (init (T := T)) es in
   pending s = (if isThinking s then 1 else 0))
  /\ (Forall (fun e => changesContext e = false) es ->
      inTurns (isThinking (run (init (T := T)) es))
              (chatHistory (run (init (T := T)) es))).
Proof.
  split.
  - cbn zeta.
    assert (H : forall s : State T,
               pending s = (if isThinking s then 1 else 0) ->
               pending (run s es)
               = (if isThinking (run s es) then 1 else 0)).
    { induction es as [|e es IH]; intros s H; [exact H|].
      cbn. apply IH. now apply thinking_step. }
    now apply H.
  - intros Hes.
    assert (H : forall s : State T, conversing s -> conversing (run s es)).
    { induction Hes as [|e es He _ IH]; intros s H; [exact H|].
      cbn. apply IH. now apply conversing_step. }
    apply (H init). now split.
Qed.

(** X18.  A reply that arrives after the context was cleared lands in the
    new conversation.  While a reply is awaited, [handleNewContext] empties
    the history and the context but leaves the request in flight and
    [isThinking] set; when the request settles, its reply (or the error
    notice) becomes the only entry of the history, under an empty
    context, and nothing can be sent in between. *)
Theorem late_reply_lands_in_cleared_chat
        (s : State T) (result : option jsstring) :
  pending s = 1 ->
  isThinking s = true ->
  handleSendMessage (handleNewContext s) = handleNewContext s
  /\ contextText (run s [NewContext; ResponseSettled result]) = []
  /\ chatHistory (run s [NewContext; ResponseSettled result])
     = [{| role := model;
           text := match result with
                   | Some t => t
                   | None => errorReply
                   end |}]
  /\ isThinking (run s [NewContext; ResponseSettled result]) = false.
Proof.
  intros Hp Ht. split.
  - unfold handleSendMessage. cbn. rewrite Ht.
    now rewrite orb_true_r.
  - cbn. unfold onResponse. cbn. rewrite Hp. cbn. repeat split.
Qed.

End ChatFacts.

(** ** 16-bit PCM *)

Section PcmFacts.
Import Pcm.
Local Open Scope Z_scope.

Lemma quot_bounds (n : Z) (d : positive) (lo hi : Z) :
  lo <= 0 -> 0 < hi ->
  lo * Zpos d <= n -> n < hi * Zpos d ->
  lo <= Z.quot n (Zpos d) < hi.
Proof.
  intros Hlo Hhi H1 H2.
  destruct (Z.le_gt_cases 0 n) as [Hn | Hn].
  - rewrite Z.quot_div_nonneg by lia. split.
    + pose proof (Z.div_pos n (Zpos d) Hn ltac:(lia)). lia.
    + apply Z.div_lt_upper_bound; lia.
  - replace n with (- (- n)) by lia. rewrite Z.quot_opp_l by lia.
    rewrite Z.quot_div_nonneg by lia.
    pose proof (Z.div_pos (- n) (Zpos d) ltac:(lia) ltac:(lia)).
    split; [|lia].
    assert (- n / Zpos d <= - lo); [|lia].
    apply Z.div_le_upper_bound; lia.
Qed.

Lemma quot_lower (n : Z) (d : positive) (lo : Z) :
  0 <= lo -> lo * Zpos d <= n -> lo <= Z.quot n (Zpos d).
Proof.
  intros Hlo H. rewrite Z.quot_div_nonneg by lia.
  apply Z.div_le_lower_bound; lia.
Qed.

Lemma truncate_scaled (f : Q) :
  truncate (f * 32768)%Q = Z.quot (Qnum f * 32768) (Zpos (Qden f)).
Proof.
  unfold truncate. cbn [Qmult Qnum Qden]. now rewrite Pos.mul_1_r.
Qed.

Lemma toInt16_range (x : Q) : -32768 <= toInt16 x <= 32767.
Proof.
  unfold toInt16. cbn zeta.
  pose proof (Z.mod_pos_bound (truncate x) 65536 ltac:(lia)) as H.
  destruct (32768 <=? truncate x mod 65536) eqn:E;
    [apply Z.leb_le in E | apply Z.leb_gt in E]; lia.
Qed.

Lemma toInt16_small (x : Q) :
  -32768 <= truncate x <= 32767 -> toInt16 x = truncate x.
Proof.
  intros H. unfold toInt16. cbn zeta.
  destruct (Z.le_gt_cases 0 (truncate x)) as [Hn | Hn].
  - rewrite Z.mod_small by lia.
    destruct (32768 <=? truncate x) eqn:E; [apply Z.leb_le in E; lia|].
    reflexivity.
  - replace (truncate x mod 65536) with (truncate x + 65536).
    + destruct (32768 <=? truncate x + 65536) eqn:E;
        [lia | apply Z.leb_gt in E; lia].
    + apply (Z.mod_unique _ _ (-1)); lia.
Qed.

Lemma toInt16_wraps (x : Q) :
  32768 <= truncate x <= 65535 -> toInt16 x = truncate x - 65536.
Proof.
  intros H. unfold toInt16. cbn zeta. rewrite Z.mod_small by lia.
  destruct (32768 <=? truncate x) eqn:E; [reflexivity|].
  apply Z.leb_gt in E. lia.
Qed.

(** X19.  Samples within range are converted without loss of sign; a
    full-scale positive sample wraps.  Every sample becomes an element
    between [-32768] and [32767].  A sample [f] with [-1 <= f < 1] becomes
    the integer part of [f * 32768].  The conversion does not clamp: a
    sample with [1 <= f < 2], the full-scale value [1] included, becomes
    the integer part of [f * 32768] less [65536], a negative element. *)
Theorem sample_in_range_or_wraps (f : Q) :
  -32768 <= sample f <= 32767
  /\ ((-1 <= f)%Q -> (f < 1)%Q ->
      sample f = truncate (f * 32768)%Q)
  /\ ((1 <= f)%Q -> (f < 2)%Q ->
      sample f = truncate (f * 32768)%Q - 65536 /\ sample f < 0).
Proof.
  split; [apply toInt16_range|]. split.
  - intros H1 H2. unfold sample. apply toInt16_small.
    rewrite truncate_scaled. unfold Qle, Qlt in *. cbn in H1, H2.
    pose proof (quot_bounds (Qnum f * 32768) (Qden f) (-32768) 32768
                  ltac:(lia) ltac:(lia) ltac:(lia) ltac:(lia)).
    lia.
  - intros H1 H2. unfold sample.
    assert (H : 32768 <= truncate (f * 32768)%Q <= 65535).
    { rewrite truncate_scaled. unfold Qle, Qlt in *. cbn in H1, H2.
      split.
      - apply quot_lower; lia.
      - pose proof (quot_bounds (Qnum f * 32768) (Qden f) 0 65536
                      ltac:(lia) ltac:(lia) ltac:(lia) ltac:(lia)).
        lia. }
    rewrite (toInt16_wraps _ H). lia.
Qed.

(** X20.  The bytes sent stand for the elements.  Each sample gives two
    bytes, each between [0] and [255], low byte first, from which the
    element is read back. *)
Theorem pcm_bytes_round_trip (inputData : list Q) :
  length (pcmBytes inputData) = (2 * length inputData)%nat
  /\ Forall (fun b => 0 <= b <= 255) (pcmBytes inputData)
  /\ Forall (fun f =>
               exists lo hi,
                 bytesOf (sample f) = [lo; hi]
                 /\ int16Of lo hi = sample f) inputData.
Proof.
  split; [|split].
  - induction inputData as [|f fs IH]; [reflexivity|].
    unfold pcmBytes in *. cbn [flat_map]. rewrite length_app, IH. cbn. lia.
  - induction inputData as [|f fs IH]; [constructor|].
    unfold pcmBytes in *. cbn [flat_map]. apply Forall_app.
    split; [|exact IH].
    unfold bytesOf.
    pose proof (Z.mod_pos_bound (sample f) 256 ltac:(lia)).
    pose proof (Z.mod_pos_bound (sample f / 256) 256 ltac:(lia)).
    repeat constructor; lia.
  - apply Forall_forall. intros f _.
    exists (sample f mod 256), ((sample f / 256) mod 256).
    split; [reflexivity|].
    pose proof (toInt16_range (f * 32768)%Q) as Hr. fold (sample f) in Hr.
    unfold int16Of.
    pose proof (Z.div_mod (sample f) 256 ltac:(lia)) as Hd.
    pose proof (Z.mod_pos_bound (sample f) 256 ltac:(lia)) as Hm.
    destruct (Z.le_gt_cases 0 (sample f)) as [Hn | Hn].
    + assert (Hq : 0 <= sample f / 256 < 128).
      { split; [apply Z.div_pos; lia|].
        apply Z.div_lt_upper_bound; lia. }
      rewrite (Z.mod_small (sample f / 256)) by lia.
      destruct (128 <=? sample f / 256) eqn:E;
        [apply Z.leb_le in E; lia | lia].
    + assert (Hq : -128 <= sample f / 256 < 0).
      { split; [apply Z.div_le_lower_bound; lia|].
        apply Z.div_lt_upper_bound; lia. }
      replace ((sample f / 256) mod 256) with (sample f / 256 + 256)
        by (apply (Z.mod_unique _ _ (-1)); lia).
      destruct (128 <=? sample f / 256 + 256) eqn:E;
        [lia | apply Z.leb_gt in E; lia].
Qed.

End PcmFacts.

(** ** The scratchpad *)

Section ScratchpadFacts.
Import Scratchpad.

Lemma addAll_cons (c : jsstring) (cs : list jsstring) (prev : jsstring) :
  addAll (c :: cs) prev = addAll cs (handleAddToScratchpad c prev).
Proof. reflexivity. Qed.

Lemma addAll_nonempty (contents : list jsstring) (prev : jsstring) :
  prev <> [] -> addAll contents prev = prev ++ concat (map item contents).
Proof.
  revert prev. induction contents as [|c cs IH]; intros prev Hp.
  - cbn. now rewrite app_nil_r.
  - rewrite addAll_cons. unfold handleAddToScratchpad.
    rewrite (truthy_nonempty prev Hp). rewrite IH.
    + cbn [map concat]. unfold item. now rewrite <- !app_assoc.
    + destruct prev; [congruence | discriminate].
Qed.

(** X21.  The scratchpad is the list of the notes.  Calling the callback
    with each of [contents] in turn appends one line [- content] per call:
    to a scratchpad that is not empty, each after a line feed; to an empty
    one, the first without a line feed before it.  What was there is kept
    as it was, and an empty content still adds its line. *)
Theorem scratchpad_lists_notes (contents : list jsstring) (prev : jsstring) :
  addAll contents prev
  = match prev, contents with
    | _ :: _, _ => prev ++ concat (map item contents)
    | [], [] => []
    | [], c :: rest => js "- " ++ c ++ concat (map item rest)
    end.
Proof.
  destruct prev as [|x prev].
  - destruct contents as [|c rest]; [reflexivity|].
    rewrite addAll_cons. unfold handleAddToScratchpad. cbn [truthy].
    rewrite addAll_nonempty by discriminate. now rewrite <- app_assoc.
  - apply addAll_nonempty. discriminate.
Qed.

End ScratchpadFacts.

Section LateExamples.
Import Session Examples.

Lemma no_channel_call_after_teardown_witness :
  sessionPromiseRef
    (handles (run (stopSession stopEnv live)
                  [Incoming 0%Q (toolCallMessage noteCall);
                   AudioProcess 1%Q (js "AAAA")])) = None
  /\ exists new,
       effects (run (stopSession stopEnv live)
                    [Incoming 0%Q (toolCallMessage noteCall);
                     AudioProcess 1%Q (js "AAAA")])
       = effects (stopSession stopEnv live) ++ new
       /\ Forall (fun x => SessionChannel.onChannel x = false) new.
Proof.
  apply (no_channel_call_after_teardown (stopSession stopEnv live)
           [Incoming 0%Q (toolCallMessage noteCall);
            AudioProcess 1%Q (js "AAAA")]);
    [reflexivity | repeat constructor].
Defined.

Lemma late_reply_lands_in_cleared_chat_witness :
  Chat.handleSendMessage (Chat.handleNewContext ChatSamples.asked)
  = Chat.handleNewContext ChatSamples.asked
  /\ Chat.contextText
       (Chat.run ChatSamples.asked
                 [Chat.NewContext; Chat.ResponseSettled (Some (js "So."))])
     = []
  /\ Chat.chatHistory
       (Chat.run ChatSamples.asked
                 [Chat.NewContext; Chat.ResponseSettled (Some (js "So."))])
     = [{| Chat.role := Chat.model; Chat.text := js "So." |}]
  /\ Chat.isThinking
       (Chat.run ChatSamples.asked
                 [Chat.NewContext; Chat.ResponseSettled (Some (js "So."))])
     = false.
Proof.
  exact (late_reply_lands_in_cleared_chat ChatSamples.asked
           (Some (js "So.")) eq_refl eq_refl).
Defined.

End LateExamples.
